(** * A shallow embedding of the ustr string cache (src/stringcache.rs,
    src/bumpalloc.rs, src/lib.rs) and proofs about it.

    Machine words (usize, u64) are [Z]; the checked operations of the
    source are written out with their overflow tests.  Memory is a typed
    heap: a finite map from addresses to cells, where a cell is either an
    8-byte word (the [hash] and [len] fields of a [StringCacheEntry]) or a
    single byte.  A read of a missing or differently typed cell is
    undefined behaviour ([EUB]).  The hash function of [Ustr::from]
    (AHash with fixed keys) is a parameter [hasher] of the whole
    development; its result is taken modulo 2^64 as [finish()] returns a
    u64. *)

From Stdlib Require Import ZArith Lia Strings.String Strings.Byte.
From stdpp Require Import base gmap list strings.

Open Scope Z_scope.

Global Instance byte_eq_dec : EqDecision byte := Byte.byte_eq_dec.

(** ** Outcomes: a result type with the ways the code can stop *)

Inductive Error :=
| EPanic (msg : string)   (* a Rust panic (unwrap, expect, index) *)
| EAbort                  (* std::process::abort() *)
| EUB                     (* undefined behaviour: bad read, OOB get_unchecked *)
| EFuel.                  (* a loop that visited every slot without exiting *)

Inductive Result (A : Type) := Ok (a : A) | Err (e : Error).
Arguments Ok {A} a.
Arguments Err {A} e.

Global Instance Result_ret : MRet Result := fun A a => Ok a.
Global Instance Result_bind : MBind Result :=
  fun A B f m => match m with Ok a => f a | Err e => Err e end.

Definition expect {A} (o : option A) (msg : string) : Result A :=
  match o with Some a => Ok a | None => Err (EPanic msg) end.

(** ** usize arithmetic on a 64-bit target *)

Definition USIZE_MAX : Z := 2 ^ 64 - 1.
Definition ISIZE_MAX : Z := 2 ^ 63 - 1.

Definition checked_add (a b : Z) : option Z :=
  if a + b <=? USIZE_MAX then Some (a + b) else None.
Definition checked_sub (a b : Z) : option Z :=
  if 0 <=? a - b then Some (a - b) else None.
Definition checked_mul (a b : Z) : option Z :=
  if a * b <=? USIZE_MAX then Some (a * b) else None.
Definition wrapping_add (a b : Z) : Z := (a + b) mod 2 ^ 64.
(** [!x] on a usize *)
Definition usize_not (x : Z) : Z := Z.lxor x USIZE_MAX.

Definition is_power_of_two (a : Z) : bool := (0 <? a) && (Z.land a (a - 1) =? 0).

(** ** Memory *)

Inductive cell := CWord (w : Z) | CByte (b : byte).

Global Instance cell_eq_dec : EqDecision cell.
Proof. solve_decision. Defined.

Record Heap := mkHeap {
  mem : gmap Z cell;   (* initialised memory *)
  brk : Z              (* the system allocator's next free address *)
}.

Definition read_word (m : gmap Z cell) (a : Z) : Result Z :=
  match m !! a with Some (CWord w) => Ok w | _ => Err EUB end.

Fixpoint read_bytes (m : gmap Z cell) (a : Z) (n : nat) : Result (list byte) :=
  match n with
  | O => Ok []
  | S n' =>
      match m !! a with
      | Some (CByte b) => bs ← read_bytes m (a + 1) n'; Ok (b :: bs)
      | _ => Err EUB
      end
  end.

(** std::ptr::copy_nonoverlapping of a byte string to address [a] *)
Fixpoint copy_bytes (m : gmap Z cell) (a : Z) (bs : list byte) : gmap Z cell :=
  match bs with
  | [] => m
  | b :: bs' => copy_bytes (<[a := CByte b]> m) (a + 1) bs'
  end.

Definition strlen (s : list byte) : Z := Z.of_nat (length s).

(** ** std::alloc::Layout and the system allocator *)

Record Layout := mkLayout { l_size : Z; l_align : Z }.

(** Layout::from_size_align *)
Definition Layout_from_size_align (size align : Z) : option Layout :=
  if is_power_of_two align && (size <=? ISIZE_MAX - (align - 1))
  then Some (mkLayout size align) else None.

Definition round_up (n align : Z) : Z := (n + align - 1) / align * align.

(** The system allocator (std::alloc::System, outside this repository):
    a bump over the address space that never hands out an address twice;
    it returns null when the address space is exhausted. *)
Definition system_alloc (l : Layout) (hp : Heap) : Z * Heap :=
  let a := round_up (brk hp) (l_align l) in
  if a + l_size l <=? 2 ^ 64 then (a, mkHeap (mem hp) (a + l_size l))
  else (0, hp).

(** System.dealloc: the cells of the block become uninitialised. *)
Definition system_dealloc (p : Z) (l : Layout) (hp : Heap) : Heap :=
  mkHeap (filter (fun kv : Z * cell => ~ (p <= kv.1 < p + l_size l)) (mem hp))
         (brk hp).

(** ** bumpalloc.rs: LeakyBumpAlloc *)

Record LeakyBumpAlloc := mkAlloc {
  layout : Layout;
  start : Z;
  end_ : Z;
  ptr : Z
}.

Definition LeakyBumpAlloc_new (capacity alignment : Z) (hp : Heap)
  : Result (LeakyBumpAlloc * Heap) :=
  layout ← expect (Layout_from_size_align capacity alignment)
                  "called `Result::unwrap()` on an `Err` value";
  let '(start, hp') := system_alloc layout hp in
  if start =? 0 then Err (EPanic "oom") else
  let end_ := start + l_size layout in
  Ok (mkAlloc layout start end_ end_, hp').

Definition LeakyBumpAlloc_clear (a : LeakyBumpAlloc) (hp : Heap) : Heap :=
  system_dealloc (start a) (layout a) hp.

Definition LeakyBumpAlloc_allocate (a : LeakyBumpAlloc) (num_bytes : Z)
  : Result (Z * LeakyBumpAlloc) :=
  let p := ptr a in
  new_ptr ← expect (checked_sub p num_bytes) "ptr sub overflowed";
  let new_ptr := Z.land new_ptr (usize_not (l_align (layout a) - 1)) in
  if new_ptr <? start a then Err EAbort else
  Ok (new_ptr, mkAlloc (layout a) (start a) (end_ a) new_ptr).

Definition LeakyBumpAlloc_allocated (a : LeakyBumpAlloc) : Z := end_ a - ptr a.
Definition LeakyBumpAlloc_capacity (a : LeakyBumpAlloc) : Z := l_size (layout a).

(** ** stringcache.rs: StringCache *)

Definition INITIAL_CAPACITY : Z := Z.shiftl 1 20.
Definition INITIAL_ALLOC : Z := Z.shiftl 4 20.
Definition BIN_SHIFT : Z := 6.
Definition NUM_BINS : Z := Z.shiftl 1 BIN_SHIFT.
(** 8 * size_of::<usize>() - BIN_SHIFT *)
Definition TOP_SHIFT : Z := 8 * 8 - BIN_SHIFT.
(** size_of / align_of StringCacheEntry { hash: u64, len: usize } *)
Definition SIZE_OF_ENTRY : Z := 16.
Definition ALIGN_OF_ENTRY : Z := 8.

(** A [Vec<*mut StringCacheEntry>] of length [slots_len]; the map holds the
    non-null slots, an index in range that is absent from it is null. *)
Record Slots := mkSlots { slots_len : Z; slots : gmap Z Z }.

Record StringCache := mkCache {
  alloc : LeakyBumpAlloc;
  old_allocs : list LeakyBumpAlloc;
  entries : Slots;
  num_entries : Z;
  mask : Z;
  total_allocated : Z
}.

(** vec![null; n] *)
Definition vec_null (n : Z) : Result Slots :=
  if n * 8 <=? ISIZE_MAX then Ok (mkSlots n ∅) else Err (EPanic "capacity overflow").

(** get_unchecked: undefined behaviour out of range; 0 is null *)
Definition get_unchecked (v : Slots) (i : Z) : Result Z :=
  if (0 <=? i) && (i <? slots_len v) then Ok (default 0 (slots v !! i)) else Err EUB.

(** v[i] (bounds-checked) *)
Definition index (v : Slots) (i : Z) : Result Z :=
  if (0 <=? i) && (i <? slots_len v) then Ok (default 0 (slots v !! i))
  else Err (EPanic "index out of bounds").

(** v[i] = x with a non-null [x] *)
Definition set_index (v : Slots) (i x : Z) : Result Slots :=
  if (0 <=? i) && (i <? slots_len v) then Ok (mkSlots (slots_len v) (<[i := x]> (slots v)))
  else Err (EPanic "index out of bounds").

Definition StringCache_new (hp : Heap) : Result (StringCache * Heap) :=
  let capacity := INITIAL_CAPACITY / NUM_BINS in
  '(a, hp') ← LeakyBumpAlloc_new (INITIAL_ALLOC / NUM_BINS) ALIGN_OF_ENTRY hp;
  Ok (mkCache a [] (mkSlots capacity ∅) 0 (capacity - 1) capacity, hp').

(** The test on a candidate slot: [sce.hash == hash && sce.len ==
    string.len() && chars == string]; [&**entry] reads both header words. *)
Definition entry_matches (m : gmap Z cell) (entry : Z) (s : list byte) (hash : Z)
  : Result bool :=
  h ← read_word m entry;
  l ← read_word m (entry + 8);
  if (h =? hash) && (l =? strlen s) then
    bs ← read_bytes m (entry + SIZE_OF_ENTRY) (Z.to_nat l);
    Ok (bool_decide (bs = s))
  else Ok false.

Inductive Probe := Hit (char_ptr : Z) | Vacant (pos : Z).

(** The probe loop shared by [get_existing] and [insert] (the two loops
    of the source are the same code: [Hit] is the early return of a
    matching entry's chars, [Vacant] the null slot).  The source loop has
    no bound; [fuel] counts the iterations. *)
Fixpoint probe_loop (fuel : nat) (v : Slots) (mask : Z) (m : gmap Z cell)
    (s : list byte) (hash pos dist : Z) : Result Probe :=
  match fuel with
  | O => Err EFuel
  | S fuel' =>
      entry ← get_unchecked v pos;
      if entry =? 0 then Ok (Vacant pos) else
      matched ← entry_matches m entry s hash;
      if (matched : bool) then Ok (Hit (entry + SIZE_OF_ENTRY)) else
      let dist := dist + 1 in
      probe_loop fuel' v mask m s hash (Z.land (pos + dist) mask) dist
  end.

(** One pass over every slot of the table. *)
Definition probe_fuel (sc : StringCache) : nat := Z.to_nat (mask sc + 1).

Definition StringCache_probe (sc : StringCache) (m : gmap Z cell) (s : list byte)
    (hash : Z) : Result Probe :=
  probe_loop (probe_fuel sc) (entries sc) (mask sc) m s hash (Z.land (mask sc) hash) 0.

Definition StringCache_get_existing (sc : StringCache) (m : gmap Z cell)
    (s : list byte) (hash : Z) : Result (option Z) :=
  r ← StringCache_probe sc m s hash;
  match r with Hit p => Ok (Some p) | Vacant _ => Ok None end.

(** The probe loop of [grow]: find a null slot of the new table. *)
Fixpoint find_empty (fuel : nat) (v : Slots) (new_mask pos dist : Z) : Result Z :=
  match fuel with
  | O => Err EFuel
  | S fuel' =>
      e ← index v pos;
      if e =? 0 then Ok pos else
      let dist := dist + 1 in
      find_empty fuel' v new_mask (Z.land (wrapping_add pos dist) new_mask) dist
  end.

(** The copy loop of [grow] over the old slots, in index order, with the
    early [break] once [to_copy] entries have been moved. *)
Fixpoint grow_copy (m : gmap Z cell) (new_mask : Z) (old : Slots) (idxs : list Z)
    (new_entries : Slots) (to_copy : Z) : Result Slots :=
  match idxs with
  | [] => Ok new_entries
  | i :: idxs' =>
      let e := default 0 (slots old !! i) in
      if e =? 0 then grow_copy m new_mask old idxs' new_entries to_copy else
      hash ← read_word m e;
      pos ← find_empty (Z.to_nat (new_mask + 1)) new_entries new_mask
                       (Z.land hash new_mask) 0;
      new_entries ← set_index new_entries pos e;
      let to_copy := to_copy - 1 in
      if to_copy =? 0 then Ok new_entries
      else grow_copy m new_mask old idxs' new_entries to_copy
  end.

Definition StringCache_grow (sc : StringCache) (m : gmap Z cell) : Result StringCache :=
  let new_mask := mask sc * 2 + 1 in
  new_entries ← vec_null (new_mask + 1);
  new_entries ← grow_copy m new_mask (entries sc) (seqZ 0 (slots_len (entries sc)))
                          new_entries (num_entries sc);
  Ok (mkCache (alloc sc) (old_allocs sc) new_entries (num_entries sc) new_mask
              (total_allocated sc)).

(** The entry written by [insert]: header, characters, trailing NUL. *)
Definition write_entry (m : gmap Z cell) (e hash : Z) (s : list byte) : gmap Z cell :=
  let m := <[e := CWord hash]> m in
  let m := <[e + 8 := CWord (strlen s)]> m in
  let m := copy_bytes m (e + SIZE_OF_ENTRY) s in
  <[e + SIZE_OF_ENTRY + strlen s := CByte x00]> m.

(** The arena check of [insert]: retire the arena and install one of
    [max(2 * capacity, alloc_size)] bytes when [alloc_size] does not fit. *)
Definition StringCache_reserve (sc : StringCache) (hp : Heap) (alloc_size : Z)
  : Result (StringCache * Heap) :=
  let capacity := LeakyBumpAlloc_capacity (alloc sc) in
  let allocated := LeakyBumpAlloc_allocated (alloc sc) in
  sum ← expect (checked_add alloc_size allocated) "overflowed alloc_size + allocated";
  if capacity <? sum then
    c2 ← expect (checked_mul capacity 2) "capacity * 2 overflowed";
    let new_capacity := Z.max c2 alloc_size in
    '(a, hp') ← LeakyBumpAlloc_new new_capacity ALIGN_OF_ENTRY hp;
    Ok (mkCache a (old_allocs sc ++ [alloc sc]) (entries sc) (num_entries sc)
                (mask sc) (total_allocated sc + new_capacity), hp')
  else Ok (sc, hp).

Definition StringCache_insert (sc : StringCache) (hp : Heap) (s : list byte) (hash : Z)
  : Result (Z * StringCache * Heap) :=
  r ← StringCache_probe sc (mem hp) s hash;
  match r with
  | Hit p => Ok (p, sc, hp)
  | Vacant pos =>
      let byte_len := strlen s + 1 in
      let alloc_size := SIZE_OF_ENTRY + byte_len in
      '(sc1, hp1) ← StringCache_reserve sc hp alloc_size;
      '(e, a) ← LeakyBumpAlloc_allocate (alloc sc1) alloc_size;
      let ents := mkSlots (slots_len (entries sc1)) (<[pos := e]> (slots (entries sc1))) in
      let m := write_entry (mem hp1) e hash s in
      let sc2 := mkCache a (old_allocs sc1) ents (num_entries sc1 + 1) (mask sc1)
                         (total_allocated sc1) in
      sc3 ← (if mask sc2 <? num_entries sc2 * 2 then StringCache_grow sc2 m else Ok sc2);
      Ok (e + SIZE_OF_ENTRY, sc3, mkHeap m (brk hp1))
  end.

Fixpoint dealloc_all (l : list LeakyBumpAlloc) (hp : Heap) : Heap :=
  match l with
  | [] => hp
  | a :: l' => dealloc_all l' (LeakyBumpAlloc_clear a hp)
  end.

Definition StringCache_clear (sc : StringCache) (hp : Heap) : Result (StringCache * Heap) :=
  (* write_bytes(entries, 0, mask + 1) *)
  if slots_len (entries sc) <? mask sc + 1 then Err EUB else
  let ents := mkSlots (slots_len (entries sc))
                (filter (fun kv : Z * Z => mask sc + 1 <= kv.1) (slots (entries sc))) in
  let hp := dealloc_all (old_allocs sc) hp in
  let hp := LeakyBumpAlloc_clear (alloc sc) hp in
  '(a, hp) ← LeakyBumpAlloc_new (INITIAL_ALLOC / NUM_BINS) ALIGN_OF_ENTRY hp;
  Ok (mkCache a [] ents 0 (mask sc) 0, hp).

Definition StringCache_total_allocated (sc : StringCache) : Z :=
  LeakyBumpAlloc_allocated (alloc sc)
  + fold_right Z.add 0 (map LeakyBumpAlloc_allocated (old_allocs sc)).

(** ** The iterator over the arenas (stringcache.rs) *)

Record StringCacheIterator := mkIter {
  allocs : list (Z * Z);
  current_alloc : Z;
  current_ptr : Z
}.

Definition round_up_to (n align : Z) : Result Z :=
  s ← expect (checked_add n align) "round_up_to overflowed";
  Ok (Z.land (s - 1) (usize_not (align - 1))).

Definition nth_alloc (l : list (Z * Z)) (i : Z) : Result (Z * Z) :=
  if 0 <=? i then expect (l !! Z.to_nat i) "index out of bounds"
  else Err (EPanic "index out of bounds").

Definition StringCacheIterator_next (m : gmap Z cell) (it : StringCacheIterator)
  : Result (option (list byte) * StringCacheIterator) :=
  '(_, end_) ← nth_alloc (allocs it) (current_alloc it);
  r ← (if end_ <=? current_ptr it then
         if current_alloc it =? Z.of_nat (length (allocs it)) - 1 then Ok None
         else
           let ca := current_alloc it + 1 in
           '(cp, _) ← nth_alloc (allocs it) ca;
           Ok (Some (mkIter (allocs it) ca cp))
       else Ok (Some it));
  match r with
  | None => Ok (None, it)
  | Some it =>
      (* &*(current_ptr as *const StringCacheEntry) *)
      let sce := current_ptr it in
      _ ← read_word m sce;
      len ← read_word m (sce + 8);
      let char_ptr := sce + SIZE_OF_ENTRY in
      step ← round_up_to (len + 1) ALIGN_OF_ENTRY;
      s ← read_bytes m char_ptr (Z.to_nat len);
      Ok (Some s, mkIter (allocs it) (current_alloc it) (char_ptr + step))
  end.

(** Drain an iterator, calling [next] at most [fuel] times. *)
Fixpoint drain (fuel : nat) (m : gmap Z cell) (it : StringCacheIterator)
  : Result (list (list byte)) :=
  match fuel with
  | O => Err EFuel
  | S fuel' =>
      '(o, it') ← StringCacheIterator_next m it;
      match o with
      | None => Ok []
      | Some s => rest ← drain fuel' m it'; Ok (s :: rest)
      end
  end.

(** ** lib.rs: the bins, [Ustr] and the public functions *)

Record World := mkWorld { bins : list StringCache; heap : Heap }.

(** The first address the system allocator hands out. *)
Definition HEAP_BASE : Z := 4096.

Fixpoint make_bins (n : nat) (hp : Heap) : Result (list StringCache * Heap) :=
  match n with
  | O => Ok ([], hp)
  | S n' =>
      '(sc, hp) ← StringCache_new hp;
      '(rest, hp) ← make_bins n' hp;
      Ok (sc :: rest, hp)
  end.

(** The lazy_static STRING_CACHE: NUM_BINS fresh caches. *)
Definition STRING_CACHE_init : Result World :=
  '(bs, hp) ← make_bins (Z.to_nat NUM_BINS) (mkHeap ∅ HEAP_BASE);
  Ok (mkWorld bs hp).

Definition whichbin (hash : Z) : Z := Z.shiftr hash TOP_SHIFT mod NUM_BINS.

Record Ustr := mkUstr { char_ptr : Z }.

(** The accessors of [Ustr] read the entry header at negative offsets. *)
Definition Ustr_as_str (m : gmap Z cell) (u : Ustr) : Result (list byte) :=
  len ← read_word m (char_ptr u - 8);
  read_bytes m (char_ptr u) (Z.to_nat len).

Definition Ustr_len (m : gmap Z cell) (u : Ustr) : Result Z :=
  (* as_string_cache_entry().len *)
  read_word m (char_ptr u - 8 - 8 + 8).

Definition Ustr_precomputed_hash (m : gmap Z cell) (u : Ustr) : Result Z :=
  read_word m (char_ptr u - 8 - 8).

(** The byte at [as_char_ptr() + i]. *)
Definition Ustr_byte_at (m : gmap Z cell) (u : Ustr) (i : Z) : Result byte :=
  match m !! (char_ptr u + i) with Some (CByte b) => Ok b | _ => Err EUB end.

Section World.
Context (hasher : list byte -> Z).

(** AHasher::finish() *)
Definition ahash (s : list byte) : Z := hasher s mod 2 ^ 64.

Definition bin (w : World) (i : Z) : Result StringCache :=
  if 0 <=? i then expect (bins w !! Z.to_nat i) "index out of bounds"
  else Err (EPanic "index out of bounds").

Definition Ustr_from (w : World) (s : list byte) : Result (Ustr * World) :=
  let hash := ahash s in
  sc ← bin w (whichbin hash);
  '(p, sc', hp') ← StringCache_insert sc (heap w) s hash;
  Ok (mkUstr p, mkWorld (<[Z.to_nat (whichbin hash) := sc']> (bins w)) hp').

Definition Ustr_from_existing (w : World) (s : list byte) : Result (option Ustr) :=
  let hash := ahash s in
  sc ← bin w (whichbin hash);
  r ← StringCache_get_existing sc (mem (heap w)) s hash;
  Ok (match r with Some p => Some (mkUstr p) | None => None end).

Definition ustr := Ustr_from.
Definition existing_ustr := Ustr_from_existing.

End World.

Fixpoint clear_bins (l : list StringCache) (hp : Heap) : Result (list StringCache * Heap) :=
  match l with
  | [] => Ok ([], hp)
  | sc :: l' =>
      '(sc', hp) ← StringCache_clear sc hp;
      '(rest, hp) ← clear_bins l' hp;
      Ok (sc' :: rest, hp)
  end.

Definition _clear_cache (w : World) : Result World :=
  '(bs, hp) ← clear_bins (bins w) (heap w);
  Ok (mkWorld bs hp).

(** The free functions of lib.rs whose names clash with the fields of
    [StringCache]. *)
Module Lib.
Definition total_allocated (w : World) : Z :=
  fold_right Z.add 0 (map StringCache_total_allocated (bins w)).

Definition num_entries (w : World) : Z :=
  fold_right Z.add 0 (map num_entries (bins w)).
End Lib.

(** The (ptr, end) pairs snapshotted for one bin. *)
Definition bin_allocs (sc : StringCache) : list (Z * Z) :=
  map (fun a => (ptr a, end_ a)) (old_allocs sc)
  ++ (if ptr (alloc sc) =? end_ (alloc sc) then [] else [(ptr (alloc sc), end_ (alloc sc))]).

Definition string_cache_iter (w : World) : Result StringCacheIterator :=
  let allocs := concat (map bin_allocs (bins w)) in
  '(current_ptr, _) ← nth_alloc allocs 0;
  Ok (mkIter allocs 0 current_ptr).

(** ** Whole-program runs *)

(** The operations a process performs on the cache. [Iter] takes a
    snapshot with [string_cache_iter]; draining it only reads memory. *)
Inductive Op :=
| Intern (s : list byte)
| Existing (s : list byte)
| Iter
| Clear.

Section Run.
Context (hasher : list byte -> Z).

Definition exec_op (w : World) (op : Op) : Result World :=
  match op with
  | Intern s => '(_, w') ← Ustr_from hasher w s; Ok w'
  | Existing s => _ ← Ustr_from_existing hasher w s; Ok w
  | Iter => _ ← string_cache_iter w; Ok w
  | Clear => _clear_cache w
  end.

Fixpoint run (w : World) (ops : list Op) : Result World :=
  match ops with
  | [] => Ok w
  | op :: ops' => w' ← exec_op w op; run w' ops'
  end.

End Run.

Definition not_clear (op : Op) : bool := match op with Clear => false | _ => true end.

(** The strings interned since the last [Clear], newest first. *)
Fixpoint live_from (acc : list (list byte)) (ops : list Op) : list (list byte) :=
  match ops with
  | [] => acc
  | Intern s :: ops' => live_from (s :: acc) ops'
  | Clear :: ops' => live_from [] ops'
  | _ :: ops' => live_from acc ops'
  end.

(** ** Triangular probing *)

(** The position of the [i]-th probe: [pos = mask & hash], then
    [dist += 1; pos = (pos + dist) & mask]. *)
Fixpoint probe_pos (mask h : Z) (i : nat) : Z :=
  match i with
  | O => Z.land mask h
  | S i' => Z.land (probe_pos mask h i' + Z.of_nat i) mask
  end.

(** Triangular numbers 0, 1, 3, 6, 10, ... *)
Fixpoint tri (i : nat) : Z :=
  match i with O => 0 | S i' => tri i' + Z.of_nat i end.

(** Slot [pos] is reachable for hash [h]: it is probe number [i] within
    the first pass and every earlier probe position is occupied. *)
Definition probe_ok (mask : Z) (sl : gmap Z Z) (h pos : Z) : Prop :=
  exists i : nat, (i < Z.to_nat (mask + 1))%nat /\ probe_pos mask h i = pos /\
    forall j : nat, (j < i)%nat -> is_Some (sl !! probe_pos mask h j).

(** ** The invariant of the cache *)

(** A well-formed entry at header address [e] for string [s] with stored
    hash [h]: header words, characters and the trailing NUL. *)
Definition entry_ok (m : gmap Z cell) (e h : Z) (s : list byte) : Prop :=
  read_word m e = Ok h /\ read_word m (e + 8) = Ok (strlen s) /\
  read_bytes m (e + SIZE_OF_ENTRY) (length s) = Ok s /\
  m !! (e + SIZE_OF_ENTRY + strlen s) = Some (CByte x00).

(** The bytes [e .. e + 16 + len + 1) of an entry. *)
Definition footprint_in (e : Z) (s : list byte) (lo hi : Z) : Prop :=
  lo <= e /\ e + SIZE_OF_ENTRY + strlen s + 1 <= hi.

Definition ranges_disjoint (a b : LeakyBumpAlloc) : Prop :=
  end_ a <= start b \/ end_ b <= start a.

Definition arenas (sc : StringCache) : list LeakyBumpAlloc := alloc sc :: old_allocs sc.

Definition arena_wf (a : LeakyBumpAlloc) : Prop :=
  l_align (layout a) = ALIGN_OF_ENTRY /\ HEAP_BASE <= start a /\
  start a mod ALIGN_OF_ENTRY = 0 /\ end_ a = start a + l_size (layout a) /\
  start a <= ptr a <= end_ a /\ end_ a <= 2 ^ 64.

(** Every non-null slot holds a pointer to an entry. *)
Definition slots_reachable (m : gmap Z cell) (mask : Z) (sl : gmap Z Z) : Prop :=
  forall pos e, sl !! pos = Some e ->
    exists h, read_word m e = Ok h /\ probe_ok mask sl h pos.

Section Inv.
Context (hasher : list byte -> Z).

Record shard_inv (m : gmap Z cell) (k : Z) (sc : StringCache) : Prop := {
  si_pow : exists n : nat, mask sc + 1 = 2 ^ Z.of_nat n;
  si_mask_bound : 1 <= mask sc /\ mask sc + 1 <= 2 ^ 60;
  si_len : slots_len (entries sc) = mask sc + 1;
  si_keys : forall pos e, slots (entries sc) !! pos = Some e ->
      0 <= pos < mask sc + 1 /\ 0 < e;
  si_num : num_entries sc = Z.of_nat (size (slots (entries sc)));
  si_entry : forall pos e, slots (entries sc) !! pos = Some e ->
      exists s, entry_ok m e (ahash hasher s) s /\ whichbin (ahash hasher s) = k /\
        probe_ok (mask sc) (slots (entries sc)) (ahash hasher s) pos /\
        exists a, a ∈ arenas sc /\ footprint_in e s (ptr a) (end_ a);
  si_uniq : forall p q ep eq s,
      slots (entries sc) !! p = Some ep -> slots (entries sc) !! q = Some eq ->
      entry_ok m ep (ahash hasher s) s -> entry_ok m eq (ahash hasher s) s -> p = q;
  si_arenas : forall a, a ∈ arenas sc -> arena_wf a;
  si_cur_sep : forall b, b ∈ old_allocs sc -> ranges_disjoint (alloc sc) b
}.

Record world_inv (w : World) : Prop := {
  wi_len : length (bins w) = Z.to_nat NUM_BINS;
  wi_shards : forall k sc, bins w !! k = Some sc -> shard_inv (mem (heap w)) (Z.of_nat k) sc;
  wi_brk : forall k sc a, bins w !! k = Some sc -> a ∈ arenas sc -> end_ a <= brk (heap w);
  wi_brk_base : HEAP_BASE <= brk (heap w);
  wi_load : forall k sc, bins w !! k = Some sc -> num_entries sc * 2 <= mask sc;
  wi_sep : forall k1 k2 sc1 sc2 a1 a2, k1 <> k2 ->
      bins w !! k1 = Some sc1 -> bins w !! k2 = Some sc2 ->
      a1 ∈ arenas sc1 -> a2 ∈ arenas sc2 -> ranges_disjoint a1 a2
}.

(** [s] is held by some slot of some bin. *)
Definition present (w : World) (s : list byte) : Prop :=
  exists k sc pos e, bins w !! k = Some sc /\ slots (entries sc) !! pos = Some e /\
    entry_ok (mem (heap w)) e (ahash hasher s) s.

(** The handle [u] denotes a live entry for [s] in bin [k]. *)
Definition handle_of (w : World) (u : Ustr) (s : list byte) : Prop :=
  exists k sc pos, bins w !! k = Some sc /\
    slots (entries sc) !! pos = Some (char_ptr u - SIZE_OF_ENTRY) /\
    entry_ok (mem (heap w)) (char_ptr u - SIZE_OF_ENTRY) (ahash hasher s) s.

End Inv.

Definition Reachable (hasher : list byte -> Z) (w : World) : Prop :=
  exists w0 ops, STRING_CACHE_init = Ok w0 /\ run hasher w0 ops = Ok w.

(** Probe [j] for [hq] lands on a slot holding an entry for another
    string than [s]. *)
Definition occ_other (v : Slots) (m : gmap Z cell) (mask : Z) (s : list byte) (hq : Z)
    (j : nat) : Prop :=
  exists e h t, slots v !! probe_pos mask hq j = Some e /\ entry_ok m e h t /\ t <> s.

(** The number of non-null slots among [idxs]. *)
Definition count_some (sl : gmap Z Z) (idxs : list Z) : nat :=
  length (filter (fun i => is_Some (sl !! i)) idxs).

(** Every entry held by a slot of [w] is still held, with the same bytes,
    by a slot of the same bin in [w']. *)
Definition persists (w w' : World) : Prop :=
  forall k sc pos e h t, bins w !! k = Some sc -> slots (entries sc) !! pos = Some e ->
    entry_ok (mem (heap w)) e h t ->
    exists sc' pos', bins w' !! k = Some sc' /\ slots (entries sc') !! pos' = Some e /\
      entry_ok (mem (heap w')) e h t.

(** A shard as [StringCache::new] and [StringCache::clear] leave it: no
    entries, no retired arena, an unused current arena of
    INITIAL_ALLOC / NUM_BINS bytes. *)
Definition fresh_shard (sc : StringCache) : Prop :=
  slots (entries sc) = ∅ /\ num_entries sc = 0 /\ old_allocs sc = [] /\
  arena_wf (alloc sc) /\ l_size (layout (alloc sc)) = INITIAL_ALLOC / NUM_BINS /\
  ptr (alloc sc) = end_ (alloc sc).

(** The shape of a slot table: a power-of-two length and its mask. *)
Definition table_shape (sc : StringCache) : Prop :=
  (exists n : nat, mask sc + 1 = 2 ^ Z.of_nat n) /\ 1 <= mask sc /\ mask sc + 1 <= 2 ^ 60 /\
  slots_len (entries sc) = mask sc + 1.

(** The current arenas of the bins lie in increasing address order. *)
Definition arenas_ordered (bs : list StringCache) : Prop :=
  forall i j sci scj, (i < j)%nat -> bs !! i = Some sci -> bs !! j = Some scj ->
    end_ (alloc sci) <= start (alloc scj).

(** ** More of the interface *)

(** StringCache::total_capacity *)
Definition StringCache_total_capacity (sc : StringCache) : Z :=
  LeakyBumpAlloc_capacity (alloc sc)
  + fold_right Z.add 0 (map LeakyBumpAlloc_capacity (old_allocs sc)).

(** lib.rs total_capacity: the sum over the bins. *)
Definition total_capacity (w : World) : Z :=
  fold_right Z.add 0 (map StringCache_total_capacity (bins w)).

(** Ustr::is_empty *)
Definition Ustr_is_empty (m : gmap Z cell) (u : Ustr) : Result bool :=
  l ← Ustr_len m u; Ok (l =? 0).

(** Ustr::as_cstr: [from_raw_parts(self.as_ptr(), self.len() + 1)], where
    [as_ptr] goes through [Deref] to [as_str]. *)
Definition Ustr_as_cstr (m : gmap Z cell) (u : Ustr) : Result (list byte) :=
  _ ← Ustr_as_str m u;
  l ← Ustr_len m u;
  read_bytes m (char_ptr u) (Z.to_nat (l + 1)).

(** Ord for [[u8]] (and so for [str]): lexicographic on the bytes, a
    proper prefix first. *)
Fixpoint bytes_cmp (a b : list byte) : comparison :=
  match a, b with
  | [], [] => Eq
  | [], _ :: _ => Lt
  | _ :: _, [] => Gt
  | x :: a', y :: b' =>
      match N.compare (Byte.to_N x) (Byte.to_N y) with
      | Eq => bytes_cmp a' b'
      | c => c
      end
  end.

(** Ord::cmp and PartialOrd::partial_cmp for Ustr: compare [as_str]. *)
Definition Ustr_cmp (m : gmap Z cell) (u v : Ustr) : Result comparison :=
  a ← Ustr_as_str m u; b ← Ustr_as_str m v; Ok (bytes_cmp a b).

Definition Ustr_partial_cmp (m : gmap Z cell) (u v : Ustr) : Result (option comparison) :=
  a ← Ustr_as_str m u; b ← Ustr_as_str m v; Ok (Some (bytes_cmp a b)).

(** #[derive(PartialEq)] on Ustr: the [NonNull] pointers are compared. *)
Definition Ustr_eq (u v : Ustr) : bool := char_ptr u =? char_ptr v.

(** PartialEq<&str> (and PartialEq<String>) for Ustr *)
Definition Ustr_eq_str (m : gmap Z cell) (u : Ustr) (t : list byte) : Result bool :=
  s ← Ustr_as_str m u; Ok (bool_decide (s = t)).

(** ** hash.rs: IdentityHasher, on a little-endian target *)

Definition byte_of_Z (z : Z) : byte :=
  match Byte.of_N (Z.to_N z) with Some b => b | None => x00 end.

(** u64::to_ne_bytes *)
Definition u64_to_ne_bytes (x : Z) : list byte :=
  map (fun i => byte_of_Z (Z.shiftr x (8 * Z.of_nat i) mod 256)) (seq 0 8).

(** NativeEndian::read_u64 of an 8-byte buffer *)
Definition read_u64_ne (bs : list byte) : Z :=
  fold_right (fun b acc => Z.of_N (Byte.to_N b) + 256 * acc) 0 bs.

Record IdentityHasher := mkIdentityHasher { ih_hash : Z }.

Definition IdentityHasher_default : IdentityHasher := mkIdentityHasher 0.

Definition IdentityHasher_write (st : IdentityHasher) (bytes : list byte) : IdentityHasher :=
  if Nat.eqb (length bytes) 8 then mkIdentityHasher (read_u64_ne bytes) else st.

Definition IdentityHasher_finish (st : IdentityHasher) : Z := ih_hash st.

(** Hash for Ustr: [self.precomputed_hash().hash(state)], i.e.
    [state.write_u64(h)], whose default body is [self.write(&h.to_ne_bytes())]. *)
Definition Ustr_hash (m : gmap Z cell) (u : Ustr) (st : IdentityHasher) : Result IdentityHasher :=
  h ← Ustr_precomputed_hash m u; Ok (IdentityHasher_write st (u64_to_ne_bytes h)).

(** ** serialization.rs *)

(** Serialize for Ustr: [serializer.serialize_str(self.as_str())] *)
Definition Ustr_serialize (m : gmap Z cell) (u : Ustr) : Result (list byte) := Ustr_as_str m u.

Section Serde.
Context (hasher : list byte -> Z).

(** UstrVisitor::visit_str: [Ustr::from(s)] *)
Definition UstrVisitor_visit_str (w : World) (s : list byte) : Result (Ustr * World) :=
  Ustr_from hasher w s.

(** BinsVisitor::visit_seq: [ustr(&s)] for every element, in order. *)
Fixpoint BinsVisitor_visit_seq (w : World) (seq : list (list byte)) : Result World :=
  match seq with
  | [] => Ok w
  | s :: seq' => '(_, w') ← Ustr_from hasher w s; BinsVisitor_visit_seq w' seq'
  end.

End Serde.

(** Serialize for Bins: [string_cache_iter().collect()], calling [next] at
    most [fuel] times. *)
Definition Bins_serialize (fuel : nat) (w : World) : Result (list (list byte)) :=
  it ← string_cache_iter w; drain fuel (mem (heap w)) it.

(** ** Concrete inputs *)

(** [Result::unwrap_or] *)
Definition unwrap_or {A} (r : Result A) (d : A) : A :=
  match r with Ok a => a | Err _ => d end.

(** A hasher for concrete runs (a polynomial over the bytes, shifted so
    that the bin bits vary). *)
Definition demo_hasher (s : list byte) : Z :=
  fold_left (fun acc b => acc * 257 + Z.of_N (Byte.to_N b)) s 1 * 2 ^ 50.

(** The cache right after the lazy_static initialisation. *)
Definition init_world : World := unwrap_or STRING_CACHE_init (mkWorld [] (mkHeap ∅ HEAP_BASE)).

(** [ustr(s)] with [demo_hasher]. *)
Definition intern_demo (w : World) (s : list byte) : Ustr * World :=
  unwrap_or (Ustr_from demo_hasher w s) (mkUstr 0, w).

(** "ab" and "cd" *)
Definition str_ab : list byte := [x61; x62].
Definition str_cd : list byte := [x63; x64].

Definition demo_ops : list Op := [Intern str_cd; Existing str_ab; Iter].

(** Intern "ab", run [demo_ops], intern "ab" again. *)
Definition demo_ua : Ustr := fst (intern_demo init_world str_ab).
Definition demo_w1 : World := snd (intern_demo init_world str_ab).
Definition demo_w2 : World := unwrap_or (run demo_hasher demo_w1 demo_ops) demo_w1.
Definition demo_ub : Ustr := fst (intern_demo demo_w2 str_ab).
Definition demo_w3 : World := snd (intern_demo demo_w2 str_ab).

(** The cache of [demo_w1] after [_clear_cache]. *)
Definition demo_cleared : World := unwrap_or (_clear_cache demo_w1) demo_w1.

(** A placeholder shard for [Option::unwrap_or]. *)
Definition empty_cache : StringCache :=
  mkCache (mkAlloc (mkLayout 0 ALIGN_OF_ENTRY) 0 0 0) [] (mkSlots 0 ∅) 0 0 0.

(** Bin 0 of the initial cache and the arena check [insert] makes for a
    20-byte entry. *)
Definition demo_bin0 : StringCache := default empty_cache (bins init_world !! 0%nat).
Definition demo_reserved : StringCache * Heap :=
  unwrap_or (StringCache_reserve demo_bin0 (heap init_world) 20) (demo_bin0, heap init_world).

(** "cd" interned after "ab". *)
Definition demo_uc : Ustr := fst (intern_demo demo_w1 str_cd).
Definition demo_w4 : World := snd (intern_demo demo_w1 str_cd).

(** A run from the initial cache that interns "ab" twice. *)
Definition demo_ops3 : list Op := [Intern str_ab; Intern str_cd; Intern str_ab].
Definition demo_run3 : World := unwrap_or (run demo_hasher init_world demo_ops3) init_world.

(** Deserializing the sequence "ab", "cd", "ab" into the initial cache. *)
Definition demo_seq : list (list byte) := [str_ab; str_cd; str_ab].
Definition demo_seq_world : World :=
  unwrap_or (BinsVisitor_visit_seq demo_hasher init_world demo_seq) init_world.

(** [StringCache::new] on an empty heap. *)
Definition demo_heap : Heap := mkHeap ∅ HEAP_BASE.
Definition demo_new : StringCache * Heap :=
  unwrap_or (StringCache_new demo_heap) (empty_cache, demo_heap).

(** The entry of a 2-byte string bumped from the arena of [demo_bin0]. *)
Definition demo_entry : Z * LeakyBumpAlloc :=
  unwrap_or (LeakyBumpAlloc_allocate (alloc demo_bin0) (SIZE_OF_ENTRY + (2 + 1)))
            (0, alloc demo_bin0).

(** * Proofs *)

Lemma bind_Ok {A B} (a : A) (f : A -> Result B) : (Ok a ≫= f) = f a.
Proof. reflexivity. Qed.

Lemma Ok_inj {A} (a b : A) : Ok a = Ok b -> a = b.
Proof. intros [= ->]. reflexivity. Qed.

Lemma bind_Err {A B} e (f : A -> Result B) : (Err e ≫= f) = Err e.
Proof. reflexivity. Qed.

(** ** Triangular probing on a power-of-two table *)

Lemma tri_double i : 2 * tri i = Z.of_nat i * (Z.of_nat i + 1).
Proof. induction i as [|i IH]; simpl tri; [reflexivity|]. rewrite Nat2Z.inj_succ. nia. Qed.

Lemma tri_nonneg i : 0 <= tri i.
Proof. pose proof (tri_double i). nia. Qed.

Lemma land_mask_mod (mask a : Z) (n : nat) :
  mask + 1 = 2 ^ Z.of_nat n -> Z.land a mask = a mod 2 ^ Z.of_nat n.
Proof.
  intros Hm. assert (mask = Z.ones (Z.of_nat n)) as ->.
  { rewrite Z.ones_equiv. lia. }
  apply Z.land_ones. lia.
Qed.

Lemma probe_pos_closed mask h n i :
  mask + 1 = 2 ^ Z.of_nat n -> probe_pos mask h i = (h + tri i) mod 2 ^ Z.of_nat n.
Proof.
  intros Hm. induction i as [|i IH]; simpl probe_pos.
  - rewrite Z.land_comm, (land_mask_mod mask h n Hm). f_equal. simpl. lia.
  - rewrite IH, (land_mask_mod mask _ n Hm). simpl tri.
    rewrite Zplus_mod_idemp_l. f_equal. lia.
Qed.

Lemma probe_pos_range mask h n i :
  mask + 1 = 2 ^ Z.of_nat n -> 0 <= probe_pos mask h i < mask + 1.
Proof.
  intros Hm. rewrite (probe_pos_closed mask h n i Hm), Hm.
  apply Z.mod_pos_bound. apply Z.pow_pos_nonneg; lia.
Qed.

Lemma pow2_divide_odd (n : nat) (a b : Z) :
  Z.odd b = true -> (2 ^ Z.of_nat n | a * b) -> (2 ^ Z.of_nat n | a).
Proof.
  revert a. induction n as [|n IH]; intros a Hb Hd.
  - simpl. apply Z.divide_1_l.
  - rewrite Nat2Z.inj_succ, Z.pow_succ_r in * by lia.
    assert (Z.even a = true) as Hea.
    { destruct (Z.even a) eqn:E; [reflexivity|].
      exfalso. assert (Z.odd (a * b) = true) as Ho.
      { rewrite Z.odd_mul, Hb, <- Z.negb_even, E. reflexivity. }
      destruct Hd as [c Hc]. rewrite Hc in Ho.
      replace (c * (2 * 2 ^ Z.of_nat n)) with (2 * (c * 2 ^ Z.of_nat n)) in Ho by ring.
      rewrite Z.odd_mul in Ho. simpl in Ho. discriminate. }
    apply Z.even_spec in Hea. destruct Hea as [a' ->].
    apply Z.mul_divide_mono_l.
    apply IH; [exact Hb|].
    rewrite <- Z.mul_assoc in Hd.
    rewrite Z.mul_divide_cancel_l in Hd by lia. exact Hd.
Qed.

Lemma multiple_in_range (d P x : Z) : 0 < P -> x = d * P -> 0 < x < P -> False.
Proof. intros HP -> Hx. destruct (Z.le_gt_cases d 0); nia. Qed.

Lemma tri_distinct (n i j : nat) :
  (i < j)%nat -> (j < 2 ^ n)%nat -> ~ (2 ^ Z.of_nat n | tri j - tri i).
Proof.
  intros Hij Hj [c Hc].
  pose proof (tri_double i) as Ti. pose proof (tri_double j) as Tj.
  set (a := Z.of_nat j - Z.of_nat i). set (b := Z.of_nat j + Z.of_nat i + 1).
  assert (Hpow : 2 ^ Z.of_nat (S n) = 2 * 2 ^ Z.of_nat n)
    by (rewrite Nat2Z.inj_succ, Z.pow_succ_r; lia).
  assert (Hab0 : a * b = 2 * tri j - 2 * tri i) by (unfold a, b; rewrite Ti, Tj; ring).
  assert (Hab : a * b = c * 2 ^ Z.of_nat (S n)).
  { rewrite Hab0, Hpow. replace (2 * tri j - 2 * tri i) with (2 * (tri j - tri i)) by ring.
    rewrite Hc. ring. }
  assert (Hjz : Z.of_nat j < 2 ^ Z.of_nat n).
  { assert (Z.of_nat j < Z.of_nat (2 ^ n)) as H by lia.
    rewrite Nat2Z.inj_pow in H. exact H. }
  assert (Hp : 0 < 2 ^ Z.of_nat n) by (apply Z.pow_pos_nonneg; lia).
  destruct (Z.odd a) eqn:Ea.
  - (* b is even and takes the whole power *)
    assert (Hd : (2 ^ Z.of_nat (S n) | b * a)) by (exists c; rewrite Z.mul_comm; exact Hab).
    apply pow2_divide_odd in Hd; [|exact Ea].
    destruct Hd as [d Hd]. rewrite Hpow in Hd.
    apply (multiple_in_range d (2 * 2 ^ Z.of_nat n) b); [lia | exact Hd | unfold b; lia].
  - assert (Z.odd b = true) as Eb.
    { assert (b = a + 2 * Z.of_nat i + 1) as -> by (unfold a, b; lia).
      rewrite !Z.odd_add, Z.odd_mul, Ea. reflexivity. }
    assert (Hd : (2 ^ Z.of_nat (S n) | a * b)) by (exists c; exact Hab).
    apply pow2_divide_odd in Hd; [|exact Eb].
    destruct Hd as [d Hd]. rewrite Hpow in Hd.
    apply (multiple_in_range d (2 * 2 ^ Z.of_nat n) a); [lia | exact Hd | unfold a; lia].
Qed.

Lemma table_size_nat (mask : Z) (n : nat) :
  mask + 1 = 2 ^ Z.of_nat n -> Z.to_nat (mask + 1) = (2 ^ n)%nat.
Proof.
  intros Hm. rewrite Hm, <- (Nat2Z.id (2 ^ n)). f_equal.
  rewrite Nat2Z.inj_pow. reflexivity.
Qed.

Lemma probe_pos_inj mask h n i j :
  mask + 1 = 2 ^ Z.of_nat n -> (i < 2 ^ n)%nat -> (j < 2 ^ n)%nat ->
  probe_pos mask h i = probe_pos mask h j -> i = j.
Proof.
  intros Hm Hi Hj Heq.
  rewrite !(probe_pos_closed mask h n) in Heq by exact Hm.
  assert (Hp : 2 ^ Z.of_nat n <> 0) by (apply Z.pow_nonzero; lia).
  assert (Hcong : ((h + tri j) - (h + tri i)) mod 2 ^ Z.of_nat n = 0).
  { rewrite Zminus_mod, Heq, Z.sub_diag. reflexivity. }
  replace (h + tri j - (h + tri i)) with (tri j - tri i) in Hcong by ring.
  apply Z.mod_divide in Hcong; [|exact Hp].
  destruct (Nat.lt_trichotomy i j) as [Hlt|[Heq'|Hgt]]; [|exact Heq'|].
  - exfalso. exact (tri_distinct n i j Hlt Hj Hcong).
  - exfalso. apply (tri_distinct n j i Hgt Hi).
    destruct Hcong as [c Hc]. exists (- c). lia.
Qed.

(** Within the first [mask + 1] probes every slot is visited. *)
Lemma probe_pos_surj mask h n q :
  mask + 1 = 2 ^ Z.of_nat n -> 0 <= q < mask + 1 ->
  exists i, (i < Z.to_nat (mask + 1))%nat /\ probe_pos mask h i = q.
Proof.
  intros Hm Hq. pose proof (table_size_nat mask n Hm) as HN.
  set (N := Z.to_nat (mask + 1)) in *.
  set (l := map (probe_pos mask h) (seq 0 N)).
  set (l' := map Z.of_nat (seq 0 N)).
  assert (Hnd : List.NoDup l).
  { apply NoDup_map_NoDup_ForallPairs; [|apply seq_NoDup].
    intros x y Hx Hy E. apply in_seq in Hx, Hy.
    apply (probe_pos_inj mask h n); lia. }
  assert (Hincl : incl l l').
  { intros z Hz. unfold l in Hz. apply in_map_iff in Hz as [i [<- Hi]].
    pose proof (probe_pos_range mask h n i Hm).
    unfold l'. apply in_map_iff. exists (Z.to_nat (probe_pos mask h i)).
    split; [lia|]. apply in_seq. lia. }
  assert (Hlen : (length l' <= length l)%nat) by (unfold l, l'; rewrite !length_map; lia).
  pose proof (NoDup_length_incl Hnd Hlen Hincl) as Hback.
  assert (Hq' : In q l').
  { unfold l'. apply in_map_iff. exists (Z.to_nat q). split; [lia|]. apply in_seq. lia. }
  apply Hback in Hq'. unfold l in Hq'. apply in_map_iff in Hq' as [i [Hi Hin]].
  apply in_seq in Hin. exists i. split; [lia | exact Hi].
Qed.

(** ** The probe loops *)

Lemma entry_matches_ok m e h t s hq :
  entry_ok m e h t -> (t = s -> h = hq) ->
  entry_matches m e s hq = Ok (bool_decide (t = s)).
Proof.
  intros (Hh & Hl & Hb & _) Hts. unfold entry_matches. rewrite Hh, Hl. simpl.
  destruct (Z.eqb_spec h hq) as [->|Hne]; destruct (Z.eqb_spec (strlen t) (strlen s)) as [Els|Els];
    simpl.
  - unfold strlen. rewrite Nat2Z.id, Hb. reflexivity.
  - rewrite bool_decide_false; [reflexivity|]. intros ->. auto.
  - rewrite bool_decide_false; [reflexivity|]. intros ->. auto.
  - rewrite bool_decide_false; [reflexivity|]. intros ->. auto.
Qed.

Lemma read_bytes_not_fuel m a k : read_bytes m a k <> Err EFuel.
Proof.
  revert a. induction k as [|k IH]; intros a; simpl; [discriminate|].
  destruct (m !! a) as [[w|b]|]; try discriminate.
  specialize (IH (a + 1)). destruct (read_bytes m (a + 1) k); simpl; congruence.
Qed.

Lemma read_word_not_fuel m a : read_word m a <> Err EFuel.
Proof. unfold read_word. destruct (m !! a) as [[w|b]|]; discriminate. Qed.

Lemma entry_matches_not_fuel m e s h : entry_matches m e s h <> Err EFuel.
Proof.
  unfold entry_matches. pose proof (read_word_not_fuel m e).
  pose proof (read_word_not_fuel m (e + 8)).
  destruct (read_word m e); simpl; [|congruence].
  destruct (read_word m (e + 8)); simpl; [|congruence].
  destruct (_ && _); [|discriminate].
  pose proof (read_bytes_not_fuel m (e + SIZE_OF_ENTRY) (Z.to_nat a0)).
  destruct (read_bytes _ _ _); simpl; congruence.
Qed.

Section Probe.
Variables (mask : Z) (n : nat) (v : Slots) (m : gmap Z cell).
Hypothesis Hmask : mask + 1 = 2 ^ Z.of_nat n.
Hypothesis Hlen : slots_len v = mask + 1.

Let N := Z.to_nat (mask + 1).

Lemma get_unchecked_probe h i :
  get_unchecked v (probe_pos mask h i) = Ok (default 0 (slots v !! probe_pos mask h i)).
Proof.
  unfold get_unchecked. pose proof (probe_pos_range mask h n i Hmask).
  rewrite Hlen. destruct (Z.leb_spec 0 (probe_pos mask h i)); [|lia].
  destruct (Z.ltb_spec (probe_pos mask h i) (mask + 1)); [reflexivity|lia].
Qed.

Lemma probe_next h i :
  Z.land (probe_pos mask h i + (Z.of_nat i + 1)) mask = probe_pos mask h (S i).
Proof. simpl probe_pos. f_equal. lia. Qed.

(** The loop runs out of fuel only if all remaining probes hit non-null
    slots. *)
Lemma probe_loop_fuel s hq fuel i :
  (i + fuel = N)%nat ->
  probe_loop fuel v mask m s hq (probe_pos mask hq i) (Z.of_nat i) = Err EFuel ->
  forall j, (i <= j < N)%nat -> is_Some (slots v !! probe_pos mask hq j).
Proof.
  revert i. induction fuel as [|fuel IH]; intros i Hi Hr j Hj; [lia|].
  simpl in Hr. rewrite get_unchecked_probe in Hr. simpl in Hr.
  destruct (slots v !! probe_pos mask hq i) as [e|] eqn:Hs; simpl in Hr.
  - destruct (e =? 0); [discriminate|].
    destruct (entry_matches m e s hq) as [[|]|err] eqn:Em; simpl in Hr; try discriminate;
      [|injection Hr as ->; exfalso; exact (entry_matches_not_fuel _ _ _ _ Em)].
    destruct (Nat.eq_dec i j) as [<-|Hij]; [rewrite Hs; eauto|].
    rewrite probe_next in Hr. apply (IH (S i)); [lia| |lia].
    rewrite Nat2Z.inj_succ. exact Hr.
  - discriminate.
Qed.

Lemma probe_loop_terminates s hq :
  (exists q, 0 <= q < mask + 1 /\ slots v !! q = None) ->
  probe_loop N v mask m s hq (Z.land mask hq) 0 <> Err EFuel.
Proof.
  intros [q [Hq Hnull]] Hr.
  destruct (probe_pos_surj mask hq n q Hmask Hq) as [j [Hj <-]].
  change (Z.land mask hq) with (probe_pos mask hq 0) in Hr.
  change 0 with (Z.of_nat 0) in Hr.
  pose proof (probe_loop_fuel s hq N 0 eq_refl Hr j) as H.
  rewrite Hnull in H. destruct H as [? H]; [fold N; lia | discriminate].
Qed.


Lemma probe_loop_spec s hq fuel i :
  (forall pos e, slots v !! pos = Some e ->
     0 < e /\ exists h t, entry_ok m e h t /\ (t = s -> h = hq)) ->
  (i + fuel = N)%nat -> (forall j, (j < i)%nat -> occ_other v m mask s hq j) ->
  (exists j e h, (j < N)%nat /\ slots v !! probe_pos mask hq j = Some e /\
     entry_ok m e h s /\
     probe_loop fuel v mask m s hq (probe_pos mask hq i) (Z.of_nat i)
       = Ok (Hit (e + SIZE_OF_ENTRY)))
  \/ (exists j, (j < N)%nat /\ slots v !! probe_pos mask hq j = None /\
     (forall j', (j' < j)%nat -> occ_other v m mask s hq j') /\
     probe_loop fuel v mask m s hq (probe_pos mask hq i) (Z.of_nat i)
       = Ok (Vacant (probe_pos mask hq j)))
  \/ ((forall j, (j < N)%nat -> occ_other v m mask s hq j) /\
     probe_loop fuel v mask m s hq (probe_pos mask hq i) (Z.of_nat i) = Err EFuel).
Proof.
  intros Hent. revert i. induction fuel as [|fuel IH]; intros i Hi Hocc.
  - right; right. split; [|reflexivity]. intros j Hj. apply Hocc. lia.
  - simpl probe_loop. rewrite get_unchecked_probe. simpl.
    destruct (slots v !! probe_pos mask hq i) as [e|] eqn:Hs; simpl.
    + destruct (Hent _ _ Hs) as [He [h [t [Hok Hh]]]].
      destruct (Z.eqb_spec e 0) as [->|_]; [lia|].
      rewrite (entry_matches_ok m e h t s hq Hok Hh). simpl.
      case_bool_decide as Hts.
      * subst t. left. exists i, e, h.
        split; [fold N; lia|]. split; [exact Hs|]. split; [exact Hok|reflexivity].
      * rewrite probe_next.
        assert (E : Z.of_nat i + 1 = Z.of_nat (S i)) by lia. rewrite E.
        apply (IH (S i)); [lia|].
        intros j Hj. destruct (Nat.eq_dec j i) as [->|Hji]; [|apply Hocc; lia].
        exists e, h, t. auto.
    + right; left. exists i.
      split; [fold N; lia|]. split; [exact Hs|]. split; [exact Hocc|reflexivity].
Qed.

Lemma index_probe h i :
  index v (probe_pos mask h i) = Ok (default 0 (slots v !! probe_pos mask h i)).
Proof.
  unfold index. pose proof (probe_pos_range mask h n i Hmask).
  rewrite Hlen. destruct (Z.leb_spec 0 (probe_pos mask h i)); [|lia].
  destruct (Z.ltb_spec (probe_pos mask h i) (mask + 1)); [reflexivity|lia].
Qed.

Lemma find_empty_next h i :
  mask + 1 <= 2 ^ 60 -> (i < N)%nat ->
  Z.land (wrapping_add (probe_pos mask h i) (Z.of_nat i + 1)) mask = probe_pos mask h (S i).
Proof.
  intros Hb Hi. pose proof (probe_pos_range mask h n i Hmask).
  unfold wrapping_add. rewrite Z.mod_small.
  - simpl probe_pos. f_equal. lia.
  - unfold N in Hi. split; [lia|].
    assert (Z.of_nat i < mask + 1) by lia.
    assert (2 ^ 60 < 2 ^ 64) by (apply Z.pow_lt_mono_r; lia). lia.
Qed.

Lemma find_empty_spec h fuel i :
  mask + 1 <= 2 ^ 60 ->
  (forall pos e, slots v !! pos = Some e -> e <> 0) ->
  (exists q, 0 <= q < mask + 1 /\ slots v !! q = None) ->
  (i + fuel = N)%nat -> (forall j, (j < i)%nat -> is_Some (slots v !! probe_pos mask h j)) ->
  exists j, (j < N)%nat /\ slots v !! probe_pos mask h j = None /\
    (forall j', (j' < j)%nat -> is_Some (slots v !! probe_pos mask h j')) /\
    find_empty fuel v mask (probe_pos mask h i) (Z.of_nat i) = Ok (probe_pos mask h j).
Proof.
  intros Hb Hnz [q [Hq Hnull]]. revert i.
  induction fuel as [|fuel IH]; intros i Hi Hocc.
  - exfalso. destruct (probe_pos_surj mask h n q Hmask Hq) as [j [Hj Hpj]].
    destruct (Hocc j) as [x Hx]; [fold N in Hj; lia|]. congruence.
  - simpl find_empty. rewrite index_probe. simpl.
    destruct (slots v !! probe_pos mask h i) as [e|] eqn:Hs; simpl.
    + destruct (Z.eqb_spec e 0) as [E|_]; [exfalso; exact (Hnz _ _ Hs E)|].
      rewrite find_empty_next by (try exact Hb; lia).
      assert (E : Z.of_nat i + 1 = Z.of_nat (S i)) by lia. rewrite E.
      apply (IH (S i)); [lia|].
      intros j Hj. destruct (Nat.eq_dec j i) as [->|Hji]; [rewrite Hs; eauto|apply Hocc; lia].
    + exists i. split; [fold N; lia|]. split; [exact Hs|]. split; [exact Hocc|reflexivity].
Qed.

End Probe.

(** ** Memory *)

Lemma read_bytes_length m a k s : read_bytes m a k = Ok s -> length s = k.
Proof.
  revert a s. induction k as [|k IH]; intros a s H; simpl in H.
  - injection H as <-. reflexivity.
  - destruct (m !! a) as [[w|b]|]; try discriminate.
    destruct (read_bytes m (a + 1) k) eqn:E; simpl in H; [|discriminate].
    injection H as <-. simpl. f_equal. eapply IH. exact E.
Qed.

Lemma read_bytes_agree m m' a k :
  (forall x, a <= x < a + Z.of_nat k -> m !! x = m' !! x) ->
  read_bytes m a k = read_bytes m' a k.
Proof.
  revert a. induction k as [|k IH]; intros a H; [reflexivity|].
  simpl. rewrite <- (H a) by lia.
  rewrite (IH (a + 1)) by (intros; apply H; lia). reflexivity.
Qed.

Lemma read_word_agree m m' a : m !! a = m' !! a -> read_word m a = read_word m' a.
Proof. unfold read_word. intros ->. reflexivity. Qed.

Lemma entry_ok_agree m m' e h s :
  (forall x, e <= x < e + SIZE_OF_ENTRY + strlen s + 1 -> m !! x = m' !! x) ->
  entry_ok m e h s -> entry_ok m' e h s.
Proof.
  unfold entry_ok, SIZE_OF_ENTRY, strlen. intros H (H1 & H2 & H3 & H4).
  rewrite <- (read_word_agree m m' e) by (apply H; lia).
  rewrite <- (read_word_agree m m' (e + 8)) by (apply H; lia).
  rewrite <- (read_bytes_agree m m') by (intros; apply H; lia).
  rewrite <- H by lia. auto.
Qed.

Lemma entry_ok_inj m e h1 s1 h2 s2 :
  entry_ok m e h1 s1 -> entry_ok m e h2 s2 -> h1 = h2 /\ s1 = s2.
Proof.
  intros (A1 & B1 & C1 & _) (A2 & B2 & C2 & _). split; [congruence|].
  rewrite B1 in B2. injection B2 as B2. unfold strlen in B2.
  assert (length s1 = length s2) as L by lia. rewrite L in C1. congruence.
Qed.

Lemma copy_bytes_outside m a bs x :
  ~ (a <= x < a + strlen bs) -> copy_bytes m a bs !! x = m !! x.
Proof.
  unfold strlen. revert m a. induction bs as [|b bs IH]; intros m a Hx; [reflexivity|].
  simpl. rewrite IH by (simpl length in Hx; lia).
  rewrite lookup_insert_ne by (simpl length in Hx; lia). reflexivity.
Qed.

Lemma copy_bytes_read m a bs : read_bytes (copy_bytes m a bs) a (length bs) = Ok bs.
Proof.
  revert m a. induction bs as [|b bs IH]; intros m a; [reflexivity|].
  simpl. rewrite copy_bytes_outside by (unfold strlen; lia).
  rewrite lookup_insert_eq. simpl. rewrite IH. reflexivity.
Qed.

Lemma write_entry_outside m e h s x :
  ~ (e <= x < e + SIZE_OF_ENTRY + strlen s + 1) -> write_entry m e h s !! x = m !! x.
Proof.
  unfold write_entry, SIZE_OF_ENTRY. intros Hx.
  assert (0 <= strlen s) by (unfold strlen; lia).
  rewrite lookup_insert_ne by lia. rewrite copy_bytes_outside by lia.
  rewrite !lookup_insert_ne by lia. reflexivity.
Qed.

Lemma write_entry_ok m e h s : entry_ok (write_entry m e h s) e h s.
Proof.
  unfold entry_ok, write_entry, SIZE_OF_ENTRY, read_word. pose proof (Zle_0_nat (length s)).
  split; [|split; [|split]].
  - rewrite lookup_insert_ne by (unfold strlen; lia).
    rewrite copy_bytes_outside by lia.
    rewrite lookup_insert_ne by lia. rewrite lookup_insert_eq. reflexivity.
  - rewrite lookup_insert_ne by (unfold strlen; lia).
    rewrite copy_bytes_outside by lia. rewrite lookup_insert_eq. reflexivity.
  - rewrite <- (copy_bytes_read (<[e + 8:=CWord (strlen s)]> (<[e:=CWord h]> m)) (e + 16) s).
    apply read_bytes_agree. intros x Hx. apply lookup_insert_ne. unfold strlen. lia.
  - apply lookup_insert_eq.
Qed.

Lemma len_nonneg (t : list byte) : 0 <= strlen t.
Proof. unfold strlen. lia. Qed.

Lemma system_dealloc_outside p l hp x :
  ~ (p <= x < p + l_size l) -> mem (system_dealloc p l hp) !! x = mem hp !! x.
Proof.
  intros Hx. unfold system_dealloc. simpl. rewrite map_lookup_filter.
  destruct (mem hp !! x) as [c|]; simpl; [|reflexivity].
  rewrite option_guard_True; [reflexivity|]. simpl. exact Hx.
Qed.

(** ** Arenas *)

Lemma land_usize_not_7 x : 0 <= x < 2 ^ 64 -> Z.land x (usize_not 7) = x / 8 * 8.
Proof.
  intros Hx.
  assert (Z.land x (usize_not 7) = Z.ldiff x (Z.ones 3)) as ->.
  { apply Z.bits_inj'. intros i Hi.
    rewrite Z.land_spec, Z.ldiff_spec. unfold usize_not, USIZE_MAX.
    rewrite Z.lxor_spec.
    change (2 ^ 64 - 1) with (Z.ones 64). change 7 with (Z.ones 3).
    destruct (Z.lt_ge_cases i 64).
    - rewrite (Z.ones_spec_low 64 i) by lia. destruct (Z.testbit (Z.ones 3) i); reflexivity.
    - destruct (Z.eq_dec x 0) as [->|Hx0]; [rewrite Z.testbit_0_l; reflexivity|].
      rewrite (Z.bits_above_log2 x i); [reflexivity|lia|].
      assert (Z.log2 x < 64) by (apply Z.log2_lt_pow2; lia). lia. }
  rewrite Z.ldiff_ones_r by lia. rewrite Z.shiftl_mul_pow2, Z.shiftr_div_pow2 by lia.
  reflexivity.
Qed.

Lemma round_up_8 n : n <= round_up n 8 < n + 8 /\ round_up n 8 mod 8 = 0.
Proof.
  unfold round_up. rewrite Z.mod_mul by lia.
  pose proof (Z.div_mod (n + 8 - 1) 8 ltac:(lia)).
  pose proof (Z.mod_pos_bound (n + 8 - 1) 8 ltac:(lia)). lia.
Qed.

Lemma LeakyBumpAlloc_new_spec cap hp a hp' :
  LeakyBumpAlloc_new cap ALIGN_OF_ENTRY hp = Ok (a, hp') ->
  0 <= cap -> HEAP_BASE <= brk hp ->
  layout a = mkLayout cap ALIGN_OF_ENTRY /\ brk hp <= start a /\
  end_ a = brk hp' /\ ptr a = end_ a /\ mem hp' = mem hp /\ arena_wf a.
Proof.
  unfold LeakyBumpAlloc_new, Layout_from_size_align, system_alloc. intros H Hc Hb.
  destruct (is_power_of_two ALIGN_OF_ENTRY && (cap <=? ISIZE_MAX - (ALIGN_OF_ENTRY - 1)))
    eqn:E; simpl in H; [|discriminate].
  pose proof (round_up_8 (brk hp)) as [R1 R2].
  unfold ALIGN_OF_ENTRY in *. simpl l_size in H. simpl l_align in H.
  destruct (round_up (brk hp) 8 + cap <=? 2 ^ 64) eqn:E2; simpl in H.
  - destruct (round_up (brk hp) 8 =? 0) eqn:E3; [discriminate|].
    injection H as <- <-. simpl. apply Z.leb_le in E2.
    unfold arena_wf, HEAP_BASE, ALIGN_OF_ENTRY in *. simpl.
    repeat split; try reflexivity; lia.
  - discriminate.
Qed.

(** The error [LeakyBumpAlloc::new] can return is a panic. *)
Lemma LeakyBumpAlloc_new_err cap al hp e :
  LeakyBumpAlloc_new cap al hp = Err e -> exists msg, e = EPanic msg.
Proof.
  unfold LeakyBumpAlloc_new, expect. intros H.
  destruct (Layout_from_size_align cap al); simpl in H.
  - destruct (system_alloc l hp) as [st hp']. destruct (st =? 0).
    + injection H as <-. eauto.
    + discriminate.
  - injection H as <-. eauto.
Qed.

Lemma LeakyBumpAlloc_allocate_spec a n :
  arena_wf a -> 0 < n -> LeakyBumpAlloc_allocated a + n <= LeakyBumpAlloc_capacity a ->
  exists e, LeakyBumpAlloc_allocate a n = Ok (e, mkAlloc (layout a) (start a) (end_ a) e) /\
    start a <= e /\ e + n <= ptr a /\ e mod 8 = 0.
Proof.
  unfold arena_wf, LeakyBumpAlloc_allocate, LeakyBumpAlloc_allocated,
    LeakyBumpAlloc_capacity, checked_sub, expect, ALIGN_OF_ENTRY, HEAP_BASE.
  intros (Hal & Hb & Hs & He & Hp & Hend) Hn Hfit.
  destruct (0 <=? ptr a - n) eqn:E; [|apply Z.leb_gt in E; lia]. simpl.
  replace (l_align (layout a) - 1) with 7 by lia.
  rewrite land_usize_not_7 by lia.
  pose proof (Z.div_mod (ptr a - n) 8 ltac:(lia)).
  pose proof (Z.mod_pos_bound (ptr a - n) 8 ltac:(lia)).
  assert (start a <= (ptr a - n) / 8 * 8).
  { pose proof (Z.div_mod (start a) 8 ltac:(lia)).
    assert (start a / 8 <= (ptr a - n) / 8) by (apply Z.div_le_mono; lia). lia. }
  destruct ((ptr a - n) / 8 * 8 <? start a) eqn:E2; [apply Z.ltb_lt in E2; lia|].
  eexists. split; [reflexivity|]. rewrite Z.mod_mul by lia. lia.
Qed.

Lemma StringCache_reserve_spec sc hp n sc1 hp1 :
  StringCache_reserve sc hp n = Ok (sc1, hp1) ->
  0 < n -> HEAP_BASE <= brk hp ->
  (sc1 = sc /\ hp1 = hp /\
   LeakyBumpAlloc_allocated (alloc sc) + n <= LeakyBumpAlloc_capacity (alloc sc)) \/
  (old_allocs sc1 = old_allocs sc ++ [alloc sc] /\ entries sc1 = entries sc /\
   num_entries sc1 = num_entries sc /\ mask sc1 = mask sc /\
   brk hp <= start (alloc sc1) /\ end_ (alloc sc1) = brk hp1 /\
   ptr (alloc sc1) = end_ (alloc sc1) /\ mem hp1 = mem hp /\ arena_wf (alloc sc1) /\
   n <= LeakyBumpAlloc_capacity (alloc sc1)).
Proof.
  unfold StringCache_reserve, checked_add, checked_mul, expect. intros H Hn Hb.
  destruct (n + LeakyBumpAlloc_allocated (alloc sc) <=? USIZE_MAX) eqn:E1;
    simpl in H; [|discriminate].
  destruct (LeakyBumpAlloc_capacity (alloc sc) <? n + LeakyBumpAlloc_allocated (alloc sc))
    eqn:E2.
  - destruct (LeakyBumpAlloc_capacity (alloc sc) * 2 <=? USIZE_MAX); simpl in H;
      [|discriminate].
    destruct (LeakyBumpAlloc_new (Z.max (LeakyBumpAlloc_capacity (alloc sc) * 2) n)
                ALIGN_OF_ENTRY hp) as [[a hp']|] eqn:E3; simpl in H; [|discriminate].
    injection H as <- <-. right.
    apply LeakyBumpAlloc_new_spec in E3; [|lia|exact Hb].
    destruct E3 as (L & B & En & P & M & W). simpl.
    unfold LeakyBumpAlloc_capacity. rewrite L. simpl.
    do 4 (split; [reflexivity|]). do 5 (split; [assumption|]). lia.
  - injection H as <- <-. left. apply Z.ltb_ge in E2. repeat split; lia.
Qed.

Lemma StringCache_reserve_err sc hp n e :
  StringCache_reserve sc hp n = Err e -> exists msg, e = EPanic msg.
Proof.
  unfold StringCache_reserve, expect. intros H.
  destruct (checked_add n (LeakyBumpAlloc_allocated (alloc sc))); simpl in H;
    [|injection H as <-; eauto].
  destruct (_ <? _); [|discriminate].
  destruct (checked_mul (LeakyBumpAlloc_capacity (alloc sc)) 2); simpl in H;
    [|injection H as <-; eauto].
  destruct (LeakyBumpAlloc_new _ _ _) as [[a hp']|e'] eqn:E; simpl in H; [discriminate|].
  injection H as <-. eapply LeakyBumpAlloc_new_err. exact E.
Qed.

(** ** Counting slots *)

Lemma exists_null (sl : gmap Z Z) (N : Z) :
  (forall pos e, sl !! pos = Some e -> 0 <= pos < N) -> (size sl < Z.to_nat N)%nat ->
  exists q, 0 <= q < N /\ sl !! q = None.
Proof.
  intros Hk Hs.
  destruct (decide (Exists (fun q => sl !! q = None) (seqZ 0 N))) as [Hex|Hn].
  - apply Exists_exists in Hex as (q & Hq & Hnone). apply elem_of_seqZ in Hq.
    exists q. split; [lia|exact Hnone].
  - exfalso.
    assert (Hsub : (list_to_set (seqZ 0 N) : gset Z) ⊆ dom sl).
    { intros q Hq. apply elem_of_list_to_set, elem_of_seqZ in Hq. apply elem_of_dom.
      destruct (sl !! q) eqn:E; [eauto|].
      exfalso. apply Hn, Exists_exists. exists q. split; [apply elem_of_seqZ; lia|exact E]. }
    apply subseteq_size in Hsub.
    rewrite size_dom, size_list_to_set, length_seqZ in Hsub by apply NoDup_seqZ. lia.
Qed.

Lemma count_some_cons sl i l :
  count_some sl (i :: l) =
  (match sl !! i with Some _ => S (count_some sl l) | None => count_some sl l end).
Proof.
  unfold count_some. rewrite filter_cons. destruct (sl !! i) eqn:E.
  - rewrite decide_True by eauto. reflexivity.
  - rewrite decide_False by (intros [? ?]; discriminate). reflexivity.
Qed.

Lemma count_some_zero sl l i : count_some sl l = 0%nat -> i ∈ l -> sl !! i = None.
Proof.
  induction l as [|j l IH]; intros H Hi; [apply elem_of_nil in Hi; contradiction|].
  rewrite count_some_cons in H. destruct (sl !! j) eqn:E; [discriminate|].
  apply elem_of_cons in Hi as [->|Hi]; [exact E|auto].
Qed.

Lemma count_some_size (sl : gmap Z Z) (L : Z) :
  (forall pos e, sl !! pos = Some e -> 0 <= pos < L) ->
  count_some sl (seqZ 0 L) = size sl.
Proof.
  intros Hk. rewrite <- size_dom. unfold count_some.
  assert (dom sl = list_to_set (filter (fun i => is_Some (sl !! i)) (seqZ 0 L)) :> gset Z)
    as ->.
  { apply set_eq. intros q. rewrite elem_of_dom, elem_of_list_to_set, list_elem_of_filter,
      elem_of_seqZ. split.
    - intros [e He]. split; [eauto|]. specialize (Hk _ _ He). lia.
    - intros [H _]. exact H. }
  rewrite size_list_to_set; [reflexivity|]. apply NoDup_filter, NoDup_seqZ.
Qed.

Lemma probe_ok_mono mask sl sl' h pos :
  probe_ok mask sl h pos -> (forall q, is_Some (sl !! q) -> is_Some (sl' !! q)) ->
  probe_ok mask sl' h pos.
Proof.
  intros (i & Hi & Hp & Hocc) Hm. exists i. split; [exact Hi|]. split; [exact Hp|].
  intros j Hj. apply Hm, Hocc, Hj.
Qed.

(** ** The copy loop of [grow] *)

Ltac in_cons := apply elem_of_cons; first [left; reflexivity | right; assumption].

Section Grow.
Variables (m : gmap Z cell) (NM : Z) (nn : nat) (old : Slots).
Hypothesis HNM : NM + 1 = 2 ^ Z.of_nat nn.
Hypothesis HNMb : NM + 1 <= 2 ^ 60.

Lemma grow_copy_spec idxs : forall T to_copy,
  NoDup idxs ->
  to_copy = Z.of_nat (count_some (slots old) idxs) ->
  slots_len T = NM + 1 ->
  (forall pos e, slots T !! pos = Some e -> 0 <= pos < NM + 1 /\ 0 < e /\
     exists h, read_word m e = Ok h /\ probe_ok NM (slots T) h pos) ->
  (forall p q e, slots T !! p = Some e -> slots T !! q = Some e -> p = q) ->
  (forall i e, i ∈ idxs -> slots old !! i = Some e ->
     0 < e /\ (exists h, read_word m e = Ok h) /\ forall p, slots T !! p <> Some e) ->
  (forall i1 i2 e, i1 ∈ idxs -> i2 ∈ idxs ->
     slots old !! i1 = Some e -> slots old !! i2 = Some e -> i1 = i2) ->
  (size (slots T) + count_some (slots old) idxs < Z.to_nat (NM + 1))%nat ->
  exists T', grow_copy m NM old idxs T to_copy = Ok T' /\
    slots_len T' = NM + 1 /\
    (forall pos e, slots T' !! pos = Some e -> 0 <= pos < NM + 1 /\ 0 < e /\
       exists h, read_word m e = Ok h /\ probe_ok NM (slots T') h pos) /\
    (forall p q e, slots T' !! p = Some e -> slots T' !! q = Some e -> p = q) /\
    (forall e, (exists p, slots T' !! p = Some e) <->
       (exists p, slots T !! p = Some e) \/ exists i, i ∈ idxs /\ slots old !! i = Some e) /\
    size (slots T') = (size (slots T) + count_some (slots old) idxs)%nat.
Proof.
  induction idxs as [|i rest IH]; intros T to_copy Hnd Htc Hlen HT Hinj Hold Hoinj Hsz.
  - exists T. cbn [grow_copy]. unfold count_some in *. simpl in *.
    split; [reflexivity|]. split; [exact Hlen|]. split; [exact HT|]. split; [exact Hinj|].
    split; [|lia]. intros e. split; [auto|]. intros [Hx|(i & Hi & _)]; [exact Hx|].
    apply elem_of_nil in Hi. contradiction.
  - apply NoDup_cons in Hnd as [Hni Hnd].
    rewrite count_some_cons in Htc, Hsz |- *.
    cbn [grow_copy]. destruct (slots old !! i) as [e|] eqn:Hi; simpl default.
    + destruct (Hold i e ltac:(in_cons) Hi) as (He & [h Hh] & HnT).
      destruct (Z.eqb_spec e 0) as [E|_]; [lia|]. rewrite Hh. simpl.
      (* the null slot found by the probe of the new table *)
      assert (Hnull : exists q, 0 <= q < NM + 1 /\ slots T !! q = None).
      { apply exists_null; [intros pos e' H'; apply (HT _ _ H')|lia]. }
      assert (Hnz : forall pos e', slots T !! pos = Some e' -> e' <> 0).
      { intros pos e' H'. destruct (HT _ _ H') as (_ & ? & _). lia. }
      destruct (find_empty_spec NM nn T HNM Hlen h (Z.to_nat (NM + 1)) 0 HNMb Hnz Hnull
                  eq_refl ltac:(intros; lia))
        as (j & Hj & Hpj & Hocc & Hfe).
      simpl probe_pos in Hfe. rewrite Z.land_comm in Hfe. change (Z.of_nat 0) with 0 in Hfe.
      rewrite Hfe. simpl.
      pose proof (probe_pos_range NM h nn j HNM) as Hrg.
      unfold set_index. rewrite Hlen.
      destruct (Z.leb_spec 0 (probe_pos NM h j)); [|lia].
      destruct (Z.ltb_spec (probe_pos NM h j) (NM + 1)); [|lia]. simpl.
      set (T1 := mkSlots (NM + 1) (<[probe_pos NM h j := e]> (slots T))).
      assert (Hmono : forall q, is_Some (slots T !! q) -> is_Some (slots T1 !! q)).
      { intros q [x Hx]. simpl. destruct (Z.eq_dec q (probe_pos NM h j)) as [->|Hq].
        - rewrite lookup_insert_eq. eauto.
        - rewrite lookup_insert_ne by congruence. eauto. }
      assert (HT1 : forall pos e', slots T1 !! pos = Some e' -> 0 <= pos < NM + 1 /\ 0 < e' /\
                 exists h', read_word m e' = Ok h' /\ probe_ok NM (slots T1) h' pos).
      { intros pos e' H'. simpl in H'.
        destruct (Z.eq_dec pos (probe_pos NM h j)) as [->|Hq].
        - rewrite lookup_insert_eq in H'. injection H' as <-.
          split; [lia|]. split; [exact He|]. exists h. split; [exact Hh|].
          exists j. split; [exact Hj|]. split; [reflexivity|].
          intros j' Hj'. apply Hmono, Hocc, Hj'.
        - rewrite lookup_insert_ne in H' by congruence.
          destruct (HT _ _ H') as (A & B & h' & C & D).
          split; [exact A|]. split; [exact B|]. exists h'. split; [exact C|].
          eapply probe_ok_mono; [exact D|exact Hmono]. }
      assert (Hinj1 : forall p q e', slots T1 !! p = Some e' -> slots T1 !! q = Some e' -> p = q).
      { intros p q e'. simpl.
        destruct (Z.eq_dec p (probe_pos NM h j)) as [->|Hp];
        destruct (Z.eq_dec q (probe_pos NM h j)) as [->|Hq]; try reflexivity;
        rewrite ?lookup_insert_eq, ?lookup_insert_ne by congruence.
        - intros [= <-] H2. exfalso. exact (HnT _ H2).
        - intros H1 [= <-]. exfalso. exact (HnT _ H1).
        - apply Hinj. }
      assert (Hsz1 : size (slots T1) = S (size (slots T))).
      { simpl. apply map_size_insert_None. exact Hpj. }
      assert (Hval1 : forall e', (exists p, slots T1 !! p = Some e') <->
                 (exists p, slots T !! p = Some e') \/ e' = e).
      { intros e'. simpl. split.
        - intros [p Hp]. destruct (Z.eq_dec p (probe_pos NM h j)) as [->|Hq].
          + rewrite lookup_insert_eq in Hp. injection Hp as <-. auto.
          + rewrite lookup_insert_ne in Hp by congruence. eauto.
        - intros [[p Hp]| ->].
          + exists p. rewrite lookup_insert_ne; [exact Hp|].
            congruence.
          + exists (probe_pos NM h j). apply lookup_insert_eq. }
      destruct (Z.eqb_spec (to_copy - 1) 0) as [Hz|Hnz'].
      * exists T1. split; [reflexivity|]. split; [reflexivity|].
        split; [exact HT1|]. split; [exact Hinj1|].
        assert (Hc0 : count_some (slots old) rest = 0%nat) by lia.
        split; [|lia]. intros e'. rewrite Hval1. split.
        -- intros [Hx| ->]; [auto|right; exists i; split; [in_cons|exact Hi]].
        -- intros [Hx|(i' & Hi' & Hoi')]; [auto|].
           apply elem_of_cons in Hi' as [->|Hi'].
           ++ right. congruence.
           ++ rewrite (count_some_zero _ _ _ Hc0 Hi') in Hoi'. discriminate.
      * destruct (IH T1 (to_copy - 1) Hnd ltac:(lia) eq_refl HT1 Hinj1) as (T' & R & P).
        -- intros i' e' Hi' Hoi'.
           destruct (Hold i' e' ltac:(in_cons) Hoi') as (A & B & C).
           split; [exact A|]. split; [exact B|]. intros p Hp.
           assert (Hv : exists p, slots T1 !! p = Some e') by eauto.
           apply Hval1 in Hv as [[p' Hp']| ->]; [exact (C _ Hp')|].
           assert (i' = i) as -> by (apply (Hoinj i' i e); first [in_cons | assumption]).
           contradiction.
        -- intros i1 i2 e' H1 H2. apply Hoinj; in_cons.
        -- lia.
        -- exists T'. split; [exact R|].
           destruct P as (P1 & P2 & P3 & P4 & P5).
           split; [exact P1|]. split; [exact P2|]. split; [exact P3|]. split; [|lia].
           intros e'. rewrite P4, Hval1. split.
           ++ intros [[Hx| ->]|(i' & Hi' & Hoi')].
              ** auto.
              ** right. exists i. split; [in_cons|exact Hi].
              ** right. exists i'. split; [in_cons|exact Hoi'].
           ++ intros [Hx|(i' & Hi' & Hoi')]; [auto|].
              apply elem_of_cons in Hi' as [->|Hi'].
              ** left. right. congruence.
              ** right. eauto.
    + destruct (IH T to_copy Hnd Htc Hlen HT Hinj) as (T' & R & P).
      * intros i' e' Hi' Hoi'. apply (Hold i'); [in_cons|exact Hoi'].
      * intros i1 i2 e' H1 H2. apply Hoinj; in_cons.
      * lia.
      * exists T'. split; [exact R|].
        destruct P as (P1 & P2 & P3 & P4 & P5).
        split; [exact P1|]. split; [exact P2|]. split; [exact P3|]. split; [|exact P5].
        intros e'. rewrite P4. split.
        -- intros [Hx|(i' & Hi' & Hoi')]; [auto|]. right. exists i'. split; [in_cons|exact Hoi'].
        -- intros [Hx|(i' & Hi' & Hoi')]; [auto|].
           apply elem_of_cons in Hi' as [->|Hi']; [congruence|]. right. eauto.
Qed.

End Grow.

(** ** [grow] keeps the invariant and halves the load *)

Section GrowInv.
Context (hasher : list byte -> Z).

Lemma StringCache_grow_spec m k sc :
  shard_inv hasher m k sc -> num_entries sc * 2 <= mask sc + 2 ->
  StringCache_grow sc m = Err (EPanic "capacity overflow") \/
  exists sc', StringCache_grow sc m = Ok sc' /\ shard_inv hasher m k sc' /\
    num_entries sc' * 2 <= mask sc' /\ mask sc' = mask sc * 2 + 1 /\
    alloc sc' = alloc sc /\ old_allocs sc' = old_allocs sc /\
    num_entries sc' = num_entries sc /\ total_allocated sc' = total_allocated sc /\
    (forall e, (exists p, slots (entries sc') !! p = Some e) <->
               (exists p, slots (entries sc) !! p = Some e)).
Proof.
  intros HI Hload. destruct HI as [[n Hn] Hmb Hlen Hkeys Hnum Hent Huniq Har Hsep].
  unfold StringCache_grow, vec_null.
  destruct (Z.leb_spec ((mask sc * 2 + 1 + 1) * 8) ISIZE_MAX) as [Hcap|Hcap];
    [|left; reflexivity].
  right. simpl.
  assert (HNM : mask sc * 2 + 1 + 1 = 2 ^ Z.of_nat (S n)).
  { rewrite Nat2Z.inj_succ, Z.pow_succ_r by lia. lia. }
  assert (HNMb : mask sc * 2 + 1 + 1 <= 2 ^ 60) by (unfold ISIZE_MAX in Hcap; lia).
  assert (Hcnt : count_some (slots (entries sc)) (seqZ 0 (slots_len (entries sc))) = size (slots (entries sc))).
  { apply count_some_size. intros pos e H. rewrite Hlen. apply (Hkeys _ _ H). }
  assert (Hoinj : forall i1 i2 e, (slots (entries sc)) !! i1 = Some e -> (slots (entries sc)) !! i2 = Some e -> i1 = i2).
  { intros i1 i2 e H1 H2. destruct (Hent _ _ H1) as (s & Hok & _).
    exact (Huniq _ _ _ _ s H1 H2 Hok Hok). }
  destruct (grow_copy_spec m (mask sc * 2 + 1) (S n) (entries sc) HNM HNMb
              (seqZ 0 (slots_len (entries sc))) (mkSlots (mask sc * 2 + 1 + 1) ∅)
              (num_entries sc) (NoDup_seqZ _ _))
    as (T' & R & P1 & P2 & P3 & P4 & P5).
  - rewrite Hcnt. exact Hnum.
  - reflexivity.
  - intros pos e H. simpl in H. rewrite lookup_empty in H. discriminate.
  - intros p q e H. simpl in H. rewrite lookup_empty in H. discriminate.
  - intros i e _ H. split; [apply (Hkeys _ _ H)|].
    destruct (Hent _ _ H) as (s & (Hw & _) & _). split; [eauto|].
    intros p. simpl. rewrite lookup_empty. discriminate.
  - intros i1 i2 e _ _. apply Hoinj.
  - simpl. rewrite map_size_empty, Hcnt. lia.
  - exists (mkCache (alloc sc) (old_allocs sc) T' (num_entries sc) (mask sc * 2 + 1)
                    (total_allocated sc)).
    rewrite R. simpl. split; [reflexivity|].
    rewrite Hcnt in P5. simpl in P5. rewrite map_size_empty in P5.
    assert (Hval : forall e, (exists p, slots T' !! p = Some e) <-> (exists p, (slots (entries sc)) !! p = Some e)).
    { intros e. rewrite P4. simpl. split.
      - intros [[p Hp]|(i & _ & Hi)]; [rewrite lookup_empty in Hp; discriminate|eauto].
      - intros [p Hp]. right. exists p. split; [|exact Hp].
        apply elem_of_seqZ. rewrite Hlen. apply (Hkeys _ _ Hp). }
    split; [|split; [lia|]].
    + constructor; simpl.
      * exists (S n). exact HNM.
      * lia.
      * exact P1.
      * intros pos e H. destruct (P2 _ _ H) as (A & B & _). lia.
      * rewrite P5. exact Hnum.
      * intros pos e H. destruct (P2 _ _ H) as (_ & _ & h & Hh & Hpr).
        destruct (proj1 (Hval e) (ex_intro _ pos H)) as [i Hi].
        destruct (Hent _ _ Hi) as (s & Hok & Hw & _ & Har').
        exists s. split; [exact Hok|]. split; [exact Hw|]. split; [|exact Har'].
        destruct Hok as (Hok & _). congruence.
      * intros p q ep eq s Hp Hq Hokp Hokq.
        destruct (proj1 (Hval ep) (ex_intro _ p Hp)) as [ip Hip].
        destruct (proj1 (Hval eq) (ex_intro _ q Hq)) as [iq Hiq].
        pose proof (Huniq _ _ _ _ s Hip Hiq Hokp Hokq) as ->.
        assert (ep = eq) as <- by congruence.
        exact (P3 _ _ _ Hp Hq).
      * exact Har.
      * exact Hsep.
    + do 5 (split; [reflexivity|]). exact Hval.
Qed.

End GrowInv.

(** ** Probing a shard that satisfies the invariant *)

Section ShardProbe.
Context (hasher : list byte -> Z).

Lemma arena_range a e s :
  arena_wf a -> footprint_in e s (ptr a) (end_ a) ->
  forall x, e <= x < e + SIZE_OF_ENTRY + strlen s + 1 -> start a <= x < end_ a.
Proof. unfold arena_wf, footprint_in. intros W F x Hx. lia. Qed.

(** The entry a slot holds is the only string its bytes spell. *)
Lemma shard_entry_string m k sc pos e h s :
  shard_inv hasher m k sc -> slots (entries sc) !! pos = Some e -> entry_ok m e h s ->
  h = ahash hasher s /\ whichbin h = k /\ probe_ok (mask sc) (slots (entries sc)) h pos /\
  exists a, a ∈ arenas sc /\ footprint_in e s (ptr a) (end_ a).
Proof.
  intros HI Hp Hok. destruct (si_entry _ _ _ _ HI _ _ Hp) as (t & Hok' & Hw & Hpr & Ha).
  destruct (entry_ok_inj _ _ _ _ _ _ Hok Hok') as [-> ->]. auto.
Qed.

Lemma shard_inv_frame m m' k sc :
  shard_inv hasher m k sc ->
  (forall a x, a ∈ arenas sc -> start a <= x < end_ a -> m !! x = m' !! x) ->
  shard_inv hasher m' k sc.
Proof.
  intros HI Hfr. pose proof HI as [Hp Hmb Hlen Hkeys Hnum Hent Huniq Har Hsep].
  assert (Hmov : forall pos e s, slots (entries sc) !! pos = Some e ->
             entry_ok m e (ahash hasher s) s -> entry_ok m' e (ahash hasher s) s).
  { intros pos e s H Hok. destruct (shard_entry_string _ _ _ _ _ _ _ HI H Hok)
      as (_ & _ & _ & a & Ha & Hf).
    eapply entry_ok_agree; [|exact Hok]. intros x Hx.
    apply (Hfr a); [exact Ha|]. exact (arena_range a e s (Har a Ha) Hf x Hx). }
  assert (Hback : forall pos e h s, slots (entries sc) !! pos = Some e ->
             entry_ok m' e h s -> entry_ok m e h s).
  { intros pos e h s H Hok. destruct (Hent _ _ H) as (t & Hokt & _ & _ & a & Ha & Hf).
    pose proof (Hmov _ _ _ H Hokt) as Hokt'.
    destruct (entry_ok_inj _ _ _ _ _ _ Hok Hokt') as [-> ->]. exact Hokt. }
  constructor; try assumption.
  - intros pos e H. destruct (Hent _ _ H) as (s & Hok & Hw & Hpr & Ha).
    exists s. split; [exact (Hmov _ _ _ H Hok)|auto].
  - intros p q ep eq s H1 H2 Hok1 Hok2.
    exact (Huniq _ _ _ _ s H1 H2 (Hback _ _ _ _ H1 Hok1) (Hback _ _ _ _ H2 Hok2)).
Qed.

Lemma shard_has_null m k sc :
  shard_inv hasher m k sc -> num_entries sc * 2 <= mask sc ->
  exists q, 0 <= q < mask sc + 1 /\ slots (entries sc) !! q = None.
Proof.
  intros HI Hload. apply exists_null.
  - intros pos e H. apply (si_keys _ _ _ _ HI _ _ H).
  - pose proof (si_num _ _ _ _ HI). pose proof (si_mask_bound _ _ _ _ HI). lia.
Qed.

Lemma StringCache_probe_spec m k sc s :
  shard_inv hasher m k sc -> num_entries sc * 2 <= mask sc ->
  (exists pos e, slots (entries sc) !! pos = Some e /\
     entry_ok m e (ahash hasher s) s /\
     StringCache_probe sc m s (ahash hasher s) = Ok (Hit (e + SIZE_OF_ENTRY))) \/
  (exists j, (j < Z.to_nat (mask sc + 1))%nat /\
     StringCache_probe sc m s (ahash hasher s) = Ok (Vacant (probe_pos (mask sc) (ahash hasher s) j)) /\
     slots (entries sc) !! probe_pos (mask sc) (ahash hasher s) j = None /\
     (forall j', (j' < j)%nat -> is_Some (slots (entries sc) !! probe_pos (mask sc) (ahash hasher s) j')) /\
     forall pos e, slots (entries sc) !! pos = Some e -> ~ entry_ok m e (ahash hasher s) s).
Proof.
  intros HI Hload. pose proof HI as [[n Hn] Hmb Hlen Hkeys Hnum Hent Huniq Har Hsep].
  set (hq := ahash hasher s).
  assert (Hent' : forall pos e, slots (entries sc) !! pos = Some e ->
             0 < e /\ exists h t, entry_ok m e h t /\ (t = s -> h = hq)).
  { intros pos e H. split; [apply (Hkeys _ _ H)|].
    destruct (Hent _ _ H) as (t & Hok & _). exists (ahash hasher t), t.
    split; [exact Hok|]. intros ->. reflexivity. }
  unfold StringCache_probe, probe_fuel.
  change (Z.land (mask sc) hq) with (probe_pos (mask sc) hq 0).
  change 0 with (Z.of_nat 0) at 2.
  destruct (probe_loop_spec (mask sc) n (entries sc) m Hn Hlen s hq
              (Z.to_nat (mask sc + 1)) 0 Hent' eq_refl ltac:(intros; lia))
    as [(j & e & h & Hj & Hs & Hok & R)|[(j & Hj & Hs & Hocc & R)|(Hocc & R)]].
  - left. exists (probe_pos (mask sc) hq j), e.
    destruct (shard_entry_string _ _ _ _ _ _ _ HI Hs Hok) as (-> & _).
    auto.
  - right. exists j. split; [exact Hj|]. split; [exact R|]. split; [exact Hs|].
    split.
    + intros j' Hj'. destruct (Hocc j' Hj') as (e' & _ & t & H' & _). rewrite H'. eauto.
    + intros q eq Hq Hok.
      destruct (shard_entry_string _ _ _ _ _ _ _ HI Hq Hok) as (_ & _ & (i & Hi & Hpi & Hbefore) & _).
      fold hq in Hpi, Hbefore.
      destruct (Nat.lt_trichotomy i j) as [Hlt|[->|Hgt]].
      * destruct (Hocc i Hlt) as (e' & h' & t & H' & Hok' & Hts).
        rewrite Hpi, Hq in H'. injection H' as <-.
        destruct (entry_ok_inj _ _ _ _ _ _ Hok Hok') as [_ <-]. contradiction.
      * rewrite Hpi, Hq in Hs. discriminate.
      * destruct (Hbefore j Hgt) as [x Hx]. rewrite Hs in Hx. discriminate.
  - exfalso. destruct (shard_has_null m k sc HI Hload) as (q & Hq & Hnull).
    destruct (probe_pos_surj (mask sc) hq n q Hn Hq) as (j & Hj & Hpj).
    destruct (Hocc j Hj) as (e' & _ & _ & H' & _). rewrite Hpj, Hnull in H'. discriminate.
Qed.

End ShardProbe.

(** ** Insertion of a new entry *)

Section InsertVacant.
Context (hasher : list byte -> Z).
Variables (m : gmap Z cell) (k : Z) (sc sc1 : StringCache) (s : list byte) (j : nat) (e : Z).
Let hq := ahash hasher s.
Let pos := probe_pos (mask sc) hq j.
Let n := SIZE_OF_ENTRY + (strlen s + 1).
Hypothesis HI : shard_inv hasher m k sc.
Hypothesis Hk : whichbin hq = k.
Hypothesis Hj : (j < Z.to_nat (mask sc + 1))%nat.
Hypothesis Hnull : slots (entries sc) !! pos = None.
Hypothesis Hbefore : forall j', (j' < j)%nat -> is_Some (slots (entries sc) !! probe_pos (mask sc) hq j').
Hypothesis Habsent : forall q eq, slots (entries sc) !! q = Some eq -> ~ entry_ok m eq hq s.
Hypothesis Hents1 : entries sc1 = entries sc.
Hypothesis Hmask1 : mask sc1 = mask sc.
Hypothesis Hnum1 : num_entries sc1 = num_entries sc.
Hypothesis Hwf1 : arena_wf (alloc sc1).
Hypothesis Hold1 : forall b, b ∈ old_allocs sc1 -> b ∈ arenas sc /\ ranges_disjoint (alloc sc1) b.
Hypothesis Hcover : forall b, b ∈ arenas sc -> b = alloc sc1 \/ b ∈ old_allocs sc1.
Hypothesis He_lo : start (alloc sc1) <= e.
Hypothesis He_hi : e + n <= ptr (alloc sc1).

Let a2 := mkAlloc (layout (alloc sc1)) (start (alloc sc1)) (end_ (alloc sc1)) e.
Let m' := write_entry m e hq s.
Let sc2 := mkCache a2 (old_allocs sc1)
             (mkSlots (slots_len (entries sc1)) (<[pos := e]> (slots (entries sc1))))
             (num_entries sc1 + 1) (mask sc1) (total_allocated sc1).

Lemma iv_disjoint pos' e' t :
  slots (entries sc) !! pos' = Some e' -> entry_ok m e' (ahash hasher t) t ->
  forall x, e' <= x < e' + SIZE_OF_ENTRY + strlen t + 1 -> ~ (e <= x < e + n).
Proof.
  intros Hp Hok x Hx Hr.
  destruct (shard_entry_string hasher _ _ _ _ _ _ _ HI Hp Hok) as (_ & _ & _ & b & Hb & Hf).
  pose proof (si_arenas _ _ _ _ HI b Hb) as Wb. unfold arena_wf, footprint_in in *.
  destruct (Hcover b Hb) as [->|Hb1]; [lia|].
  destruct (Hold1 b Hb1) as [_ Hd]. unfold ranges_disjoint in Hd. lia.
Qed.

Lemma iv_changed x : m' !! x <> m !! x -> e <= x < e + n.
Proof.
  intros Hx. destruct (decide (e <= x < e + n)) as [H|H]; [exact H|].
  exfalso. apply Hx. apply write_entry_outside. unfold n in H. lia.
Qed.

Lemma iv_stable pos' e' h t :
  slots (entries sc) !! pos' = Some e' -> entry_ok m e' h t -> entry_ok m' e' h t.
Proof.
  intros Hp Hok.
  destruct (shard_entry_string hasher _ _ _ _ _ _ _ HI Hp Hok) as (-> & _).
  eapply entry_ok_agree; [|exact Hok]. intros x Hx.
  destruct (decide (e <= x < e + n)) as [Hin|Hout].
  - exfalso. exact (iv_disjoint _ _ _ Hp Hok x Hx Hin).
  - symmetry. apply write_entry_outside. unfold n in Hout. lia.
Qed.

Lemma iv_back pos' e' h t :
  slots (entries sc) !! pos' = Some e' -> entry_ok m' e' h t -> entry_ok m e' h t.
Proof.
  intros Hp Hok. destruct (si_entry _ _ _ _ HI _ _ Hp) as (t' & Hok' & _).
  pose proof (iv_stable _ _ _ _ Hp Hok') as Hok''.
  destruct (entry_ok_inj _ _ _ _ _ _ Hok Hok'') as [-> ->]. exact Hok'.
Qed.

Lemma iv_fresh pos' : slots (entries sc) !! pos' <> Some e.
Proof.
  intros Hp. destruct (si_entry _ _ _ _ HI _ _ Hp) as (t & Hok & _).
  apply (iv_disjoint _ _ _ Hp Hok e); [pose proof (len_nonneg t); unfold SIZE_OF_ENTRY; lia|].
  unfold n, SIZE_OF_ENTRY. pose proof (len_nonneg s). lia.
Qed.

Lemma iv_pos_range : 0 <= pos < mask sc + 1.
Proof.
  destruct (si_pow _ _ _ _ HI) as [nn Hn]. exact (probe_pos_range _ _ nn j Hn).
Qed.

Lemma iv_shard_inv : shard_inv hasher m' k sc2.
Proof.
  pose proof HI as [Hp Hmb Hlen Hkeys Hnum Hent Huniq Har Hsep].
  pose proof iv_pos_range as Hpr.
  assert (He0 : 0 < e) by (unfold arena_wf, HEAP_BASE in Hwf1; lia).
  assert (Hwf2 : arena_wf a2) by (unfold arena_wf in *; simpl; unfold n, SIZE_OF_ENTRY in He_hi;
                                   pose proof (len_nonneg s); lia).
  assert (Hmono : forall q, is_Some (slots (entries sc) !! q) ->
                    is_Some (<[pos := e]> (slots (entries sc)) !! q)).
  { intros q [x Hx]. destruct (Z.eq_dec q pos) as [->|Hq].
    - rewrite lookup_insert_eq. eauto.
    - rewrite lookup_insert_ne by congruence. eauto. }
  unfold sc2. rewrite Hents1, Hmask1, Hnum1.
  constructor; simpl.
  - exact Hp.
  - exact Hmb.
  - exact Hlen.
  - intros q x Hq. destruct (Z.eq_dec q pos) as [->|Hne].
    + rewrite lookup_insert_eq in Hq. injection Hq as <-. lia.
    + rewrite lookup_insert_ne in Hq by congruence. exact (Hkeys _ _ Hq).
  - rewrite map_size_insert_None by exact Hnull. lia.
  - intros q x Hq. destruct (Z.eq_dec q pos) as [->|Hne].
    + rewrite lookup_insert_eq in Hq. injection Hq as <-.
      exists s. split; [apply write_entry_ok|]. split; [exact Hk|]. split.
      * exists j. split; [exact Hj|]. split; [reflexivity|].
        intros j' Hj'. apply Hmono, Hbefore, Hj'.
      * exists a2. split; [apply elem_of_cons; left; reflexivity|].
        unfold footprint_in, a2. simpl. unfold n in He_hi.
        pose proof (proj2 (proj2 (proj2 (proj2 Hwf1)))). lia.
    + rewrite lookup_insert_ne in Hq by congruence.
      destruct (Hent _ _ Hq) as (t & Hok & Hw & Hpo & b & Hb & Hf).
      exists t. split; [exact (iv_stable _ _ _ _ Hq Hok)|]. split; [exact Hw|]. split.
      * eapply probe_ok_mono; [exact Hpo|exact Hmono].
      * destruct (Hcover b Hb) as [->|Hb1].
        -- exists a2. split; [apply elem_of_cons; left; reflexivity|].
           unfold footprint_in, a2 in *. simpl. unfold n in He_hi.
           pose proof (len_nonneg s). unfold SIZE_OF_ENTRY in *. lia.
        -- exists b. split; [apply elem_of_cons; right; exact Hb1|exact Hf].
  - intros p q ep eq t H1 H2 Hok1 Hok2.
    destruct (Z.eq_dec p pos) as [->|Hp1]; destruct (Z.eq_dec q pos) as [->|Hq1];
      try reflexivity;
      rewrite ?lookup_insert_eq in H1; rewrite ?lookup_insert_eq in H2;
      rewrite ?lookup_insert_ne in H1 by congruence;
      rewrite ?lookup_insert_ne in H2 by congruence.
    + injection H1 as <-.
      destruct (entry_ok_inj _ _ _ _ _ _ Hok1 (write_entry_ok m e hq s)) as [_ ->].
      exfalso. exact (Habsent _ _ H2 (iv_back _ _ _ _ H2 Hok2)).
    + injection H2 as <-.
      destruct (entry_ok_inj _ _ _ _ _ _ Hok2 (write_entry_ok m e hq s)) as [_ ->].
      exfalso. exact (Habsent _ _ H1 (iv_back _ _ _ _ H1 Hok1)).
    + exact (Huniq _ _ _ _ t H1 H2 (iv_back _ _ _ _ H1 Hok1) (iv_back _ _ _ _ H2 Hok2)).
  - intros b Hb. apply elem_of_cons in Hb as [->|Hb]; [exact Hwf2|].
    apply Har. apply (Hold1 b Hb).
  - intros b Hb. destruct (Hold1 b Hb) as [_ Hd]. exact Hd.
Qed.

Lemma iv_values e' :
  (exists q, slots (entries sc2) !! q = Some e') <->
  (exists q, slots (entries sc) !! q = Some e') \/ e' = e.
Proof.
  unfold sc2. simpl. rewrite Hents1. split.
  - intros [q Hq]. destruct (Z.eq_dec q pos) as [->|Hne].
    + rewrite lookup_insert_eq in Hq. injection Hq as <-. auto.
    + rewrite lookup_insert_ne in Hq by congruence. eauto.
  - intros [[q Hq]| ->].
    + exists q. rewrite lookup_insert_ne; [exact Hq|]. congruence.
    + exists pos. apply lookup_insert_eq.
Qed.

Lemma iv_summary :
  shard_inv hasher m' k sc2 /\
  (forall e', (exists q, slots (entries sc2) !! q = Some e') <->
              (exists q, slots (entries sc) !! q = Some e') \/ e' = e) /\
  entry_ok m' e hq s /\
  (forall pos' e' h t, slots (entries sc) !! pos' = Some e' -> entry_ok m e' h t ->
     entry_ok m' e' h t) /\
  (forall x, m' !! x <> m !! x -> e <= x < e + n) /\
  num_entries sc2 = num_entries sc + 1 /\ mask sc2 = mask sc /\
  alloc sc2 = a2 /\ old_allocs sc2 = old_allocs sc1.
Proof.
  split; [exact iv_shard_inv|]. split; [exact iv_values|].
  split; [apply write_entry_ok|]. split; [exact iv_stable|]. split; [exact iv_changed|].
  unfold sc2. simpl. rewrite Hnum1, Hmask1. auto.
Qed.

End InsertVacant.

(** ** [StringCache::insert] *)

Section Insert.
Context (hasher : list byte -> Z).

Lemma StringCache_insert_spec hp k sc s p sc' hp' :
  shard_inv hasher (mem hp) k sc -> num_entries sc * 2 <= mask sc ->
  whichbin (ahash hasher s) = k -> HEAP_BASE <= brk hp ->
  (forall a, a ∈ arenas sc -> end_ a <= brk hp) ->
  StringCache_insert sc hp s (ahash hasher s) = Ok (p, sc', hp') ->
  (exists pos, slots (entries sc) !! pos = Some (p - SIZE_OF_ENTRY) /\
     entry_ok (mem hp) (p - SIZE_OF_ENTRY) (ahash hasher s) s /\ sc' = sc /\ hp' = hp) \/
  ((forall q eq, slots (entries sc) !! q = Some eq -> ~ entry_ok (mem hp) eq (ahash hasher s) s) /\
   shard_inv hasher (mem hp') k sc' /\ num_entries sc' * 2 <= mask sc' /\
   (forall e', (exists q, slots (entries sc') !! q = Some e') <->
               (exists q, slots (entries sc) !! q = Some e') \/ e' = p - SIZE_OF_ENTRY) /\
   entry_ok (mem hp') (p - SIZE_OF_ENTRY) (ahash hasher s) s /\
   (forall pos e' h t, slots (entries sc) !! pos = Some e' -> entry_ok (mem hp) e' h t ->
      entry_ok (mem hp') e' h t) /\
   (forall x, mem hp' !! x <> mem hp !! x -> start (alloc sc') <= x < end_ (alloc sc')) /\
   ((start (alloc sc') = start (alloc sc) /\ end_ (alloc sc') = end_ (alloc sc) /\
     old_allocs sc' = old_allocs sc /\ brk hp' = brk hp) \/
    (brk hp <= start (alloc sc') /\ end_ (alloc sc') = brk hp' /\
     old_allocs sc' = old_allocs sc ++ [alloc sc])) /\
   num_entries sc' = num_entries sc + 1 /\
   mask sc' = (if mask sc <? (num_entries sc + 1) * 2 then 2 * mask sc + 1 else mask sc)).
Proof.
  intros HI Hload Hk Hb Hbrk H. unfold StringCache_insert in H.
  destruct (StringCache_probe_spec hasher (mem hp) k sc s HI Hload)
    as [(pos & e & Hs & Hok & R)|(j & Hj & R & Hs & Hbef & Habs)];
    rewrite R in H; simpl in H.
  - injection H as <- <- <-. left. exists pos.
    replace (e + SIZE_OF_ENTRY - SIZE_OF_ENTRY) with e by lia. auto.
  - right. set (n := SIZE_OF_ENTRY + (strlen s + 1)) in H.
    assert (Hn : 0 < n) by (unfold n, SIZE_OF_ENTRY; pose proof (len_nonneg s); lia).
    destruct (StringCache_reserve sc hp n) as [[sc1 hp1]|err] eqn:Er; simpl in H;
      [|discriminate].
    pose proof HI as [_ _ _ _ _ _ _ Har Hsep].
    assert (Hcur : arena_wf (alloc sc)) by (apply Har; apply elem_of_cons; left; reflexivity).
    assert (Hre : (sc1 = sc /\ hp1 = hp /\
                   LeakyBumpAlloc_allocated (alloc sc) + n <= LeakyBumpAlloc_capacity (alloc sc)) \/
                  (old_allocs sc1 = old_allocs sc ++ [alloc sc] /\ entries sc1 = entries sc /\
                   num_entries sc1 = num_entries sc /\ mask sc1 = mask sc /\
                   brk hp <= start (alloc sc1) /\ end_ (alloc sc1) = brk hp1 /\
                   ptr (alloc sc1) = end_ (alloc sc1) /\ mem hp1 = mem hp /\
                   arena_wf (alloc sc1) /\ n <= LeakyBumpAlloc_capacity (alloc sc1)))
      by exact (StringCache_reserve_spec sc hp n sc1 hp1 Er Hn Hb).
    (* the facts [insert] needs after the arena check *)
    assert (Hpost : entries sc1 = entries sc /\ mask sc1 = mask sc /\
                    num_entries sc1 = num_entries sc /\ mem hp1 = mem hp /\
                    arena_wf (alloc sc1) /\
                    LeakyBumpAlloc_allocated (alloc sc1) + n <= LeakyBumpAlloc_capacity (alloc sc1) /\
                    (forall b, b ∈ old_allocs sc1 -> b ∈ arenas sc /\ ranges_disjoint (alloc sc1) b) /\
                    (forall b, b ∈ arenas sc -> b = alloc sc1 \/ b ∈ old_allocs sc1)).
    { destruct Hre as [(-> & -> & Hfit)|(Ho & He & Hnm & Hm & Hs1 & Hend & Hp & Hmem & Hw & Hc)].
      - do 6 (split; [first [reflexivity | assumption]|]). split.
        + intros b Hb'. split; [apply elem_of_cons; right; exact Hb'|]. apply Hsep, Hb'.
        + intros b Hb'. apply elem_of_cons in Hb'. exact Hb'.
      - do 5 (split; [assumption|]). split.
        { unfold LeakyBumpAlloc_allocated. lia. }
        split.
        + intros b Hb'. rewrite Ho in Hb'. split.
          * apply elem_of_app in Hb' as [Hb'|Hb'].
            -- apply elem_of_cons. right. exact Hb'.
            -- apply list_elem_of_singleton in Hb' as ->. apply elem_of_cons. left. reflexivity.
          * assert (Hb2 : b ∈ arenas sc).
            { apply elem_of_app in Hb' as [Hb'|Hb'].
              - apply elem_of_cons. right. exact Hb'.
              - apply list_elem_of_singleton in Hb' as ->. apply elem_of_cons. left. reflexivity. }
            pose proof (Hbrk b Hb2). unfold ranges_disjoint. lia.
        + intros b Hb'. right. rewrite Ho. apply elem_of_app.
          apply elem_of_cons in Hb' as [->|Hb'].
          * right. apply list_elem_of_singleton. reflexivity.
          * left. exact Hb'. }
    destruct Hpost as (He1 & Hm1 & Hn1 & Hmem1 & Hw1 & Hfit1 & Hold1 & Hcover).
    destruct (LeakyBumpAlloc_allocate_spec (alloc sc1) n Hw1 Hn Hfit1)
      as (e & Ra & Hlo & Hhi & _).
    rewrite Ra in H. simpl in H. rewrite Hmem1 in H.
    destruct (iv_summary hasher (mem hp) k sc sc1 s j e HI Hk Hj Hs Hbef Habs He1 Hm1 Hn1
                Hw1 Hold1 Hcover Hlo Hhi)
      as (Hinv2 & Hval2 & Hok2 & Hst2 & Hch2 & Hnum2 & Hmask2 & Hal2 & Hold2).
    rewrite He1, Hm1, Hn1 in H. rewrite He1, Hm1, Hn1 in Hinv2, Hval2, Hnum2, Hmask2.
    set (sc2 := mkCache _ _ _ _ _ _) in H, Hinv2, Hval2, Hnum2, Hmask2, Hal2, Hold2.
    (* the tail shared by the two outcomes of the load-factor test *)
    assert (Htail : forall sc3,
      shard_inv hasher (write_entry (mem hp) e (ahash hasher s) s) k sc3 ->
      num_entries sc3 * 2 <= mask sc3 ->
      (forall e', (exists q, slots (entries sc3) !! q = Some e') <->
                  (exists q, slots (entries sc2) !! q = Some e')) ->
      alloc sc3 = alloc sc2 -> old_allocs sc3 = old_allocs sc2 ->
      num_entries sc3 = num_entries sc + 1 ->
      mask sc3 = (if mask sc <? (num_entries sc + 1) * 2 then 2 * mask sc + 1 else mask sc) ->
      p = e + SIZE_OF_ENTRY -> sc' = sc3 -> hp' = mkHeap (write_entry (mem hp) e (ahash hasher s) s) (brk hp1) ->
      (forall q eq, slots (entries sc) !! q = Some eq -> ~ entry_ok (mem hp) eq (ahash hasher s) s) /\
      shard_inv hasher (mem hp') k sc' /\ num_entries sc' * 2 <= mask sc' /\
      (forall e', (exists q, slots (entries sc') !! q = Some e') <->
                  (exists q, slots (entries sc) !! q = Some e') \/ e' = p - SIZE_OF_ENTRY) /\
      entry_ok (mem hp') (p - SIZE_OF_ENTRY) (ahash hasher s) s /\
      (forall pos e' h t, slots (entries sc) !! pos = Some e' -> entry_ok (mem hp) e' h t ->
         entry_ok (mem hp') e' h t) /\
      (forall x, mem hp' !! x <> mem hp !! x -> start (alloc sc') <= x < end_ (alloc sc')) /\
      ((start (alloc sc') = start (alloc sc) /\ end_ (alloc sc') = end_ (alloc sc) /\
        old_allocs sc' = old_allocs sc /\ brk hp' = brk hp) \/
       (brk hp <= start (alloc sc') /\ end_ (alloc sc') = brk hp' /\
        old_allocs sc' = old_allocs sc ++ [alloc sc])) /\
      num_entries sc' = num_entries sc + 1 /\
      mask sc' = (if mask sc <? (num_entries sc + 1) * 2 then 2 * mask sc + 1 else mask sc)).
    { intros sc3 I3 L3 V3 A3 O3 N3 M3 -> -> ->. simpl.
      replace (e + SIZE_OF_ENTRY - SIZE_OF_ENTRY) with e by lia.
      split; [exact Habs|]. split; [exact I3|]. split; [exact L3|].
      split; [intros e'; rewrite V3; apply Hval2|]. split; [exact Hok2|].
      split; [exact Hst2|]. split.
      - intros x Hx. apply Hch2 in Hx. rewrite A3. unfold sc2. simpl.
        unfold arena_wf in Hw1. unfold n in Hx. lia.
      - split; [|split; assumption]. rewrite A3, O3. unfold sc2. simpl.
        destruct Hre as [(-> & -> & _)|(Ho & _ & _ & _ & Hs1 & Hend & _)].
        + left. auto.
        + right. rewrite Ho. auto. }
    destruct (Z.ltb_spec (mask sc) ((num_entries sc + 1) * 2)) as [Hgrow|Hno]; simpl in H.
    + destruct (StringCache_grow_spec hasher _ k sc2 Hinv2 ltac:(rewrite Hnum2, Hmask2; lia))
        as [G|(sc3 & G & I3 & L3 & M3 & A3 & O3 & N3 & _ & V3)];
        rewrite G in H; simpl in H; [discriminate|].
      injection H as <- <- <-. apply (Htail sc3); auto; lia.
    + injection H as <- <- <-. apply (Htail sc2); auto; lia.
Qed.

End Insert.

(** ** The bins of the world *)

Lemma whichbin_range h : 0 <= whichbin h < NUM_BINS.
Proof. unfold whichbin. apply Z.mod_pos_bound. reflexivity. Qed.

Lemma bin_lookup w i sc :
  bin w i = Ok sc -> 0 <= i /\ bins w !! Z.to_nat i = Some sc.
Proof.
  unfold bin, expect. destruct (Z.leb_spec 0 i); [|discriminate].
  destruct (bins w !! Z.to_nat i); simpl; [|discriminate]. intros [= ->]. auto.
Qed.

Lemma ranges_disjoint_sym a b : ranges_disjoint a b -> ranges_disjoint b a.
Proof. unfold ranges_disjoint. lia. Qed.

Lemma ranges_disjoint_same a a' b :
  start a' = start a -> end_ a' = end_ a -> ranges_disjoint a b -> ranges_disjoint a' b.
Proof. unfold ranges_disjoint. lia. Qed.

Lemma persists_refl w : persists w w.
Proof. intros k sc pos e h t H1 H2 H3. eauto. Qed.

Lemma persists_trans w1 w2 w3 : persists w1 w2 -> persists w2 w3 -> persists w1 w3.
Proof.
  intros P12 P23 k sc pos e h t H1 H2 H3.
  destruct (P12 _ _ _ _ _ _ H1 H2 H3) as (sc' & pos' & H1' & H2' & H3').
  exact (P23 _ _ _ _ _ _ H1' H2' H3').
Qed.

(** ** [Ustr::from] keeps the invariant of the world *)

Section WorldInsert.
Context (hasher : list byte -> Z).

Lemma Ustr_from_spec w s u w' :
  world_inv hasher w -> Ustr_from hasher w s = Ok (u, w') ->
  world_inv hasher w' /\ persists w w' /\
  (exists sc pos, bins w' !! Z.to_nat (whichbin (ahash hasher s)) = Some sc /\
     slots (entries sc) !! pos = Some (char_ptr u - SIZE_OF_ENTRY) /\
     entry_ok (mem (heap w')) (char_ptr u - SIZE_OF_ENTRY) (ahash hasher s) s) /\
  (w' = w \/ ~ present hasher w s) /\
  (forall t, present hasher w' t -> present hasher w t \/ t = s) /\
  (exists sc sc', bins w !! Z.to_nat (whichbin (ahash hasher s)) = Some sc /\
     bins w' !! Z.to_nat (whichbin (ahash hasher s)) = Some sc' /\
     (sc' = sc \/ (num_entries sc' = num_entries sc + 1 /\
        mask sc' = (if mask sc <? (num_entries sc + 1) * 2 then 2 * mask sc + 1 else mask sc)))).
Proof.
  intros Hw H. set (hq := ahash hasher s) in H |- *. unfold Ustr_from in H. fold hq in H.
  destruct (bin w (whichbin hq)) as [sc|] eqn:Eb; [|discriminate].
  rewrite bind_Ok in H. cbv beta in H.
  apply bin_lookup in Eb as [_ Hkn].
  set (kn := Z.to_nat (whichbin hq)) in Hkn, H |- *.
  assert (Hkz : Z.of_nat kn = whichbin hq) by (unfold kn; pose proof (whichbin_range hq); lia).
  destruct (StringCache_insert sc (heap w) s hq) as [[[p sc'] hp']|err] eqn:Ei;
    [|discriminate].
  rewrite bind_Ok in H. cbv beta iota in H.
  apply Ok_inj, pair_equal_spec in H as [<- <-]. change (char_ptr (mkUstr p)) with p.
  pose proof (wi_shards _ _ Hw kn sc Hkn) as HI. rewrite Hkz in HI.
  destruct (StringCache_insert_spec hasher (heap w) (whichbin hq) sc s p sc' hp' HI
              (wi_load _ _ Hw kn sc Hkn) eq_refl (wi_brk_base _ _ Hw)
              (fun a Ha => wi_brk _ _ Hw kn sc a Hkn Ha) Ei)
    as [(pos & Hs & Hok & -> & ->)|(Habs & I' & L' & V' & Ok' & St' & Ch' & Case' & NM')].
  - rewrite list_insert_id by exact Hkn.
    assert (Ew : mkWorld (bins w) (heap w) = w) by (destruct w; reflexivity). rewrite Ew.
    split; [exact Hw|]. split; [apply persists_refl|].
    split; [exists sc, pos; split; [exact Hkn|split; assumption]|].
    split; [left; reflexivity|]. split; [intros t Ht; left; exact Ht|].
    exists sc, sc. auto.
  - assert (Hkn_len : (kn < length (bins w))%nat) by (apply lookup_lt_is_Some; eauto).
    pose proof (si_arenas _ _ _ _ I') as War'.
    assert (Hbrk_mono : brk (heap w) <= brk hp').
    { destruct Case' as [(_ & _ & _ & ->)|(Hs1 & He1 & _)]; [lia|].
      assert (arena_wf (alloc sc')) as Wa by (apply War'; apply elem_of_cons; left; reflexivity).
      unfold arena_wf in Wa. lia. }
    assert (Har' : forall a1, a1 ∈ arenas sc' ->
               (exists b, b ∈ arenas sc /\ start a1 = start b /\ end_ a1 = end_ b) \/
               (brk (heap w) <= start a1 /\ end_ a1 <= brk hp')).
    { intros a1 Ha1. apply elem_of_cons in Ha1 as [->|Ha1].
      - destruct Case' as [(E1 & E2 & _)|(Hs1 & He1 & _)].
        + left. exists (alloc sc). split; [apply elem_of_cons; left; reflexivity|auto].
        + right. lia.
      - left. exists a1. split; [|auto].
        destruct Case' as [(_ & _ & Eo & _)|(_ & _ & Eo)]; rewrite Eo in Ha1.
        + apply elem_of_cons. right. exact Ha1.
        + apply elem_of_app in Ha1 as [Ha1|Ha1].
          * apply elem_of_cons. right. exact Ha1.
          * apply list_elem_of_singleton in Ha1 as ->. apply elem_of_cons. left. reflexivity. }
    assert (Hother : forall k' sc0 a x, k' <> kn -> bins w !! k' = Some sc0 -> a ∈ arenas sc0 ->
               start a <= x < end_ a -> mem (heap w) !! x = mem hp' !! x).
    { intros k' sc0 a x Hk' H0 Ha Hx.
      destruct (decide (mem hp' !! x = mem (heap w) !! x)) as [E|E]; [symmetry; exact E|].
      exfalso. apply Ch' in E.
      destruct (Har' (alloc sc') ltac:(apply elem_of_cons; left; reflexivity))
        as [(b & Hb & Es & Ee)|(Hs1 & He1)].
      - pose proof (wi_sep _ _ Hw kn k' sc sc0 b a ltac:(congruence) Hkn H0 Hb Ha) as D.
        unfold ranges_disjoint in D. lia.
      - pose proof (wi_brk _ _ Hw k' sc0 a H0 Ha). lia. }
    assert (Hlk : forall k', <[kn := sc']> (bins w) !! k' =
                    if decide (k' = kn) then Some sc' else bins w !! k').
    { intros k'. destruct (decide (k' = kn)) as [->|Hne].
      - apply list_lookup_insert_eq. exact Hkn_len.
      - apply list_lookup_insert_ne. congruence. }
    split; [|split; [|split; [|split; [|split]]]].
    + constructor; cbn [bins heap].
      * rewrite length_insert. apply (wi_len _ _ Hw).
      * intros k' sc0. rewrite Hlk. destruct (decide (k' = kn)) as [->|Hne].
        -- intros [= <-]. rewrite Hkz. exact I'.
        -- intros H0. apply (shard_inv_frame hasher (mem (heap w))).
           ++ exact (wi_shards _ _ Hw k' sc0 H0).
           ++ intros a x Ha Hx. exact (Hother k' sc0 a x Hne H0 Ha Hx).
      * intros k' sc0 a. rewrite Hlk. destruct (decide (k' = kn)) as [->|Hne].
        -- intros [= <-] Ha. destruct (Har' a Ha) as [(b & Hb & _ & Ee)|(_ & He1)]; [|lia].
           pose proof (wi_brk _ _ Hw kn sc b Hkn Hb). lia.
        -- intros H0 Ha. pose proof (wi_brk _ _ Hw k' sc0 a H0 Ha). lia.
      * pose proof (wi_brk_base _ _ Hw). lia.
      * intros k' sc0. rewrite Hlk. destruct (decide (k' = kn)) as [->|Hne].
        -- intros [= <-]. exact L'.
        -- apply (wi_load _ _ Hw).
      * intros k1 k2 sc1 sc2 a1 a2 Hne. rewrite !Hlk.
        destruct (decide (k1 = kn)) as [->|Hne1]; destruct (decide (k2 = kn)) as [->|Hne2];
          [congruence| | |].
        -- intros [= <-] H2 Ha1 Ha2.
           destruct (Har' a1 Ha1) as [(b & Hb & Es & Ee)|(Hs1 & He1)].
           ++ apply (ranges_disjoint_same b); [exact Es|exact Ee|].
              exact (wi_sep _ _ Hw kn k2 sc sc2 b a2 Hne Hkn H2 Hb Ha2).
           ++ pose proof (wi_brk _ _ Hw k2 sc2 a2 H2 Ha2). unfold ranges_disjoint. lia.
        -- intros H1 [= <-] Ha1 Ha2. apply ranges_disjoint_sym.
           destruct (Har' a2 Ha2) as [(b & Hb & Es & Ee)|(Hs1 & He1)].
           ++ apply (ranges_disjoint_same b); [exact Es|exact Ee|].
              exact (wi_sep _ _ Hw kn k1 sc sc1 b a1 ltac:(congruence) Hkn H1 Hb Ha1).
           ++ pose proof (wi_brk _ _ Hw k1 sc1 a1 H1 Ha1). unfold ranges_disjoint. lia.
        -- apply (wi_sep _ _ Hw); exact Hne.
    + intros k0 sc0 pos e h t H0 Hs Hok. cbn [bins heap]. rewrite Hlk.
      destruct (decide (k0 = kn)) as [->|Hne].
      * rewrite Hkn in H0. injection H0 as <-.
        destruct (proj2 (V' e) (or_introl (ex_intro _ pos Hs))) as [q Hq].
        exists sc', q. split; [reflexivity|]. split; [exact Hq|]. exact (St' _ _ _ _ Hs Hok).
      * exists sc0, pos. split; [exact H0|]. split; [exact Hs|].
        pose proof (wi_shards _ _ Hw k0 sc0 H0) as I0.
        destruct (shard_entry_string hasher _ _ _ _ _ _ _ I0 Hs Hok) as (_ & _ & _ & a & Ha & Hf).
        eapply entry_ok_agree; [|exact Hok]. intros x Hx.
        apply (Hother k0 sc0 a x Hne H0 Ha).
        exact (arena_range a e t (si_arenas _ _ _ _ I0 a Ha) Hf x Hx).
    + exists sc'. destruct (proj2 (V' (p - SIZE_OF_ENTRY)) (or_intror eq_refl)) as [q Hq].
      exists q. cbn [bins heap]. rewrite Hlk, decide_True by reflexivity.
      split; [reflexivity|]. split; [exact Hq|exact Ok'].
    + right. intros (k0 & sc0 & pos & e & H0 & Hs & Hok).
      destruct (decide (k0 = kn)) as [->|Hne].
      * rewrite Hkn in H0. injection H0 as <-. exact (Habs _ _ Hs Hok).
      * pose proof (wi_shards _ _ Hw k0 sc0 H0) as I0.
        destruct (shard_entry_string hasher _ _ _ _ _ _ _ I0 Hs Hok) as (_ & Hwb & _).
        apply Hne. unfold kn. fold hq in Hwb. rewrite Hwb. symmetry. apply Nat2Z.id.
    + intros t (k0 & sc0 & pos & e & H0 & Hs & Hok). cbn [bins heap] in H0, Hok.
      rewrite Hlk in H0. destruct (decide (k0 = kn)) as [->|Hne].
      * injection H0 as <-.
        destruct (proj1 (V' e) (ex_intro _ pos Hs)) as [[q Hq]|Ee].
        -- left. destruct (si_entry _ _ _ _ HI _ _ Hq) as (t0 & Hok0 & _).
           pose proof (St' _ _ _ _ Hq Hok0) as Hok0'.
           destruct (entry_ok_inj _ _ _ _ _ _ Hok Hok0') as [_ Et]. subst t0.
           exists kn, sc, q, e. auto.
        -- right. rewrite Ee in Hok.
           destruct (entry_ok_inj _ _ _ _ _ _ Hok Ok') as [_ Et]. exact Et.
      * left. pose proof (wi_shards _ _ Hw k0 sc0 H0) as I0.
        destruct (si_entry _ _ _ _ I0 _ _ Hs) as (t0 & Hok0 & _ & _ & a & Ha & Hf).
        assert (Hok0' : entry_ok (mem hp') e (ahash hasher t0) t0).
        { eapply entry_ok_agree; [|exact Hok0]. intros x Hx.
          apply (Hother k0 sc0 a x Hne H0 Ha).
          exact (arena_range a e t0 (si_arenas _ _ _ _ I0 a Ha) Hf x Hx). }
        destruct (entry_ok_inj _ _ _ _ _ _ Hok Hok0') as [_ Et]. subst t0.
        exists k0, sc0, pos, e. auto.
    + exists sc, sc'. split; [exact Hkn|]. split; [|right; exact NM'].
      cbn [bins]. rewrite Hlk, decide_True by reflexivity. reflexivity.
Qed.

End WorldInsert.

(** ** Canonical entries and lookups *)

Section WorldLookup.
Context (hasher : list byte -> Z).

(** Two slots holding an entry for the same string are the same slot of
    the same bin. *)
Lemma world_canonical w s k1 k2 sc1 sc2 p1 p2 e1 e2 :
  world_inv hasher w -> bins w !! k1 = Some sc1 -> bins w !! k2 = Some sc2 ->
  slots (entries sc1) !! p1 = Some e1 -> slots (entries sc2) !! p2 = Some e2 ->
  entry_ok (mem (heap w)) e1 (ahash hasher s) s ->
  entry_ok (mem (heap w)) e2 (ahash hasher s) s ->
  k1 = k2 /\ p1 = p2 /\ e1 = e2.
Proof.
  intros Hw H1 H2 Hs1 Hs2 Hok1 Hok2.
  pose proof (wi_shards _ _ Hw _ _ H1) as I1. pose proof (wi_shards _ _ Hw _ _ H2) as I2.
  destruct (shard_entry_string hasher _ _ _ _ _ _ _ I1 Hs1 Hok1) as (_ & W1 & _).
  destruct (shard_entry_string hasher _ _ _ _ _ _ _ I2 Hs2 Hok2) as (_ & W2 & _).
  assert (k1 = k2) as <- by lia.
  rewrite H1 in H2. injection H2 as <-.
  pose proof (si_uniq _ _ _ _ I1 _ _ _ _ s Hs1 Hs2 Hok1 Hok2) as <-.
  rewrite Hs1 in Hs2. injection Hs2 as <-. auto.
Qed.

Lemma bin_whichbin w h :
  world_inv hasher w ->
  exists sc, bin w (whichbin h) = Ok sc /\ bins w !! Z.to_nat (whichbin h) = Some sc.
Proof.
  intros Hw. pose proof (whichbin_range h) as Hr.
  assert (HN : NUM_BINS = 64) by reflexivity.
  destruct (lookup_lt_is_Some_2 (bins w) (Z.to_nat (whichbin h))) as [sc Hsc].
  { rewrite (wi_len _ _ Hw). lia. }
  exists sc. split; [|exact Hsc]. unfold bin.
  rewrite (proj2 (Z.leb_le 0 _)) by lia. rewrite Hsc. reflexivity.
Qed.

Lemma present_bin w s :
  world_inv hasher w -> present hasher w s ->
  exists sc pos e, bins w !! Z.to_nat (whichbin (ahash hasher s)) = Some sc /\
    slots (entries sc) !! pos = Some e /\ entry_ok (mem (heap w)) e (ahash hasher s) s.
Proof.
  intros Hw (k0 & sc0 & pos & e & H0 & Hs0 & Hok).
  destruct (shard_entry_string hasher _ _ _ _ _ _ _ (wi_shards _ _ Hw _ _ H0) Hs0 Hok)
    as (_ & Hwb & _).
  exists sc0, pos, e. rewrite Hwb, Nat2Z.id. auto.
Qed.

(** [Ustr::from_existing]: the canonical handle when the string is held,
    [None] otherwise. *)
Lemma Ustr_from_existing_spec w s :
  world_inv hasher w ->
  (exists sc pos e, bins w !! Z.to_nat (whichbin (ahash hasher s)) = Some sc /\
     slots (entries sc) !! pos = Some e /\ entry_ok (mem (heap w)) e (ahash hasher s) s /\
     Ustr_from_existing hasher w s = Ok (Some (mkUstr (e + SIZE_OF_ENTRY))) /\
     Ustr_from hasher w s = Ok (mkUstr (e + SIZE_OF_ENTRY), w)) \/
  (~ present hasher w s /\ Ustr_from_existing hasher w s = Ok None).
Proof.
  intros Hw. set (hq := ahash hasher s).
  destruct (bin_whichbin w hq Hw) as (sc & Eb & Hkn).
  pose proof (wi_shards _ _ Hw _ _ Hkn) as HI.
  destruct (StringCache_probe_spec hasher (mem (heap w)) _ sc s HI (wi_load _ _ Hw _ _ Hkn))
    as [(pos & e & Hs & Hok & R)|(j & Hj & R & Hs & Hbef & Habs)]; fold hq in R.
  - left. exists sc, pos, e. split; [exact Hkn|]. split; [exact Hs|]. split; [exact Hok|].
    unfold Ustr_from_existing, StringCache_get_existing, Ustr_from, StringCache_insert.
    fold hq. rewrite Eb, !bind_Ok. cbv beta. rewrite R, !bind_Ok. cbv beta iota.
    split; [reflexivity|]. rewrite ?bind_Ok. cbv beta iota. rewrite ?bind_Ok. cbv beta iota.
    rewrite list_insert_id by exact Hkn. destruct w; reflexivity.
  - right. split.
    + intros Hp. destruct (present_bin w s Hw Hp) as (sc0 & pos & e & H0 & Hs0 & Hok).
      fold hq in H0, Hok. rewrite Hkn in H0. injection H0 as <-.
      exact (Habs _ _ Hs0 Hok).
    + unfold Ustr_from_existing, StringCache_get_existing.
      fold hq. rewrite Eb, bind_Ok. cbv beta. rewrite R, !bind_Ok. reflexivity.
Qed.

End WorldLookup.

(** ** [StringCache::new], [StringCache::clear] and fresh worlds *)

Lemma brk_dealloc_all l hp : brk (dealloc_all l hp) = brk hp.
Proof.
  revert hp. induction l as [|a l IH]; intros hp; cbn [dealloc_all]; [reflexivity|].
  rewrite IH. reflexivity.
Qed.

Lemma StringCache_new_spec hp sc hp' :
  StringCache_new hp = Ok (sc, hp') -> HEAP_BASE <= brk hp ->
  fresh_shard sc /\ table_shape sc /\ brk hp <= start (alloc sc) /\ end_ (alloc sc) = brk hp'.
Proof.
  unfold StringCache_new. intros H Hb. cbv zeta in H.
  destruct (LeakyBumpAlloc_new (INITIAL_ALLOC / NUM_BINS) ALIGN_OF_ENTRY hp)
    as [[a hp1]|e] eqn:E; [|discriminate].
  rewrite bind_Ok in H. cbv beta iota in H. apply Ok_inj, pair_equal_spec in H as [<- <-].
  assert (HA : INITIAL_ALLOC / NUM_BINS = 65536) by reflexivity.
  assert (HC : INITIAL_CAPACITY / NUM_BINS = 16384) by reflexivity.
  destruct (LeakyBumpAlloc_new_spec _ _ _ _ E ltac:(lia) Hb) as (Hl & Hs & He & Hp & _ & Hw).
  unfold fresh_shard, table_shape. cbn [entries slots slots_len num_entries old_allocs alloc mask].
  rewrite HC, Hl. cbn [l_size].
  split; [do 3 (split; [reflexivity|]); split; [exact Hw|split; [reflexivity|exact Hp]]|].
  split; [|lia].
  split; [exists 14%nat; reflexivity|]. lia.
Qed.

Lemma StringCache_clear_spec sc hp sc' hp' :
  StringCache_clear sc hp = Ok (sc', hp') -> HEAP_BASE <= brk hp ->
  (forall pos e, slots (entries sc) !! pos = Some e -> 0 <= pos < mask sc + 1) ->
  fresh_shard sc' /\ slots_len (entries sc') = slots_len (entries sc) /\ mask sc' = mask sc /\
  total_allocated sc' = 0 /\ brk hp <= start (alloc sc') /\ end_ (alloc sc') = brk hp'.
Proof.
  unfold StringCache_clear. intros H Hb Hk.
  destruct (slots_len (entries sc) <? mask sc + 1); [discriminate|]. cbv zeta in H.
  destruct (LeakyBumpAlloc_new (INITIAL_ALLOC / NUM_BINS) ALIGN_OF_ENTRY
              (LeakyBumpAlloc_clear (alloc sc) (dealloc_all (old_allocs sc) hp)))
    as [[a hp1]|e] eqn:E; [|discriminate].
  rewrite bind_Ok in H. cbv beta iota in H. apply Ok_inj, pair_equal_spec in H as [<- <-].
  assert (Hb1 : brk (LeakyBumpAlloc_clear (alloc sc) (dealloc_all (old_allocs sc) hp)) = brk hp).
  { unfold LeakyBumpAlloc_clear, system_dealloc. cbn [brk]. apply brk_dealloc_all. }
  assert (HA : INITIAL_ALLOC / NUM_BINS = 65536) by reflexivity.
  destruct (LeakyBumpAlloc_new_spec _ _ _ _ E ltac:(lia) ltac:(lia)) as (Hl & Hs & He & Hp & _ & Hw).
  unfold fresh_shard. cbn [entries slots slots_len num_entries old_allocs alloc mask total_allocated].
  split; [|split; [reflexivity|split; [reflexivity|split; [reflexivity|lia]]]].
  split.
  { apply map_empty. intros i. apply map_lookup_filter_None.
    destruct (slots (entries sc) !! i) as [x|] eqn:Ex; [right|left; reflexivity].
    intros y Hy. injection Hy as <-. cbn. pose proof (Hk _ _ Ex). lia. }
  do 2 (split; [reflexivity|]). rewrite Hl. cbn [l_size]. split; [exact Hw|split; [reflexivity|exact Hp]].
Qed.

Lemma make_bins_spec n hp bs hp' :
  make_bins n hp = Ok (bs, hp') -> HEAP_BASE <= brk hp ->
  length bs = n /\ brk hp <= brk hp' /\
  (forall i sc, bs !! i = Some sc -> fresh_shard sc /\ table_shape sc /\
       brk hp <= start (alloc sc) /\ end_ (alloc sc) <= brk hp') /\
  arenas_ordered bs.
Proof.
  revert hp bs. induction n as [|n IH]; intros hp bs H Hb; cbn [make_bins] in H.
  - apply Ok_inj, pair_equal_spec in H as [<- <-]. split; [reflexivity|]. split; [lia|].
    split; [intros i sc Hi; rewrite lookup_nil in Hi; discriminate|].
    intros i j sci scj _ Hi. rewrite lookup_nil in Hi. discriminate.
  - destruct (StringCache_new hp) as [[sc hp1]|e] eqn:E; [|discriminate].
    rewrite bind_Ok in H. cbv beta iota in H.
    destruct (make_bins n hp1) as [[rest hp2]|e] eqn:E2; [|discriminate].
    rewrite bind_Ok in H. cbv beta iota in H. apply Ok_inj, pair_equal_spec in H as [<- <-].
    destruct (StringCache_new_spec _ _ _ E Hb) as (Hf & Hsh & Hst & Hen).
    pose proof Hf as (_ & _ & _ & Hw & _). unfold arena_wf in Hw.
    destruct (IH hp1 rest E2 ltac:(lia)) as (Hl & Hmono & Hall & Hord).
    split; [cbn [length]; lia|]. split; [lia|]. split.
    + intros [|i] sc0 Hi; cbn in Hi.
      * injection Hi as <-. split; [exact Hf|]. split; [exact Hsh|]. lia.
      * destruct (Hall i sc0 Hi) as (F1 & F2 & F3 & F4).
        split; [exact F1|]. split; [exact F2|]. lia.
    + intros [|i] [|j] sci scj Hij Hi Hj; cbn in Hi, Hj; [lia| |lia|].
      * injection Hi as <-. destruct (Hall j scj Hj) as (_ & _ & ? & _). lia.
      * apply (Hord i j); [lia|exact Hi|exact Hj].
Qed.

Lemma clear_bins_spec l hp bs hp' :
  clear_bins l hp = Ok (bs, hp') -> HEAP_BASE <= brk hp ->
  (forall i sc, l !! i = Some sc ->
     forall pos e, slots (entries sc) !! pos = Some e -> 0 <= pos < mask sc + 1) ->
  length bs = length l /\ brk hp <= brk hp' /\
  (forall i sc', bs !! i = Some sc' -> exists sc, l !! i = Some sc /\ fresh_shard sc' /\
       slots_len (entries sc') = slots_len (entries sc) /\ mask sc' = mask sc /\
       total_allocated sc' = 0 /\ brk hp <= start (alloc sc') /\ end_ (alloc sc') <= brk hp') /\
  arenas_ordered bs.
Proof.
  revert hp bs. induction l as [|sc l IH]; intros hp bs H Hb Hk; cbn [clear_bins] in H.
  - apply Ok_inj, pair_equal_spec in H as [<- <-]. split; [reflexivity|]. split; [lia|].
    split; [intros i sc Hi; rewrite lookup_nil in Hi; discriminate|].
    intros i j sci scj _ Hi. rewrite lookup_nil in Hi. discriminate.
  - destruct (StringCache_clear sc hp) as [[sc1 hp1]|e] eqn:E; [|discriminate].
    rewrite bind_Ok in H. cbv beta iota in H.
    destruct (clear_bins l hp1) as [[rest hp2]|e] eqn:E2; [|discriminate].
    rewrite bind_Ok in H. cbv beta iota in H. apply Ok_inj, pair_equal_spec in H as [<- <-].
    destruct (StringCache_clear_spec _ _ _ _ E Hb (Hk 0%nat sc eq_refl))
      as (Hf & Hlen & Hm & Ht & Hst & Hen).
    pose proof Hf as (_ & _ & _ & Hw & _). unfold arena_wf in Hw.
    destruct (IH hp1 rest E2 ltac:(lia) (fun i => Hk (S i))) as (Hl & Hmono & Hall & Hord).
    split; [cbn [length]; lia|]. split; [lia|]. split.
    + intros [|i] sc0 Hi; cbn in Hi.
      * injection Hi as <-. exists sc. split; [reflexivity|]. split; [exact Hf|].
        do 3 (split; [assumption|]). lia.
      * destruct (Hall i sc0 Hi) as (sc2 & G1 & G2 & G3 & G4 & G5 & G6 & G7).
        exists sc2. do 5 (split; [assumption|]). lia.
    + intros [|i] [|j] sci scj Hij Hi Hj; cbn in Hi, Hj; [lia| |lia|].
      * injection Hi as <-. destruct (Hall j scj Hj) as (_ & _ & _ & _ & _ & _ & ? & _). lia.
      * apply (Hord i j); [lia|exact Hi|exact Hj].
Qed.

Section FreshWorld.
Context (hasher : list byte -> Z).

Lemma fresh_world_inv bs hp :
  length bs = Z.to_nat NUM_BINS -> HEAP_BASE <= brk hp ->
  (forall i sc, bs !! i = Some sc -> fresh_shard sc /\ table_shape sc /\ end_ (alloc sc) <= brk hp) ->
  arenas_ordered bs -> world_inv hasher (mkWorld bs hp).
Proof.
  intros Hl Hb Hf Ho.
  assert (Har : forall i sc a, bs !! i = Some sc -> a ∈ arenas sc -> a = alloc sc).
  { intros i sc a H Ha. destruct (Hf i sc H) as ((_ & _ & Eo & _) & _).
    unfold arenas in Ha. rewrite Eo in Ha. apply list_elem_of_singleton in Ha. exact Ha. }
  constructor; cbn [bins heap].
  - exact Hl.
  - intros k sc H. destruct (Hf k sc H) as ((Es & En & Eo & Hw & _) & (Hp & Hm1 & Hm2 & Hlen) & _).
    constructor.
    + exact Hp.
    + split; assumption.
    + exact Hlen.
    + intros pos e. rewrite Es, lookup_empty. discriminate.
    + rewrite En, Es, map_size_empty. reflexivity.
    + intros pos e. rewrite Es, lookup_empty. discriminate.
    + intros p q ep eq s. rewrite Es, lookup_empty. discriminate.
    + intros a Ha. rewrite (Har k sc a H Ha). exact Hw.
    + intros b Hb'. rewrite Eo in Hb'. apply elem_of_nil in Hb'. contradiction.
  - intros k sc a H Ha. rewrite (Har k sc a H Ha). apply (Hf k sc H).
  - exact Hb.
  - intros k sc H. destruct (Hf k sc H) as ((_ & En & _) & (_ & Hm1 & _) & _). lia.
  - intros k1 k2 sc1 sc2 a1 a2 Hne H1 H2 Ha1 Ha2.
    rewrite (Har _ _ _ H1 Ha1), (Har _ _ _ H2 Ha2). unfold ranges_disjoint.
    destruct (proj1 (Nat.lt_gt_cases k1 k2) Hne) as [Hlt|Hgt].
    + left. exact (Ho _ _ _ _ Hlt H1 H2).
    + right. exact (Ho _ _ _ _ Hgt H2 H1).
Qed.

Lemma fresh_not_present w s :
  (forall k sc, bins w !! k = Some sc -> fresh_shard sc) -> ~ present hasher w s.
Proof.
  intros Hf (k & sc & pos & e & H & Hs & _).
  destruct (Hf k sc H) as (Es & _). rewrite Es, lookup_empty in Hs. discriminate.
Qed.

Lemma STRING_CACHE_init_spec w0 :
  STRING_CACHE_init = Ok w0 ->
  world_inv hasher w0 /\ forall k sc, bins w0 !! k = Some sc -> fresh_shard sc.
Proof.
  unfold STRING_CACHE_init. intros H.
  destruct (make_bins (Z.to_nat NUM_BINS) (mkHeap ∅ HEAP_BASE)) as [[bs hp]|e] eqn:E;
    [|discriminate].
  rewrite bind_Ok in H. cbv beta iota in H. apply Ok_inj in H as <-.
  destruct (make_bins_spec _ _ _ _ E ltac:(cbn [brk]; lia)) as (Hl & Hmono & Hall & Hord).
  split.
  - apply fresh_world_inv; [exact Hl| cbn [brk] in Hmono; lia | |exact Hord].
    intros i sc Hi. destruct (Hall i sc Hi) as (? & ? & ? & ?). auto.
  - intros k sc Hk. apply (Hall k sc Hk).
Qed.

Lemma _clear_cache_spec w w' :
  world_inv hasher w -> _clear_cache w = Ok w' ->
  world_inv hasher w' /\ length (bins w') = length (bins w) /\
  forall k sc', bins w' !! k = Some sc' -> exists sc, bins w !! k = Some sc /\
    fresh_shard sc' /\ slots_len (entries sc') = slots_len (entries sc) /\
    mask sc' = mask sc /\ total_allocated sc' = 0.
Proof.
  unfold _clear_cache. intros Hw H.
  destruct (clear_bins (bins w) (heap w)) as [[bs hp]|e] eqn:E; [|discriminate].
  rewrite bind_Ok in H. cbv beta iota in H. apply Ok_inj in H as <-.
  destruct (clear_bins_spec _ _ _ _ E (wi_brk_base _ _ Hw)
              (fun i sc Hi pos e Hs => proj1 (si_keys _ _ _ _ (wi_shards _ _ Hw i sc Hi) pos e Hs)))
    as (Hl & Hmono & Hall & Hord).
  split; [|split; [exact Hl|]].
  - apply fresh_world_inv; [rewrite Hl; apply (wi_len _ _ Hw)|pose proof (wi_brk_base _ _ Hw); lia| |exact Hord].
    intros i sc' Hi. destruct (Hall i sc' Hi) as (sc & Hsc & Hf & Hlen & Hm & _ & _ & Hen).
    pose proof (wi_shards _ _ Hw i sc Hsc) as [Hp Hmb Hlen0 _ _ _ _ _ _].
    split; [exact Hf|]. split; [|exact Hen].
    unfold table_shape. rewrite Hlen, Hm. split; [exact Hp|]. split; [lia|]. split; [lia|]. exact Hlen0.
  - intros k sc' Hk. destruct (Hall k sc' Hk) as (sc & Hsc & Hf & Hlen & Hm & Ht & _).
    exists sc. auto.
Qed.

End FreshWorld.

(** ** Runs of operations *)

Section Runs.
Context (hasher : list byte -> Z).

Lemma persists_present w w' t : persists w w' -> present hasher w t -> present hasher w' t.
Proof.
  intros P (k & sc & pos & e & H & Hs & Hok).
  destruct (P _ _ _ _ _ _ H Hs Hok) as (sc' & pos' & H' & Hs' & Hok').
  exists k, sc', pos', e. auto.
Qed.

Lemma exec_op_spec w op w' :
  world_inv hasher w -> exec_op hasher w op = Ok w' ->
  world_inv hasher w' /\ (not_clear op = true -> persists w w') /\
  forall t, present hasher w' t <->
    match op with
    | Intern s => present hasher w t \/ t = s
    | Clear => False
    | _ => present hasher w t
    end.
Proof.
  intros Hw H. destruct op as [s|s| |]; cbn [exec_op not_clear] in H |- *.
  - destruct (Ustr_from hasher w s) as [[u w1]|err] eqn:E; [|discriminate].
    rewrite bind_Ok in H. cbv beta iota in H. apply Ok_inj in H as <-.
    destruct (Ustr_from_spec hasher w s u w1 Hw E)
      as (I1 & P1 & (sc & pos & H1 & Hs1 & Hok1) & _ & Hnew & _).
    split; [exact I1|]. split; [intros _; exact P1|].
    intros t. split; [apply Hnew|].
    intros [Ht|Ht]; [exact (persists_present _ _ _ P1 Ht)|]. subst t.
    exists (Z.to_nat (whichbin (ahash hasher s))), sc, pos, (char_ptr u - SIZE_OF_ENTRY). auto.
  - destruct (Ustr_from_existing hasher w s) as [r|err]; [|discriminate].
    rewrite bind_Ok in H. apply Ok_inj in H as <-.
    split; [exact Hw|]. split; [intros _; apply persists_refl|]. intros t. reflexivity.
  - destruct (string_cache_iter w) as [r|err]; [|discriminate].
    rewrite bind_Ok in H. apply Ok_inj in H as <-.
    split; [exact Hw|]. split; [intros _; apply persists_refl|]. intros t. reflexivity.
  - destruct (_clear_cache_spec hasher w w' Hw H) as (I1 & _ & Hall).
    split; [exact I1|]. split; [discriminate|].
    intros t. split; [|intros []]. intros Hp. apply (fresh_not_present hasher w' t); [|exact Hp].
    intros k sc' Hk. destruct (Hall k sc' Hk) as (sc & _ & Hf & _). exact Hf.
Qed.

Lemma run_spec w ops w' :
  world_inv hasher w -> run hasher w ops = Ok w' ->
  world_inv hasher w' /\ (forallb not_clear ops = true -> persists w w') /\
  forall acc, (forall t, present hasher w t <-> t ∈ acc) ->
    forall t, present hasher w' t <-> t ∈ live_from acc ops.
Proof.
  revert w. induction ops as [|op ops IH]; intros w Hw H; cbn [run] in H.
  - apply Ok_inj in H as <-. split; [exact Hw|]. split; [intros _; apply persists_refl|].
    intros acc Hacc. exact Hacc.
  - destruct (exec_op hasher w op) as [w1|err] eqn:E; [|discriminate].
    rewrite bind_Ok in H. cbv beta in H.
    destruct (exec_op_spec w op w1 Hw E) as (I1 & P1 & Pr1).
    destruct (IH w1 I1 H) as (I2 & P2 & Pr2).
    split; [exact I2|]. split.
    + cbn [forallb]. intros Hf. apply andb_prop in Hf as [Hf1 Hf2].
      exact (persists_trans _ _ _ (P1 Hf1) (P2 Hf2)).
    + intros acc Hacc. destruct op as [s|s| |]; cbv beta iota in Pr1; cbn [live_from].
      * apply Pr2. intros t. rewrite Pr1, Hacc, elem_of_cons. tauto.
      * apply Pr2. intros t. rewrite Pr1. apply Hacc.
      * apply Pr2. intros t. rewrite Pr1. apply Hacc.
      * apply Pr2. intros t. rewrite Pr1, elem_of_nil. tauto.
Qed.

Lemma Reachable_live w0 ops w :
  STRING_CACHE_init = Ok w0 -> run hasher w0 ops = Ok w ->
  world_inv hasher w /\ forall t, present hasher w t <-> t ∈ live_from [] ops.
Proof.
  intros Hi Hr. destruct (STRING_CACHE_init_spec hasher w0 Hi) as [I0 F0].
  destruct (run_spec w0 ops w I0 Hr) as (I & _ & Pr). split; [exact I|].
  apply Pr. intros t. split.
  - intros Hp. exfalso. exact (fresh_not_present hasher w0 t F0 Hp).
  - intros Ht. apply elem_of_nil in Ht. contradiction.
Qed.

Lemma Reachable_inv w : Reachable hasher w -> world_inv hasher w.
Proof. intros (w0 & ops & Hi & Hr). exact (proj1 (Reachable_live w0 ops w Hi Hr)). Qed.

End Runs.

(** The accessors of a handle whose header is a well-formed entry. *)
Lemma entry_accessors m u h s :
  entry_ok m (char_ptr u - SIZE_OF_ENTRY) h s ->
  Ustr_as_str m u = Ok s /\ Ustr_len m u = Ok (strlen s) /\
  Ustr_precomputed_hash m u = Ok h /\ Ustr_byte_at m u (strlen s) = Ok x00.
Proof.
  intros (H1 & H2 & H3 & H4). unfold SIZE_OF_ENTRY in *.
  unfold Ustr_as_str, Ustr_len, Ustr_precomputed_hash, Ustr_byte_at.
  replace (char_ptr u - 16 + 16) with (char_ptr u) in H3, H4 by lia.
  replace (char_ptr u - 8 - 8) with (char_ptr u - 16) by lia.
  split; [|split; [exact H2|split; [exact H1|rewrite H4; reflexivity]]].
  replace (char_ptr u - 8) with (char_ptr u - 16 + 8) by lia.
  rewrite H2, bind_Ok. cbv beta. unfold strlen. rewrite Nat2Z.id. exact H3.
Qed.

Lemma total_allocated_zero (l : list StringCache) :
  (forall k sc, l !! k = Some sc -> StringCache_total_allocated sc = 0) ->
  fold_right Z.add 0 (map StringCache_total_allocated l) = 0.
Proof.
  induction l as [|sc l IH]; intros H; [reflexivity|]. cbn [map fold_right].
  rewrite (H 0%nat sc eq_refl), IH; [reflexivity|]. intros k sc' Hk. exact (H (S k) sc' Hk).
Qed.

Lemma StringCache_grow_mask sc m sc' :
  StringCache_grow sc m = Ok sc' -> mask sc' = 2 * mask sc + 1 /\ num_entries sc' = num_entries sc.
Proof.
  unfold StringCache_grow. cbv zeta. intros H.
  destruct (vec_null (mask sc * 2 + 1 + 1)) as [ne|err]; [|discriminate].
  rewrite bind_Ok in H. cbv beta in H.
  destruct (grow_copy m (mask sc * 2 + 1) (entries sc) (seqZ 0 (slots_len (entries sc))) ne
              (num_entries sc)) as [ne'|err]; [|discriminate].
  rewrite bind_Ok in H. apply Ok_inj in H as <-. cbn [mask num_entries]. lia.
Qed.

Lemma fresh_bin_allocs sc : fresh_shard sc -> bin_allocs sc = [].
Proof.
  intros (_ & _ & Eo & _ & _ & Ep). unfold bin_allocs. rewrite Eo, Ep, Z.eqb_refl. reflexivity.
Qed.


(** ** Facts of the concrete runs *)

Lemma init_world_ok : STRING_CACHE_init = Ok init_world.
Proof. vm_compute. reflexivity. Defined.

Lemma init_world_reachable : Reachable demo_hasher init_world.
Proof. exists init_world, []. split; [exact init_world_ok|reflexivity]. Defined.

Lemma demo_w1_ok : Ustr_from demo_hasher init_world str_ab = Ok (demo_ua, demo_w1).
Proof. vm_compute. reflexivity. Defined.

Lemma demo_w1_reachable : Reachable demo_hasher demo_w1.
Proof. exists init_world, [Intern str_ab]. split; [exact init_world_ok|vm_compute; reflexivity]. Defined.

Lemma demo_w2_ok : run demo_hasher demo_w1 demo_ops = Ok demo_w2.
Proof. vm_compute. reflexivity. Defined.

Lemma demo_w3_ok : Ustr_from demo_hasher demo_w2 str_ab = Ok (demo_ub, demo_w3).
Proof. vm_compute. reflexivity. Defined.

(** * The claims *)

(** C1: pointer equality of interned handles is byte equality.  A string
    [a] interned in a reachable cache and a string [b] interned after any
    further operations other than the test-only clear get the same
    character pointer exactly when [a = b]. *)
Theorem C1_ptr_eq_iff_bytes_eq hasher w a ua w1 ops w2 b ub w3 :
  Reachable hasher w -> Ustr_from hasher w a = Ok (ua, w1) ->
  run hasher w1 ops = Ok w2 -> forallb not_clear ops = true ->
  Ustr_from hasher w2 b = Ok (ub, w3) ->
  (char_ptr ua = char_ptr ub <-> a = b).
Proof.
  intros Hr Ha Hrun Hnc Hb. pose proof (Reachable_inv hasher w Hr) as Hw.
  destruct (Ustr_from_spec hasher w a ua w1 Hw Ha)
    as (I1 & _ & (sca & pa & Hka & Hsa & Hoka) & _).
  destruct (run_spec hasher w1 ops w2 I1 Hrun) as (I2 & P12 & _).
  destruct (P12 Hnc _ _ _ _ _ _ Hka Hsa Hoka) as (sca2 & pa2 & Hka2 & Hsa2 & Hoka2).
  destruct (Ustr_from_spec hasher w2 b ub w3 I2 Hb)
    as (I3 & P23 & (scb & pb & Hkb & Hsb & Hokb) & _).
  destruct (P23 _ _ _ _ _ _ Hka2 Hsa2 Hoka2) as (sca3 & pa3 & Hka3 & Hsa3 & Hoka3).
  split.
  - intros Hp. rewrite Hp in Hoka3.
    destruct (entry_ok_inj _ _ _ _ _ _ Hoka3 Hokb) as [_ E]. exact E.
  - intros <-.
    destruct (world_canonical hasher w3 a _ _ _ _ _ _ _ _ I3 Hka3 Hkb Hsa3 Hsb Hoka3 Hokb)
      as (_ & _ & E). lia.
Qed.

Lemma C1_witness :
  Reachable demo_hasher init_world /\
  Ustr_from demo_hasher init_world str_ab = Ok (demo_ua, demo_w1) /\
  run demo_hasher demo_w1 demo_ops = Ok demo_w2 /\ forallb not_clear demo_ops = true /\
  Ustr_from demo_hasher demo_w2 str_ab = Ok (demo_ub, demo_w3) /\
  (char_ptr demo_ua = char_ptr demo_ub <-> str_ab = str_ab).
Proof.
  split; [exact init_world_reachable|]. split; [exact demo_w1_ok|].
  split; [exact demo_w2_ok|]. split; [reflexivity|]. split; [exact demo_w3_ok|].
  exact (C1_ptr_eq_iff_bytes_eq demo_hasher init_world str_ab demo_ua demo_w1 demo_ops demo_w2
           str_ab demo_ub demo_w3 init_world_reachable demo_w1_ok demo_w2_ok eq_refl demo_w3_ok).
Defined.

(** C2: the handle returned by interning [s] reads back [s], its length
    is [|s|], and the byte at offset [|s|] from the character pointer is
    the NUL terminator. *)
Theorem C2_content_fidelity hasher w s u w' :
  Reachable hasher w -> Ustr_from hasher w s = Ok (u, w') ->
  Ustr_as_str (mem (heap w')) u = Ok s /\ Ustr_len (mem (heap w')) u = Ok (strlen s) /\
  Ustr_byte_at (mem (heap w')) u (strlen s) = Ok x00.
Proof.
  intros Hr H. pose proof (Reachable_inv hasher w Hr) as Hw.
  destruct (Ustr_from_spec hasher w s u w' Hw H) as (_ & _ & (sc & pos & _ & _ & Hok) & _).
  destruct (entry_accessors _ _ _ _ Hok) as (A1 & A2 & _ & A4). auto.
Qed.

Lemma C2_witness :
  Reachable demo_hasher init_world /\
  Ustr_from demo_hasher init_world str_ab = Ok (demo_ua, demo_w1) /\
  Ustr_as_str (mem (heap demo_w1)) demo_ua = Ok str_ab /\
  Ustr_len (mem (heap demo_w1)) demo_ua = Ok (strlen str_ab) /\
  Ustr_byte_at (mem (heap demo_w1)) demo_ua (strlen str_ab) = Ok x00.
Proof.
  split; [exact init_world_reachable|]. split; [exact demo_w1_ok|].
  exact (C2_content_fidelity demo_hasher init_world str_ab demo_ua demo_w1
           init_world_reachable demo_w1_ok).
Defined.

(** C3: a handle keeps its string, length and precomputed hash across
    every later run of interning, lookups and iteration (growth of a
    shard included) that does not clear the cache. *)
Theorem C3_handle_stability hasher w s u w1 ops w2 :
  Reachable hasher w -> Ustr_from hasher w s = Ok (u, w1) ->
  run hasher w1 ops = Ok w2 -> forallb not_clear ops = true ->
  Ustr_as_str (mem (heap w2)) u = Ustr_as_str (mem (heap w1)) u /\
  Ustr_len (mem (heap w2)) u = Ustr_len (mem (heap w1)) u /\
  Ustr_precomputed_hash (mem (heap w2)) u = Ustr_precomputed_hash (mem (heap w1)) u /\
  Ustr_as_str (mem (heap w1)) u = Ok s /\ Ustr_len (mem (heap w1)) u = Ok (strlen s) /\
  Ustr_precomputed_hash (mem (heap w1)) u = Ok (ahash hasher s).
Proof.
  intros Hr H Hrun Hnc. pose proof (Reachable_inv hasher w Hr) as Hw.
  destruct (Ustr_from_spec hasher w s u w1 Hw H) as (I1 & _ & (sc & pos & Hk & Hs & Hok) & _).
  destruct (run_spec hasher w1 ops w2 I1 Hrun) as (_ & P12 & _).
  destruct (P12 Hnc _ _ _ _ _ _ Hk Hs Hok) as (sc2 & pos2 & _ & _ & Hok2).
  destruct (entry_accessors _ _ _ _ Hok) as (A1 & A2 & A3 & _).
  destruct (entry_accessors _ _ _ _ Hok2) as (B1 & B2 & B3 & _).
  rewrite A1, A2, A3, B1, B2, B3. repeat split.
Qed.

Lemma C3_witness :
  Reachable demo_hasher init_world /\
  Ustr_from demo_hasher init_world str_ab = Ok (demo_ua, demo_w1) /\
  run demo_hasher demo_w1 demo_ops = Ok demo_w2 /\ forallb not_clear demo_ops = true /\
  Ustr_as_str (mem (heap demo_w2)) demo_ua = Ustr_as_str (mem (heap demo_w1)) demo_ua /\
  Ustr_len (mem (heap demo_w2)) demo_ua = Ustr_len (mem (heap demo_w1)) demo_ua /\
  Ustr_precomputed_hash (mem (heap demo_w2)) demo_ua =
    Ustr_precomputed_hash (mem (heap demo_w1)) demo_ua /\
  Ustr_as_str (mem (heap demo_w1)) demo_ua = Ok str_ab /\
  Ustr_len (mem (heap demo_w1)) demo_ua = Ok (strlen str_ab) /\
  Ustr_precomputed_hash (mem (heap demo_w1)) demo_ua = Ok (ahash demo_hasher str_ab).
Proof.
  split; [exact init_world_reachable|]. split; [exact demo_w1_ok|].
  split; [exact demo_w2_ok|]. split; [reflexivity|].
  exact (C3_handle_stability demo_hasher init_world str_ab demo_ua demo_w1 demo_ops demo_w2
           init_world_reachable demo_w1_ok demo_w2_ok eq_refl).
Defined.

(** C4: in any state reached from the initial cache, [Ustr::from_existing s]
    leaves the state as it is; it returns [Some u] when [s] was interned
    since the start (or the last clear), [u] being the handle interning [s]
    returns (interning it again changes nothing), and [None] otherwise. *)
Theorem C4_from_existing hasher w0 ops w s :
  STRING_CACHE_init = Ok w0 -> run hasher w0 ops = Ok w ->
  exec_op hasher w (Existing s) = Ok w /\
  (s ∈ live_from [] ops ->
     exists u, Ustr_from_existing hasher w s = Ok (Some u) /\ Ustr_from hasher w s = Ok (u, w)) /\
  (s ∉ live_from [] ops -> Ustr_from_existing hasher w s = Ok None).
Proof.
  intros Hi Hr. destruct (Reachable_live hasher w0 ops w Hi Hr) as [Hw Hlive].
  destruct (Ustr_from_existing_spec hasher w s Hw)
    as [(sc & pos & e & Hk & Hs & Hok & R1 & R2)|(Hnp & R)].
  - assert (Hp : present hasher w s) by (exists (Z.to_nat (whichbin (ahash hasher s))), sc, pos, e; auto).
    split; [cbn [exec_op]; rewrite R1, bind_Ok; reflexivity|]. split.
    + intros _. exists (mkUstr (e + SIZE_OF_ENTRY)). auto.
    + intros Hn. exfalso. apply Hn, Hlive, Hp.
  - split; [cbn [exec_op]; rewrite R, bind_Ok; reflexivity|]. split.
    + intros Hin. exfalso. apply Hnp, Hlive, Hin.
    + intros _. exact R.
Qed.

Lemma C4_witness :
  STRING_CACHE_init = Ok init_world /\
  run demo_hasher init_world (Intern str_ab :: demo_ops) = Ok demo_w2 /\
  exec_op demo_hasher demo_w2 (Existing str_ab) = Ok demo_w2 /\
  (str_ab ∈ live_from [] (Intern str_ab :: demo_ops) ->
     exists u, Ustr_from_existing demo_hasher demo_w2 str_ab = Ok (Some u) /\
       Ustr_from demo_hasher demo_w2 str_ab = Ok (u, demo_w2)) /\
  (str_ab ∉ live_from [] (Intern str_ab :: demo_ops) ->
     Ustr_from_existing demo_hasher demo_w2 str_ab = Ok None).
Proof.
  assert (Hr : run demo_hasher init_world (Intern str_ab :: demo_ops) = Ok demo_w2)
    by (vm_compute; reflexivity).
  split; [exact init_world_ok|]. split; [exact Hr|].
  exact (C4_from_existing demo_hasher init_world (Intern str_ab :: demo_ops) demo_w2 str_ab
           init_world_ok Hr).
Defined.

(** C5: with nothing interned, every bin's arena is unused and
    [string_cache_iter] panics indexing [allocs[0]] instead of yielding
    the empty set of strings; this holds in the initial cache. *)
Theorem C5_iter_panics_on_empty_cache w :
  (forall k sc, bins w !! k = Some sc -> fresh_shard sc) ->
  string_cache_iter w = Err (EPanic "index out of bounds").
Proof.
  intros Hf. unfold string_cache_iter.
  assert (Hc : concat (map bin_allocs (bins w)) = []).
  { induction (bins w) as [|sc l IH]; [reflexivity|].
    cbn [map concat]. rewrite (fresh_bin_allocs sc (Hf 0%nat sc eq_refl)).
    apply IH. intros k sc' Hk. exact (Hf (S k) sc' Hk). }
  rewrite Hc. reflexivity.
Qed.

Lemma C5_witness :
  (forall k sc, bins init_world !! k = Some sc -> fresh_shard sc) /\
  string_cache_iter init_world = Err (EPanic "index out of bounds").
Proof.
  pose proof (proj2 (STRING_CACHE_init_spec demo_hasher init_world init_world_ok)) as Hf.
  split; [exact Hf|]. exact (C5_iter_panics_on_empty_cache init_world Hf).
Defined.

(** C6: after every completed intern, every shard has
    [num_entries * 2 <= mask] (so [num_entries * 2 <= mask + 1], a load
    factor of at most 0.5); the shard of the string either is unchanged
    (the string was there) or counts one more entry, and its mask becomes
    [2 * mask + 1] exactly when the new count times two exceeds the old
    mask; [grow] sets the mask to [2 * mask + 1]. *)
Theorem C6_load_factor hasher w s u w' :
  Reachable hasher w -> Ustr_from hasher w s = Ok (u, w') ->
  (forall k sc, bins w' !! k = Some sc -> num_entries sc * 2 <= mask sc) /\
  (exists sc sc', bins w !! Z.to_nat (whichbin (ahash hasher s)) = Some sc /\
     bins w' !! Z.to_nat (whichbin (ahash hasher s)) = Some sc' /\
     (sc' = sc \/ (num_entries sc' = num_entries sc + 1 /\
        mask sc' = (if mask sc <? num_entries sc' * 2 then 2 * mask sc + 1 else mask sc)))) /\
  (forall sc m sc', StringCache_grow sc m = Ok sc' -> mask sc' = 2 * mask sc + 1).
Proof.
  intros Hr H. pose proof (Reachable_inv hasher w Hr) as Hw.
  destruct (Ustr_from_spec hasher w s u w' Hw H) as (I1 & _ & _ & _ & _ & (sc & sc' & H1 & H2 & Hc)).
  split; [exact (wi_load _ _ I1)|]. split.
  - exists sc, sc'. split; [exact H1|]. split; [exact H2|].
    destruct Hc as [Hc|(Hn & Hm)]; [left; exact Hc|]. right. rewrite Hn. auto.
  - intros sc0 m sc0' Hg. exact (proj1 (StringCache_grow_mask sc0 m sc0' Hg)).
Qed.

Lemma C6_witness :
  Reachable demo_hasher init_world /\
  Ustr_from demo_hasher init_world str_ab = Ok (demo_ua, demo_w1) /\
  (forall k sc, bins demo_w1 !! k = Some sc -> num_entries sc * 2 <= mask sc) /\
  (exists sc sc', bins init_world !! Z.to_nat (whichbin (ahash demo_hasher str_ab)) = Some sc /\
     bins demo_w1 !! Z.to_nat (whichbin (ahash demo_hasher str_ab)) = Some sc' /\
     (sc' = sc \/ (num_entries sc' = num_entries sc + 1 /\
        mask sc' = (if mask sc <? num_entries sc' * 2 then 2 * mask sc + 1 else mask sc)))) /\
  (forall sc m sc', StringCache_grow sc m = Ok sc' -> mask sc' = 2 * mask sc + 1).
Proof.
  split; [exact init_world_reachable|]. split; [exact demo_w1_ok|].
  exact (C6_load_factor demo_hasher init_world str_ab demo_ua demo_w1
           init_world_reachable demo_w1_ok).
Defined.

(** C7: on a table of [2 ^ n] slots, the triangular probe sequence
    starts at [h mod 2 ^ n], steps by [i] at step [i] (offsets
    [0, 1, 3, 6, 10, ...]), and meets every slot exactly once within the
    first [2 ^ n] steps; hence the probe loop of [get_existing] and
    [insert] does not run past one pass whenever a slot is null. *)
Theorem C7_triangular_probing msk n h :
  msk + 1 = 2 ^ Z.of_nat n ->
  probe_pos msk h 0 = h mod (msk + 1) /\
  (forall i, probe_pos msk h (S i) = (probe_pos msk h i + Z.of_nat (S i)) mod (msk + 1)) /\
  (forall i, probe_pos msk h i = (h + tri i) mod (msk + 1)) /\
  (forall i j, (i < Z.to_nat (msk + 1))%nat -> (j < Z.to_nat (msk + 1))%nat ->
     probe_pos msk h i = probe_pos msk h j -> i = j) /\
  (forall q, 0 <= q < msk + 1 ->
     exists i, (i < Z.to_nat (msk + 1))%nat /\ probe_pos msk h i = q) /\
  (forall sc m s, mask sc = msk -> slots_len (entries sc) = msk + 1 ->
     (exists q, 0 <= q < msk + 1 /\ slots (entries sc) !! q = None) ->
     StringCache_probe sc m s h <> Err EFuel /\ StringCache_get_existing sc m s h <> Err EFuel).
Proof.
  intros Hm. pose proof (table_size_nat msk n Hm) as HN.
  split; [|split; [|split; [|split; [|split]]]].
  - cbn [probe_pos]. rewrite Z.land_comm, (land_mask_mod msk h n Hm), Hm. reflexivity.
  - intros i. cbn [probe_pos]. rewrite (land_mask_mod msk _ n Hm), Hm. reflexivity.
  - intros i. rewrite (probe_pos_closed msk h n i Hm), Hm. reflexivity.
  - intros i j Hi Hj. rewrite HN in Hi, Hj. exact (probe_pos_inj msk h n i j Hm Hi Hj).
  - intros q Hq. exact (probe_pos_surj msk h n q Hm Hq).
  - intros sc m s <- Hl Hex.
    assert (P : StringCache_probe sc m s h <> Err EFuel)
      by exact (probe_loop_terminates (mask sc) n (entries sc) m Hm Hl s h Hex).
    split; [exact P|]. unfold StringCache_get_existing.
    destruct (StringCache_probe sc m s h) as [r|e].
    + rewrite bind_Ok. destruct r; discriminate.
    + rewrite bind_Err. intros [= E]. apply P. rewrite E. reflexivity.
Qed.

Lemma C7_witness :
  15 + 1 = 2 ^ Z.of_nat 4 /\
  probe_pos 15 37 0 = 37 mod (15 + 1) /\
  (forall i, probe_pos 15 37 (S i) = (probe_pos 15 37 i + Z.of_nat (S i)) mod (15 + 1)) /\
  (forall i, probe_pos 15 37 i = (37 + tri i) mod (15 + 1)) /\
  (forall i j, (i < Z.to_nat (15 + 1))%nat -> (j < Z.to_nat (15 + 1))%nat ->
     probe_pos 15 37 i = probe_pos 15 37 j -> i = j) /\
  (forall q, 0 <= q < 15 + 1 ->
     exists i, (i < Z.to_nat (15 + 1))%nat /\ probe_pos 15 37 i = q) /\
  (forall sc m s, mask sc = 15 -> slots_len (entries sc) = 15 + 1 ->
     (exists q, 0 <= q < 15 + 1 /\ slots (entries sc) !! q = None) ->
     StringCache_probe sc m s 37 <> Err EFuel /\ StringCache_get_existing sc m s 37 <> Err EFuel).
Proof.
  split; [reflexivity|]. exact (C7_triangular_probing 15 4 37 eq_refl).
Defined.

(** C8: when [insert] has checked the room of the current arena of a
    shard (keeping it, or retiring it for a fresh one), the bump
    allocation of a positive size succeeds: neither the overflow panic of
    [checked_sub] nor the abort below the arena start is reached, and the
    entry lies, aligned, inside the arena. *)
Theorem C8_allocate_in_arena hasher w k sc n sc1 hp1 :
  Reachable hasher w -> bins w !! k = Some sc -> 0 < n ->
  StringCache_reserve sc (heap w) n = Ok (sc1, hp1) ->
  exists e, LeakyBumpAlloc_allocate (alloc sc1) n =
              Ok (e, mkAlloc (layout (alloc sc1)) (start (alloc sc1)) (end_ (alloc sc1)) e) /\
    start (alloc sc1) <= e /\ e + n <= ptr (alloc sc1) /\ e mod ALIGN_OF_ENTRY = 0.
Proof.
  intros Hr Hk Hn Hres. pose proof (Reachable_inv hasher w Hr) as Hw.
  pose proof (wi_shards _ _ Hw k sc Hk) as HI.
  assert (Wa : arena_wf (alloc sc))
    by (apply (si_arenas _ _ _ _ HI); apply elem_of_cons; left; reflexivity).
  destruct (StringCache_reserve_spec sc (heap w) n sc1 hp1 Hres Hn (wi_brk_base _ _ Hw))
    as [(-> & _ & Hfit)|(_ & _ & _ & _ & _ & _ & Hp & _ & Wa1 & Hcap)].
  - exact (LeakyBumpAlloc_allocate_spec (alloc sc) n Wa Hn Hfit).
  - apply (LeakyBumpAlloc_allocate_spec (alloc sc1) n Wa1 Hn).
    unfold LeakyBumpAlloc_allocated. lia.
Qed.

Lemma C8_witness :
  Reachable demo_hasher init_world /\ bins init_world !! 0%nat = Some demo_bin0 /\ 0 < 20 /\
  StringCache_reserve demo_bin0 (heap init_world) 20 =
    Ok (fst demo_reserved, snd demo_reserved) /\
  exists e, LeakyBumpAlloc_allocate (alloc (fst demo_reserved)) 20 =
              Ok (e, mkAlloc (layout (alloc (fst demo_reserved))) (start (alloc (fst demo_reserved)))
                             (end_ (alloc (fst demo_reserved))) e) /\
    start (alloc (fst demo_reserved)) <= e /\ e + 20 <= ptr (alloc (fst demo_reserved)) /\
    e mod ALIGN_OF_ENTRY = 0.
Proof.
  assert (Hb : bins init_world !! 0%nat = Some demo_bin0) by (vm_compute; reflexivity).
  assert (Hres : StringCache_reserve demo_bin0 (heap init_world) 20 =
                 Ok (fst demo_reserved, snd demo_reserved)) by (vm_compute; reflexivity).
  split; [exact init_world_reachable|]. split; [exact Hb|]. split; [lia|]. split; [exact Hres|].
  exact (C8_allocate_in_arena demo_hasher init_world 0%nat demo_bin0 20
           (fst demo_reserved) (snd demo_reserved) init_world_reachable Hb ltac:(lia) Hres).
Defined.

(** C9: every entry of a reachable cache sits in the bin
    [(hash >> TOP_SHIFT) mod NUM_BINS] of its stored hash, where
    [TOP_SHIFT = 64 - BIN_SHIFT] and the hash is the one of its string;
    [whichbin] is [(hash >> TOP_SHIFT) & (NUM_BINS - 1)]; and no string
    is held by two bins. *)
Theorem C9_routing hasher w :
  Reachable hasher w ->
  TOP_SHIFT = 64 - BIN_SHIFT /\
  (forall k sc pos e h s, bins w !! k = Some sc -> slots (entries sc) !! pos = Some e ->
     entry_ok (mem (heap w)) e h s ->
     h = ahash hasher s /\ Z.of_nat k = Z.shiftr h TOP_SHIFT mod NUM_BINS) /\
  (forall h, whichbin h = Z.shiftr h TOP_SHIFT mod NUM_BINS /\
             whichbin h = Z.land (Z.shiftr h TOP_SHIFT) (NUM_BINS - 1)) /\
  (forall s k1 k2 sc1 sc2 p1 p2 e1 e2, bins w !! k1 = Some sc1 -> bins w !! k2 = Some sc2 ->
     slots (entries sc1) !! p1 = Some e1 -> slots (entries sc2) !! p2 = Some e2 ->
     entry_ok (mem (heap w)) e1 (ahash hasher s) s ->
     entry_ok (mem (heap w)) e2 (ahash hasher s) s -> k1 = k2).
Proof.
  intros Hr. pose proof (Reachable_inv hasher w Hr) as Hw.
  split; [reflexivity|]. split; [|split].
  - intros k sc pos e h s Hk Hs Hok.
    destruct (shard_entry_string hasher _ _ _ _ _ _ _ (wi_shards _ _ Hw _ _ Hk) Hs Hok)
      as (Eh & Ek & _). split; [exact Eh|]. rewrite <- Ek. reflexivity.
  - intros h. split; [reflexivity|]. unfold whichbin.
    rewrite (land_mask_mod (NUM_BINS - 1) (Z.shiftr h TOP_SHIFT) 6 eq_refl). reflexivity.
  - intros s k1 k2 sc1 sc2 p1 p2 e1 e2 H1 H2 Hs1 Hs2 Hok1 Hok2.
    exact (proj1 (world_canonical hasher w s _ _ _ _ _ _ _ _ Hw H1 H2 Hs1 Hs2 Hok1 Hok2)).
Qed.

Lemma C9_witness :
  Reachable demo_hasher demo_w1 /\
  TOP_SHIFT = 64 - BIN_SHIFT /\
  (forall k sc pos e h s, bins demo_w1 !! k = Some sc -> slots (entries sc) !! pos = Some e ->
     entry_ok (mem (heap demo_w1)) e h s ->
     h = ahash demo_hasher s /\ Z.of_nat k = Z.shiftr h TOP_SHIFT mod NUM_BINS) /\
  (forall h, whichbin h = Z.shiftr h TOP_SHIFT mod NUM_BINS /\
             whichbin h = Z.land (Z.shiftr h TOP_SHIFT) (NUM_BINS - 1)) /\
  (forall s k1 k2 sc1 sc2 p1 p2 e1 e2, bins demo_w1 !! k1 = Some sc1 ->
     bins demo_w1 !! k2 = Some sc2 ->
     slots (entries sc1) !! p1 = Some e1 -> slots (entries sc2) !! p2 = Some e2 ->
     entry_ok (mem (heap demo_w1)) e1 (ahash demo_hasher s) s ->
     entry_ok (mem (heap demo_w1)) e2 (ahash demo_hasher s) s -> k1 = k2).
Proof.
  split; [exact demo_w1_reachable|]. exact (C9_routing demo_hasher demo_w1 demo_w1_reachable).
Defined.

(** C10: the test-only clear keeps, in every bin, the length and the mask
    of the slot table (grown or not), sets the entry count to 0, releases
    the retired arenas and installs an unused arena of
    [INITIAL_ALLOC / NUM_BINS] bytes; afterwards [total_allocated()] is 0
    and no string is found by [Ustr::from_existing]. *)
Theorem C10_clear_cache hasher w w' :
  Reachable hasher w -> _clear_cache w = Ok w' ->
  length (bins w') = length (bins w) /\
  (forall k sc', bins w' !! k = Some sc' -> exists sc, bins w !! k = Some sc /\
     slots_len (entries sc') = slots_len (entries sc) /\ mask sc' = mask sc /\
     num_entries sc' = 0 /\ old_allocs sc' = [] /\
     LeakyBumpAlloc_capacity (alloc sc') = INITIAL_ALLOC / NUM_BINS /\
     LeakyBumpAlloc_allocated (alloc sc') = 0) /\
  INITIAL_ALLOC / NUM_BINS = 65536 /\
  Lib.total_allocated w' = 0 /\
  (forall s, Ustr_from_existing hasher w' s = Ok None).
Proof.
  intros Hr H. pose proof (Reachable_inv hasher w Hr) as Hw.
  destruct (_clear_cache_spec hasher w w' Hw H) as (I' & Hl & Hall).
  split; [exact Hl|]. split; [|split; [reflexivity|split]].
  - intros k sc' Hk. destruct (Hall k sc' Hk) as (sc & Hsc & (Es & En & Eo & _ & Ec & Ep) & Hlen & Hm & _).
    exists sc. unfold LeakyBumpAlloc_capacity, LeakyBumpAlloc_allocated.
    split; [exact Hsc|]. split; [exact Hlen|]. split; [exact Hm|]. split; [exact En|].
    split; [exact Eo|]. split; [exact Ec|]. lia.
  - unfold Lib.total_allocated. apply total_allocated_zero.
    intros k sc' Hk. destruct (Hall k sc' Hk) as (sc & _ & (_ & _ & Eo & _ & _ & Ep) & _).
    unfold StringCache_total_allocated, LeakyBumpAlloc_allocated. rewrite Eo, Ep. cbn. lia.
  - intros s. destruct (Ustr_from_existing_spec hasher w' s I')
      as [(sc' & pos & e & Hk & Hs & _)|(_ & R)]; [|exact R].
    exfalso. destruct (Hall _ sc' Hk) as (sc & _ & (Es & _) & _).
    rewrite Es, lookup_empty in Hs. discriminate.
Qed.

Lemma C10_witness :
  Reachable demo_hasher demo_w1 /\ _clear_cache demo_w1 = Ok demo_cleared /\
  length (bins demo_cleared) = length (bins demo_w1) /\
  (forall k sc', bins demo_cleared !! k = Some sc' -> exists sc, bins demo_w1 !! k = Some sc /\
     slots_len (entries sc') = slots_len (entries sc) /\ mask sc' = mask sc /\
     num_entries sc' = 0 /\ old_allocs sc' = [] /\
     LeakyBumpAlloc_capacity (alloc sc') = INITIAL_ALLOC / NUM_BINS /\
     LeakyBumpAlloc_allocated (alloc sc') = 0) /\
  INITIAL_ALLOC / NUM_BINS = 65536 /\
  Lib.total_allocated demo_cleared = 0 /\
  (forall s, Ustr_from_existing demo_hasher demo_cleared s = Ok None).
Proof.
  assert (Hc : _clear_cache demo_w1 = Ok demo_cleared) by (vm_compute; reflexivity).
  split; [exact demo_w1_reachable|]. split; [exact Hc|].
  exact (C10_clear_cache demo_hasher demo_w1 demo_cleared demo_w1_reachable Hc).
Defined.

(** * Further properties of the code *)

Lemma sum_insert {A} (f : A -> Z) (l : list A) i x y :
  l !! i = Some y ->
  fold_right Z.add 0 (map f (<[i := x]> l)) = fold_right Z.add 0 (map f l) - f y + f x.
Proof.
  revert i. induction l as [|z l IH]; intros [|i] H; simpl in H |- *; try discriminate.
  - injection H as ->. lia.
  - rewrite (IH i H). lia.
Qed.

Lemma sum_le {A} (f g : A -> Z) (l : list A) :
  (forall a, a ∈ l -> f a <= g a) ->
  fold_right Z.add 0 (map f l) <= fold_right Z.add 0 (map g l).
Proof.
  induction l as [|z l IH]; intros H; simpl; [lia|].
  pose proof (H z ltac:(apply elem_of_cons; left; reflexivity)).
  assert (fold_right Z.add 0 (map f l) <= fold_right Z.add 0 (map g l)).
  { apply IH. intros a Ha. apply H. apply elem_of_cons. auto. }
  lia.
Qed.

Lemma sum_const {A} (f : A -> Z) (l : list A) c :
  (forall a, a ∈ l -> f a = c) -> fold_right Z.add 0 (map f l) = c * Z.of_nat (length l).
Proof.
  induction l as [|z l IH]; intros H; simpl; [lia|].
  rewrite (H z ltac:(apply elem_of_cons; left; reflexivity)), IH; [lia|].
  intros a Ha. apply H. apply elem_of_cons. auto.
Qed.

Section Cases.
Context (hasher : list byte -> Z).

(** [Ustr::from] either finds the string, leaving the cache as it is, or
    inserts it into its bin with one more entry. *)
Lemma Ustr_from_cases w s u w' :
  world_inv hasher w -> Ustr_from hasher w s = Ok (u, w') ->
  exists sc p sc' hp', bins w !! Z.to_nat (whichbin (ahash hasher s)) = Some sc /\
    StringCache_insert sc (heap w) s (ahash hasher s) = Ok (p, sc', hp') /\
    w' = mkWorld (<[Z.to_nat (whichbin (ahash hasher s)) := sc']> (bins w)) hp' /\
    u = mkUstr p /\
    ((present hasher w s /\ w' = w) \/
     (~ present hasher w s /\ num_entries sc' = num_entries sc + 1 /\
      exists pos, StringCache_probe sc (mem (heap w)) s (ahash hasher s) = Ok (Vacant pos))).
Proof.
  intros Hw H. set (hq := ahash hasher s) in H |- *. unfold Ustr_from in H. fold hq in H.
  destruct (bin w (whichbin hq)) as [sc|] eqn:Eb; [|discriminate].
  rewrite bind_Ok in H. cbv beta in H.
  apply bin_lookup in Eb as [_ Hkn].
  set (kn := Z.to_nat (whichbin hq)) in Hkn, H |- *.
  assert (Hkz : Z.of_nat kn = whichbin hq) by (unfold kn; pose proof (whichbin_range hq); lia).
  destruct (StringCache_insert sc (heap w) s hq) as [[[p sc'] hp']|err] eqn:Ei;
    [|discriminate].
  rewrite bind_Ok in H. cbv beta iota in H.
  apply Ok_inj, pair_equal_spec in H as [<- <-].
  exists sc, p, sc', hp'. split; [exact Hkn|]. split; [exact Ei|]. split; [reflexivity|].
  split; [reflexivity|].
  pose proof (wi_shards _ _ Hw kn sc Hkn) as HI. rewrite Hkz in HI.
  destruct (StringCache_probe_spec hasher (mem (heap w)) _ sc s HI (wi_load _ _ Hw kn sc Hkn))
    as [(pos & e & Hs & Hok & R)|(j & Hj & R & Hs & Hbef & Habs)]; fold hq in R.
  - left. split; [exists kn, sc, pos, e; auto|].
    unfold StringCache_insert in Ei. rewrite R, bind_Ok in Ei. cbv beta iota in Ei.
    apply Ok_inj in Ei. injection Ei as <- <- <-.
    rewrite list_insert_id by exact Hkn. destruct w; reflexivity.
  - right. split.
    + intros Hp. destruct (present_bin hasher w s Hw Hp) as (sc0 & pos & e & H0 & Hs0 & Hok).
      fold hq kn in H0, Hok. rewrite Hkn in H0. injection H0 as <-.
      exact (Habs _ _ Hs0 Hok).
    + split; [|eexists; exact R].
      destruct (StringCache_insert_spec hasher (heap w) (whichbin hq) sc s p sc' hp' HI
                  (wi_load _ _ Hw kn sc Hkn) eq_refl (wi_brk_base _ _ Hw)
                  (fun a Ha => wi_brk _ _ Hw kn sc a Hkn Ha) Ei)
        as [(pos & Hs' & Hok & _)|(_ & _ & _ & _ & _ & _ & _ & _ & NM & _)].
      * exfalso. exact (Habs _ _ Hs' Hok).
      * exact NM.
Qed.

End Cases.

Section Counting.
Context (hasher : list byte -> Z).

Lemma fresh_num_entries w :
  (forall k sc, bins w !! k = Some sc -> fresh_shard sc) -> Lib.num_entries w = 0.
Proof.
  intros Hf. unfold Lib.num_entries. rewrite (sum_const _ _ 0); [lia|].
  intros sc Hin. apply list_elem_of_lookup_1 in Hin as [k Hk].
  destruct (Hf k sc Hk) as (_ & En & _). exact En.
Qed.

Lemma run_num_entries ops : forall w acc w',
  world_inv hasher w -> (forall t, present hasher w t <-> t ∈ acc) ->
  Lib.num_entries w = Z.of_nat (length (remove_dups acc)) ->
  run hasher w ops = Ok w' ->
  Lib.num_entries w' = Z.of_nat (length (remove_dups (live_from acc ops))).
Proof.
  induction ops as [|op ops IH]; intros w acc w' Hw Hacc Hn H; cbn [run] in H.
  - apply Ok_inj in H as <-. exact Hn.
  - destruct (exec_op hasher w op) as [w1|err] eqn:E; [|discriminate].
    rewrite bind_Ok in H. cbv beta in H.
    destruct (exec_op_spec hasher w op w1 Hw E) as (I1 & _ & Pr1).
    destruct op as [s|s| |]; cbv beta iota in Pr1; cbn [live_from].
    + apply (IH w1 (s :: acc) w' I1); [|clear H|exact H].
      { intros t. rewrite Pr1, Hacc, elem_of_cons. tauto. }
      cbn [exec_op] in E.
      destruct (Ustr_from hasher w s) as [[u w2]|err] eqn:Eu; [|discriminate].
      rewrite bind_Ok in E. cbv beta iota in E. apply Ok_inj in E as <-.
      destruct (Ustr_from_cases hasher w s u w2 Hw Eu)
        as (sc & p & sc' & hp' & Hkn & _ & Ew & _ & [[Hp ->]|(Hnp & Hnum & _)]).
      * cbn [remove_dups]. destruct (decide_rel elem_of s acc) as [_|Hn']; [exact Hn|].
        exfalso. apply Hn', Hacc, Hp.
      * cbn [remove_dups]. destruct (decide_rel elem_of s acc) as [Hin|_];
          [exfalso; apply Hnp, Hacc, Hin|].
        rewrite Ew. unfold Lib.num_entries in *. cbn [bins].
        rewrite (sum_insert _ _ _ _ _ Hkn), Hn, Hnum. cbn [length]. lia.
    + apply (IH w1 acc w' I1); [intros t; rewrite Pr1; apply Hacc| |exact H].
      cbn [exec_op] in E. destruct (Ustr_from_existing hasher w s); [|discriminate].
      rewrite bind_Ok in E. apply Ok_inj in E as <-. exact Hn.
    + apply (IH w1 acc w' I1); [intros t; rewrite Pr1; apply Hacc| |exact H].
      cbn [exec_op] in E. destruct (string_cache_iter w); [|discriminate].
      rewrite bind_Ok in E. apply Ok_inj in E as <-. exact Hn.
    + apply (IH w1 [] w' I1); [intros t; rewrite Pr1, elem_of_nil; tauto| |exact H].
      cbn [exec_op] in E. destruct (_clear_cache_spec hasher w w1 Hw E) as (_ & _ & Hall).
      rewrite fresh_num_entries; [reflexivity|].
      intros k sc' Hk. destruct (Hall k sc' Hk) as (sc & _ & Hf & _). exact Hf.
Qed.

End Counting.

(** X1: from the initial cache, after any run of operations, [num_entries] is the number of distinct strings interned since the last clear. *)
Theorem num_entries_distinct hasher w0 ops w :
  STRING_CACHE_init = Ok w0 -> run hasher w0 ops = Ok w ->
  Lib.num_entries w = Z.of_nat (length (remove_dups (live_from [] ops))).
Proof.
  intros Hi Hr. destruct (STRING_CACHE_init_spec hasher w0 Hi) as [I0 F0].
  apply (run_num_entries hasher ops w0 [] w I0); [|rewrite fresh_num_entries by exact F0; reflexivity|exact Hr].
  intros t. split; [intros Hp; exfalso; exact (fresh_not_present hasher w0 t F0 Hp)|].
  intros Ht. apply elem_of_nil in Ht. contradiction.
Qed.

Lemma arena_alloc_le_cap a :
  arena_wf a -> 0 <= LeakyBumpAlloc_allocated a <= LeakyBumpAlloc_capacity a.
Proof.
  unfold arena_wf, LeakyBumpAlloc_allocated, LeakyBumpAlloc_capacity. lia.
Qed.

Lemma shard_alloc_le_cap sc :
  (forall a, a ∈ arenas sc -> arena_wf a) ->
  0 <= StringCache_total_allocated sc <= StringCache_total_capacity sc.
Proof.
  intros Ha. unfold StringCache_total_allocated, StringCache_total_capacity.
  pose proof (arena_alloc_le_cap _ (Ha _ ltac:(apply elem_of_cons; left; reflexivity))).
  assert (fold_right Z.add 0 (map (fun _ => 0) (old_allocs sc))
          <= fold_right Z.add 0 (map LeakyBumpAlloc_allocated (old_allocs sc))).
  { apply sum_le. intros a Hin.
    apply (arena_alloc_le_cap _ (Ha a ltac:(apply elem_of_cons; right; exact Hin))). }
  assert (fold_right Z.add 0 (map LeakyBumpAlloc_allocated (old_allocs sc))
          <= fold_right Z.add 0 (map LeakyBumpAlloc_capacity (old_allocs sc))).
  { apply sum_le. intros a Hin.
    apply (arena_alloc_le_cap _ (Ha a ltac:(apply elem_of_cons; right; exact Hin))). }
  rewrite (sum_const (fun _ => 0) _ 0) in * by reflexivity. lia.
Qed.

(** X2: in every reachable cache, [total_allocated] is between 0 and [total_capacity]. *)
Theorem total_allocated_le_capacity hasher w :
  Reachable hasher w -> 0 <= Lib.total_allocated w <= total_capacity w.
Proof.
  intros Hr. pose proof (Reachable_inv hasher w Hr) as Hw.
  assert (Hb : forall sc, sc ∈ bins w ->
            0 <= StringCache_total_allocated sc <= StringCache_total_capacity sc).
  { intros sc Hin. apply list_elem_of_lookup_1 in Hin as [k Hk].
    apply shard_alloc_le_cap. exact (si_arenas _ _ _ _ (wi_shards _ _ Hw k sc Hk)). }
  unfold Lib.total_allocated, total_capacity.
  pose proof (sum_le (fun _ => 0) StringCache_total_allocated (bins w) (fun sc H => proj1 (Hb sc H))).
  pose proof (sum_le _ _ (bins w) (fun sc H => proj2 (Hb sc H))).
  rewrite (sum_const (fun _ => 0) _ 0) in * by reflexivity. lia.
Qed.

Lemma fresh_totals w :
  length (bins w) = Z.to_nat NUM_BINS ->
  (forall k sc, bins w !! k = Some sc -> fresh_shard sc) ->
  Lib.num_entries w = 0 /\ Lib.total_allocated w = 0 /\ total_capacity w = INITIAL_ALLOC.
Proof.
  intros Hl Hf. split; [exact (fresh_num_entries w Hf)|].
  assert (Hf' : forall sc, sc ∈ bins w -> fresh_shard sc).
  { intros sc Hin. apply list_elem_of_lookup_1 in Hin as [k Hk]. exact (Hf k sc Hk). }
  unfold Lib.total_allocated, total_capacity. split.
  - rewrite (sum_const _ _ 0); [lia|]. intros sc Hin.
    destruct (Hf' sc Hin) as (_ & _ & Eo & _ & _ & Ep).
    unfold StringCache_total_allocated, LeakyBumpAlloc_allocated. rewrite Eo, Ep. simpl. lia.
  - rewrite (sum_const _ _ (INITIAL_ALLOC / NUM_BINS)).
    + rewrite Hl. reflexivity.
    + intros sc Hin. destruct (Hf' sc Hin) as (_ & _ & Eo & _ & Hs & _).
      unfold StringCache_total_capacity, LeakyBumpAlloc_capacity. rewrite Eo, Hs. simpl. lia.
Qed.

(** X3: right after initialisation or after [_clear_cache], the cache has no entries, has allocated nothing, reserves [INITIAL_ALLOC] bytes and finds no string. *)
Theorem init_and_clear_totals hasher w :
  (STRING_CACHE_init = Ok w \/ exists w0, Reachable hasher w0 /\ _clear_cache w0 = Ok w) ->
  Lib.num_entries w = 0 /\ Lib.total_allocated w = 0 /\ total_capacity w = INITIAL_ALLOC /\
  forall s, Ustr_from_existing hasher w s = Ok None.
Proof.
  intros H.
  assert (Hw : world_inv hasher w /\ forall k sc, bins w !! k = Some sc -> fresh_shard sc).
  { destruct H as [Hi|(w0 & Hr & Hc)].
    - exact (STRING_CACHE_init_spec hasher w Hi).
    - destruct (_clear_cache_spec hasher w0 w (Reachable_inv hasher w0 Hr) Hc) as (I & _ & Hall).
      split; [exact I|]. intros k sc' Hk. destruct (Hall k sc' Hk) as (sc & _ & Hf & _). exact Hf. }
  destruct Hw as [Hw Hf].
  destruct (fresh_totals w (wi_len _ _ Hw) Hf) as (A & B & C).
  split; [exact A|]. split; [exact B|]. split; [exact C|].
  intros s. destruct (Ustr_from_existing_spec hasher w s Hw)
    as [(sc & pos & e & Hk & Hs & _)|[_ E]]; [|exact E].
  destruct (Hf _ _ Hk) as (Es & _). rewrite Es, lookup_empty in Hs. discriminate.
Qed.

Lemma handle_entry hasher w s u w' :
  Reachable hasher w -> Ustr_from hasher w s = Ok (u, w') ->
  entry_ok (mem (heap w')) (char_ptr u - SIZE_OF_ENTRY) (ahash hasher s) s.
Proof.
  intros Hr H.
  destruct (Ustr_from_spec hasher w s u w' (Reachable_inv hasher w Hr) H)
    as (_ & _ & (sc & pos & _ & _ & Hok) & _). exact Hok.
Qed.

Lemma read_bytes_S m a n :
  read_bytes m a (S n) =
  match m !! a with
  | Some (CByte b) => bs ← read_bytes m (a + 1) n; Ok (b :: bs)
  | _ => Err EUB
  end.
Proof. reflexivity. Qed.

Lemma read_bytes_snoc m a n bs b :
  read_bytes m a n = Ok bs -> m !! (a + Z.of_nat n) = Some (CByte b) ->
  read_bytes m a (S n) = Ok (bs ++ [b]).
Proof.
  revert a bs. induction n as [|n IH]; intros a bs H Hb.
  - cbn [read_bytes] in H. apply Ok_inj in H as <-. rewrite Z.add_0_r in Hb.
    rewrite read_bytes_S, Hb. reflexivity.
  - rewrite read_bytes_S in H |- *.
    destruct (m !! a) as [[w|c]|]; try discriminate.
    destruct (read_bytes m (a + 1) n) as [bs'|err] eqn:E; [|discriminate].
    rewrite bind_Ok in H. apply Ok_inj in H as <-.
    rewrite (IH (a + 1) bs' E) by (rewrite <- Hb; f_equal; lia). reflexivity.
Qed.

(** X4: [is_empty] of a handle is true exactly when its string is empty. *)
Theorem Ustr_is_empty_spec hasher w s u w' :
  Reachable hasher w -> Ustr_from hasher w s = Ok (u, w') ->
  Ustr_is_empty (mem (heap w')) u = Ok (bool_decide (s = [])).
Proof.
  intros Hr H. destruct (entry_accessors _ _ _ _ (handle_entry hasher w s u w' Hr H))
    as (_ & L & _).
  unfold Ustr_is_empty. rewrite L, bind_Ok. f_equal.
  destruct s as [|b s]; [reflexivity|]. unfold strlen. cbn [length].
  rewrite bool_decide_false by discriminate. apply Z.eqb_neq. lia.
Qed.

(** X5: [as_cstr] of a handle reads its bytes followed by the NUL terminator. *)
Theorem Ustr_as_cstr_spec hasher w s u w' :
  Reachable hasher w -> Ustr_from hasher w s = Ok (u, w') ->
  Ustr_as_cstr (mem (heap w')) u = Ok (s ++ [x00]).
Proof.
  intros Hr H. pose proof (handle_entry hasher w s u w' Hr H) as Hok.
  destruct (entry_accessors _ _ _ _ Hok) as (A & L & _).
  destruct Hok as (_ & _ & Rb & Hz).
  unfold Ustr_as_cstr. rewrite A, bind_Ok, L, bind_Ok.
  replace (Z.to_nat (strlen s + 1)) with (S (length s)) by (unfold strlen; lia).
  replace (char_ptr u - SIZE_OF_ENTRY + SIZE_OF_ENTRY) with (char_ptr u) in Rb, Hz by lia.
  apply read_bytes_snoc; [exact Rb|]. exact Hz.
Qed.

(** X6: comparing a handle with a [&str] is byte equality of its string. *)
Theorem Ustr_eq_str_spec hasher w s u w' t :
  Reachable hasher w -> Ustr_from hasher w s = Ok (u, w') ->
  Ustr_eq_str (mem (heap w')) u t = Ok (bool_decide (s = t)).
Proof.
  intros Hr H. destruct (entry_accessors _ _ _ _ (handle_entry hasher w s u w' Hr H))
    as (A & _).
  unfold Ustr_eq_str. rewrite A, bind_Ok. reflexivity.
Qed.

Lemma byte_of_Z_spec z : 0 <= z < 256 -> Z.of_N (Byte.to_N (byte_of_Z z)) = z.
Proof.
  intros Hz. unfold byte_of_Z. destruct (Byte.of_N (Z.to_N z)) as [b|] eqn:E.
  - apply Byte.to_of_N in E. rewrite E. lia.
  - apply Byte.of_N_None_iff in E. lia.
Qed.

Lemma mod_split y P : 0 < P -> y mod (256 * P) = y mod 256 + 256 * ((y / 256) mod P).
Proof.
  intros HP. symmetry. apply Z.mod_unique with (q := y / 256 / P).
  - pose proof (Z.mod_pos_bound y 256 ltac:(lia)).
    pose proof (Z.mod_pos_bound (y / 256) P HP). lia.
  - pose proof (Z.div_mod y 256 ltac:(lia)).
    pose proof (Z.div_mod (y / 256) P ltac:(lia)). lia.
Qed.

Lemma read_u64_ne_seq x k n :
  0 <= x ->
  read_u64_ne (map (fun i => byte_of_Z (Z.shiftr x (8 * Z.of_nat i) mod 256)) (seq k n)) =
  (x / 2 ^ (8 * Z.of_nat k)) mod 2 ^ (8 * Z.of_nat n).
Proof.
  intros Hx. revert k. induction n as [|n IH]; intros k.
  - simpl. rewrite Z.mod_1_r. reflexivity.
  - cbn [seq map]. unfold read_u64_ne at 1. cbn [fold_right]. fold (read_u64_ne (map (fun i => byte_of_Z (Z.shiftr x (8 * Z.of_nat i) mod 256)) (seq (S k) n))).
    rewrite IH. rewrite byte_of_Z_spec by (apply Z.mod_pos_bound; lia).
    rewrite Z.shiftr_div_pow2 by lia.
    replace (2 ^ (8 * Z.of_nat (S n))) with (256 * 2 ^ (8 * Z.of_nat n))
      by (rewrite Nat2Z.inj_succ, Z.mul_succ_r, Z.pow_add_r by lia; lia).
    rewrite mod_split by (apply Z.pow_pos_nonneg; lia).
    replace (2 ^ (8 * Z.of_nat (S k))) with (2 ^ (8 * Z.of_nat k) * 256)
      by (rewrite Nat2Z.inj_succ, Z.mul_succ_r, Z.pow_add_r by lia; lia).
    rewrite <- Z.div_div by (try apply Z.pow_pos_nonneg; lia). reflexivity.
Qed.

Lemma u64_round_trip x : 0 <= x < 2 ^ 64 -> read_u64_ne (u64_to_ne_bytes x) = x.
Proof.
  intros Hx. unfold u64_to_ne_bytes. rewrite read_u64_ne_seq by lia.
  change (8 * Z.of_nat 0) with 0. change (8 * Z.of_nat 8) with 64.
  rewrite Z.pow_0_r, Z.div_1_r. apply Z.mod_small. exact Hx.
Qed.

Lemma u64_to_ne_bytes_length x : length (u64_to_ne_bytes x) = 8%nat.
Proof. reflexivity. Qed.

(** X7: [IdentityHasher] returns the u64 written as 8 native-endian bytes, and ignores writes of any other length. *)
Theorem IdentityHasher_round_trip st x bytes :
  0 <= x < 2 ^ 64 ->
  IdentityHasher_finish (IdentityHasher_write st (u64_to_ne_bytes x)) = x /\
  (length bytes <> 8%nat -> IdentityHasher_write st bytes = st).
Proof.
  intros Hx. split.
  - unfold IdentityHasher_write. rewrite u64_to_ne_bytes_length. cbn.
    exact (u64_round_trip x Hx).
  - intros Hl. unfold IdentityHasher_write. apply Nat.eqb_neq in Hl. rewrite Hl. reflexivity.
Qed.

(** X8: hashing a handle with [IdentityHasher] yields the precomputed hash of its string. *)
Theorem Ustr_hash_identity hasher w s u w' :
  Reachable hasher w -> Ustr_from hasher w s = Ok (u, w') ->
  exists st, Ustr_hash (mem (heap w')) u IdentityHasher_default = Ok st /\
    IdentityHasher_finish st = ahash hasher s /\
    Ustr_precomputed_hash (mem (heap w')) u = Ok (IdentityHasher_finish st).
Proof.
  intros Hr H. destruct (entry_accessors _ _ _ _ (handle_entry hasher w s u w' Hr H))
    as (_ & _ & P & _).
  unfold Ustr_hash. rewrite P, bind_Ok. eexists. split; [reflexivity|].
  assert (Hf : IdentityHasher_finish (IdentityHasher_write IdentityHasher_default
                 (u64_to_ne_bytes (ahash hasher s))) = ahash hasher s).
  { unfold IdentityHasher_write. rewrite u64_to_ne_bytes_length. cbn.
    apply u64_round_trip. unfold ahash. apply Z.mod_pos_bound. lia. }
  split; [exact Hf|]. rewrite Hf. reflexivity.
Qed.

Section Handles.
Context (hasher : list byte -> Z).

(** Two handles, the second interned after the first. *)
Lemma two_handles w a ua w1 b ub w2 :
  Reachable hasher w -> Ustr_from hasher w a = Ok (ua, w1) ->
  Ustr_from hasher w1 b = Ok (ub, w2) ->
  entry_ok (mem (heap w2)) (char_ptr ua - SIZE_OF_ENTRY) (ahash hasher a) a /\
  entry_ok (mem (heap w2)) (char_ptr ub - SIZE_OF_ENTRY) (ahash hasher b) b /\
  (char_ptr ua = char_ptr ub <-> a = b).
Proof.
  intros Hr Ha Hb. pose proof (Reachable_inv hasher w Hr) as Hw.
  destruct (Ustr_from_spec hasher w a ua w1 Hw Ha)
    as (I1 & _ & (sca & pa & Hka & Hsa & Hoka) & _).
  destruct (Ustr_from_spec hasher w1 b ub w2 I1 Hb)
    as (I2 & P12 & (scb & pb & Hkb & Hsb & Hokb) & _).
  destruct (P12 _ _ _ _ _ _ Hka Hsa Hoka) as (sca2 & pa2 & Hka2 & Hsa2 & Hoka2).
  split; [exact Hoka2|]. split; [exact Hokb|]. split.
  - intros Hp. rewrite Hp in Hoka2.
    destruct (entry_ok_inj _ _ _ _ _ _ Hoka2 Hokb) as [_ E]. exact E.
  - intros <-.
    destruct (world_canonical hasher w2 a _ _ _ _ _ _ _ _ I2 Hka2 Hkb Hsa2 Hsb Hoka2 Hokb)
      as (_ & _ & E). lia.
Qed.

(** Interning a string a second time finds the entry of the first call. *)
Lemma Ustr_from_again w s u w1 :
  Reachable hasher w -> Ustr_from hasher w s = Ok (u, w1) ->
  Ustr_from hasher w1 s = Ok (u, w1) /\ Ustr_from_existing hasher w1 s = Ok (Some u).
Proof.
  intros Hr H. pose proof (Reachable_inv hasher w Hr) as Hw.
  destruct (Ustr_from_spec hasher w s u w1 Hw H)
    as (I1 & _ & (sc & pos & Hk & Hs & Hok) & _).
  destruct (Ustr_from_existing_spec hasher w1 s I1)
    as [(sc' & pos' & e & Hk' & Hs' & Hok' & E1 & E2)|[Hnp _]].
  - destruct (world_canonical hasher w1 s _ _ _ _ _ _ _ _ I1 Hk Hk' Hs Hs' Hok Hok')
      as (_ & _ & Ee).
    assert (Eu : mkUstr (e + SIZE_OF_ENTRY) = u) by (destruct u; cbn in Ee |- *; f_equal; lia).
    rewrite Eu in E1, E2. auto.
  - exfalso. apply Hnp. exists (Z.to_nat (whichbin (ahash hasher s))), sc, pos,
      (char_ptr u - SIZE_OF_ENTRY). auto.
Qed.

Lemma visit_seq_spec l : forall w w',
  world_inv hasher w -> BinsVisitor_visit_seq hasher w l = Ok w' ->
  world_inv hasher w' /\ persists w w' /\
  forall t, present hasher w' t <-> present hasher w t \/ t ∈ l.
Proof.
  induction l as [|s l IH]; intros w w' Hw H; cbn [BinsVisitor_visit_seq] in H.
  - apply Ok_inj in H as <-. split; [exact Hw|]. split; [apply persists_refl|].
    intros t. rewrite elem_of_nil. tauto.
  - destruct (Ustr_from hasher w s) as [[u w1]|err] eqn:E; [|discriminate].
    rewrite bind_Ok in H. cbv beta iota in H.
    assert (E' : exec_op hasher w (Intern s) = Ok w1)
      by (cbn [exec_op]; rewrite E, bind_Ok; reflexivity).
    destruct (exec_op_spec hasher w (Intern s) w1 Hw E') as (I1 & P1 & Pr1).
    destruct (IH w1 w' I1 H) as (I2 & P2 & Pr2).
    split; [exact I2|]. split; [exact (persists_trans _ _ _ (P1 eq_refl) P2)|].
    intros t. rewrite Pr2, Pr1, elem_of_cons. tauto.
Qed.

End Handles.

Lemma bytes_cmp_eq a b : bytes_cmp a b = Eq <-> a = b.
Proof.
  revert b. induction a as [|x a IH]; intros [|y b]; cbn [bytes_cmp];
    try (split; [discriminate|intros [=]]); [split; reflexivity|].
  destruct (N.compare (Byte.to_N x) (Byte.to_N y)) eqn:E.
  - apply N.compare_eq_iff in E.
    assert (x = y) as <-.
    { pose proof (Byte.of_to_N x) as Hx. rewrite E, Byte.of_to_N in Hx. congruence. }
    rewrite IH. split; [intros ->; reflexivity|intros [= ->]; reflexivity].
  - split; [discriminate|]. intros [= <- <-]. rewrite N.compare_refl in E. discriminate.
  - split; [discriminate|]. intros [= <- <-]. rewrite N.compare_refl in E. discriminate.
Qed.

Lemma bytes_cmp_antisym a b : bytes_cmp b a = CompOpp (bytes_cmp a b).
Proof.
  revert b. induction a as [|x a IH]; intros [|y b]; cbn [bytes_cmp]; try reflexivity.
  rewrite (N.compare_antisym (Byte.to_N x) (Byte.to_N y)).
  destruct (N.compare (Byte.to_N x) (Byte.to_N y)); cbn [CompOpp]; [apply IH|reflexivity|reflexivity].
Qed.

(** X9: [cmp] and [partial_cmp] of two handles are the lexicographic byte order of their strings, antisymmetric, and [Equal] exactly when the handles are equal. *)
Theorem Ustr_ord_consistent hasher w a ua w1 b ub w2 :
  Reachable hasher w -> Ustr_from hasher w a = Ok (ua, w1) ->
  Ustr_from hasher w1 b = Ok (ub, w2) ->
  Ustr_cmp (mem (heap w2)) ua ub = Ok (bytes_cmp a b) /\
  Ustr_partial_cmp (mem (heap w2)) ua ub = Ok (Some (bytes_cmp a b)) /\
  Ustr_cmp (mem (heap w2)) ub ua = Ok (CompOpp (bytes_cmp a b)) /\
  (Ustr_cmp (mem (heap w2)) ua ub = Ok Eq <-> Ustr_eq ua ub = true).
Proof.
  intros Hr Ha Hb. destruct (two_handles hasher w a ua w1 b ub w2 Hr Ha Hb) as (Oa & Ob & E).
  destruct (entry_accessors _ _ _ _ Oa) as (Sa & _). destruct (entry_accessors _ _ _ _ Ob) as (Sb & _).
  unfold Ustr_cmp, Ustr_partial_cmp. rewrite Sa, Sb, !bind_Ok.
  split; [reflexivity|]. split; [reflexivity|]. split; [rewrite bytes_cmp_antisym; reflexivity|].
  unfold Ustr_eq. rewrite Z.eqb_eq, E, <- bytes_cmp_eq.
  split; [intros [= ->]; reflexivity|intros ->; reflexivity].
Qed.


(** X11: serializing a handle gives its string, and deserializing that string gives back the same handle with the cache unchanged. *)
Theorem Ustr_serde_round_trip hasher w s u w1 :
  Reachable hasher w -> Ustr_from hasher w s = Ok (u, w1) ->
  Ustr_serialize (mem (heap w1)) u = Ok s /\ UstrVisitor_visit_str hasher w1 s = Ok (u, w1).
Proof.
  intros Hr H. destruct (entry_accessors _ _ _ _ (handle_entry hasher w s u w1 Hr H)) as (A & _).
  split; [exact A|]. exact (proj1 (Ustr_from_again hasher w s u w1 Hr H)).
Qed.

(** X12: deserializing a sequence of strings into the cache makes every one of them findable and leaves lookups of other strings unchanged. *)
Theorem BinsVisitor_visit_seq_spec hasher w l w' :
  Reachable hasher w -> BinsVisitor_visit_seq hasher w l = Ok w' ->
  (forall s, s ∈ l -> exists u, Ustr_from_existing hasher w' s = Ok (Some u)) /\
  (forall s, s ∉ l -> Ustr_from_existing hasher w' s = Ustr_from_existing hasher w s).
Proof.
  intros Hr H. pose proof (Reachable_inv hasher w Hr) as Hw.
  destruct (visit_seq_spec hasher l w w' Hw H) as (I' & P & Pr). split.
  - intros s Hs. destruct (Ustr_from_existing_spec hasher w' s I')
      as [(sc & pos & e & _ & _ & _ & E & _)|[Hnp _]]; [eauto|].
    exfalso. apply Hnp, Pr. auto.
  - intros s Hs. destruct (Ustr_from_existing_spec hasher w s Hw)
      as [(sc & pos & e & Hk & Hsl & Hok & E & _)|[Hnp E]].
    + destruct (P _ _ _ _ _ _ Hk Hsl Hok) as (sc' & pos' & Hk' & Hsl' & Hok').
      destruct (Ustr_from_existing_spec hasher w' s I')
        as [(sc2 & pos2 & e2 & Hk2 & Hsl2 & Hok2 & E2 & _)|[Hnp _]].
      * destruct (world_canonical hasher w' s _ _ _ _ _ _ _ _ I' Hk' Hk2 Hsl' Hsl2 Hok' Hok2)
          as (_ & _ & <-). rewrite E, E2. reflexivity.
      * exfalso. apply Hnp. exists (Z.to_nat (whichbin (ahash hasher s))), sc', pos', e. auto.
    + rewrite E. destruct (Ustr_from_existing_spec hasher w' s I')
        as [(sc2 & pos2 & e2 & Hk2 & Hsl2 & Hok2 & E2 & _)|[_ E2]]; [|exact E2].
      exfalso. assert (Hp : present hasher w' s) by (exists (Z.to_nat (whichbin (ahash hasher s))), sc2, pos2, e2; auto).
      apply Pr in Hp as [Hp|Hp]; [exact (Hnp Hp)|exact (Hs Hp)].
Qed.

Lemma land_usize_not_pow2 k x :
  0 <= k <= 64 -> 0 <= x < 2 ^ 64 -> Z.land x (usize_not (2 ^ k - 1)) = x / 2 ^ k * 2 ^ k.
Proof.
  intros Hk Hx.
  assert (Z.land x (usize_not (2 ^ k - 1)) = Z.ldiff x (Z.ones k)) as ->.
  { apply Z.bits_inj'. intros i Hi.
    rewrite Z.land_spec, Z.ldiff_spec. unfold usize_not, USIZE_MAX.
    rewrite Z.lxor_spec.
    change (2 ^ 64 - 1) with (Z.ones 64).
    replace (2 ^ k - 1) with (Z.ones k) by (rewrite Z.ones_equiv; lia).
    destruct (Z.lt_ge_cases i 64).
    - rewrite (Z.ones_spec_low 64 i) by lia. destruct (Z.testbit (Z.ones k) i); reflexivity.
    - destruct (Z.eq_dec x 0) as [->|Hx0]; [rewrite Z.testbit_0_l; reflexivity|].
      rewrite (Z.bits_above_log2 x i); [reflexivity|lia|].
      assert (Z.log2 x < 64) by (apply Z.log2_lt_pow2; lia). lia. }
  rewrite Z.ldiff_ones_r by lia. rewrite Z.shiftl_mul_pow2, Z.shiftr_div_pow2 by lia.
  reflexivity.
Qed.

Lemma pow2_lt_64 k : 0 <= k -> 2 ^ k <= USIZE_MAX -> k < 64.
Proof.
  intros Hk H. destruct (Z.lt_ge_cases k 64) as [|Hge]; [assumption|].
  pose proof (Z.pow_le_mono_r 2 64 k ltac:(lia) Hge). unfold USIZE_MAX in H. lia.
Qed.

(** X13: [round_up_to n 2^k] is the least multiple of [2^k] not below [n], and panics when [n + 2^k] overflows usize. *)
Theorem round_up_to_spec n k :
  0 <= k -> 0 <= n ->
  (n + 2 ^ k <= USIZE_MAX ->
     exists r, round_up_to n (2 ^ k) = Ok r /\ r mod 2 ^ k = 0 /\ n <= r < n + 2 ^ k) /\
  (USIZE_MAX < n + 2 ^ k -> round_up_to n (2 ^ k) = Err (EPanic "round_up_to overflowed")).
Proof.
  intros Hk Hn. pose proof (Z.pow_pos_nonneg 2 k ltac:(lia) Hk) as Hp.
  unfold round_up_to, expect, checked_add. split.
  - intros Hle. rewrite (proj2 (Z.leb_le _ _) Hle), bind_Ok.
    pose proof (pow2_lt_64 k Hk ltac:(lia)).
    rewrite land_usize_not_pow2 by (unfold USIZE_MAX in Hle; lia).
    eexists. split; [reflexivity|]. rewrite Z.mod_mul by lia.
    pose proof (Z.div_mod (n + 2 ^ k - 1) (2 ^ k) ltac:(lia)).
    pose proof (Z.mod_pos_bound (n + 2 ^ k - 1) (2 ^ k) Hp). lia.
  - intros Hgt. rewrite (proj2 (Z.leb_gt _ _) Hgt). reflexivity.
Qed.

(** X14: [allocate] panics when the request exceeds the pointer, aborts when the aligned result falls below the arena start, and otherwise moves the pointer down to the aligned address just below it. *)
Theorem LeakyBumpAlloc_allocate_cases a n k :
  l_align (layout a) = 2 ^ k -> 0 <= k <= 64 -> 0 <= n -> 0 <= ptr a < 2 ^ 64 ->
  (ptr a < n -> LeakyBumpAlloc_allocate a n = Err (EPanic "ptr sub overflowed")) /\
  (n <= ptr a -> (ptr a - n) / 2 ^ k * 2 ^ k < start a -> LeakyBumpAlloc_allocate a n = Err EAbort) /\
  (n <= ptr a -> start a <= (ptr a - n) / 2 ^ k * 2 ^ k ->
     exists r, LeakyBumpAlloc_allocate a n = Ok (r, mkAlloc (layout a) (start a) (end_ a) r) /\
       r mod 2 ^ k = 0 /\ start a <= r /\ r + n <= ptr a < r + n + 2 ^ k /\
       LeakyBumpAlloc_allocated (mkAlloc (layout a) (start a) (end_ a) r) =
         LeakyBumpAlloc_allocated a + (ptr a - r)).
Proof.
  intros Hal Hk Hn Hp. pose proof (Z.pow_pos_nonneg 2 k ltac:(lia) ltac:(lia)) as Hpos.
  unfold LeakyBumpAlloc_allocate, expect, checked_sub. rewrite Hal.
  split; [intros Hlt; rewrite (proj2 (Z.leb_gt _ _)) by lia; reflexivity|].
  split.
  - intros Hle Hlt. rewrite (proj2 (Z.leb_le _ _)) by lia. rewrite bind_Ok.
    rewrite land_usize_not_pow2 by lia. rewrite (proj2 (Z.ltb_lt _ _) Hlt). reflexivity.
  - intros Hle Hge. rewrite (proj2 (Z.leb_le _ _)) by lia. rewrite bind_Ok.
    rewrite land_usize_not_pow2 by lia. rewrite (proj2 (Z.ltb_ge _ _) Hge).
    eexists. split; [reflexivity|]. rewrite Z.mod_mul by lia.
    pose proof (Z.div_mod (ptr a - n) (2 ^ k) ltac:(lia)).
    pose proof (Z.mod_pos_bound (ptr a - n) (2 ^ k) Hpos).
    unfold LeakyBumpAlloc_allocated. cbn [ptr end_]. lia.
Qed.

(** X15: an entry bumped down from an aligned pointer ends exactly where the iterator steps to from it. *)
Theorem allocate_next_entry a len e a' :
  l_align (layout a) = ALIGN_OF_ENTRY -> ptr a mod ALIGN_OF_ENTRY = 0 -> ptr a < 2 ^ 64 ->
  0 <= len ->
  LeakyBumpAlloc_allocate a (SIZE_OF_ENTRY + (len + 1)) = Ok (e, a') ->
  round_up_to (len + 1) ALIGN_OF_ENTRY = Ok (ptr a - (e + SIZE_OF_ENTRY)).
Proof.
  unfold ALIGN_OF_ENTRY, SIZE_OF_ENTRY. intros Hal Hp Hlt Hl H.
  unfold LeakyBumpAlloc_allocate, expect, checked_sub in H. rewrite Hal in H.
  destruct (Z.leb_spec 0 (ptr a - (16 + (len + 1)))) as [Hle|]; [|discriminate].
  rewrite bind_Ok in H. change (8 - 1) with 7 in H. rewrite land_usize_not_7 in H by lia.
  destruct (_ <? start a); [discriminate|]. apply Ok_inj in H. injection H as <- _.
  unfold round_up_to, expect, checked_add.
  rewrite (proj2 (Z.leb_le _ _)) by (unfold USIZE_MAX; lia). rewrite bind_Ok.
  change (8 - 1) with 7. rewrite land_usize_not_7 by lia. f_equal.
  pose proof (Z.div_mod (ptr a) 8 ltac:(lia)) as Hq. rewrite Hp in Hq.
  set (q := ptr a / 8) in *. set (L := len + 1) in *.
  pose proof (Z.div_mod (L + 7) 8 ltac:(lia)) as Hc.
  pose proof (Z.mod_pos_bound (L + 7) 8 ltac:(lia)) as Hm.
  set (c := (L + 7) / 8) in *. set (m := (L + 7) mod 8) in *.
  assert (Hd : (ptr a - (16 + L)) / 8 = q - 2 - c).
  { symmetry. apply Z.div_unique with (r := 8 * c - L); lia. }
  rewrite Hd. replace (L + 8 - 1) with (L + 7) by lia. fold c. lia.
Qed.

Lemma allocate_ok_8 a n e a' :
  l_align (layout a) = ALIGN_OF_ENTRY -> ptr a <= 2 ^ 64 -> 0 < n ->
  LeakyBumpAlloc_allocate a n = Ok (e, a') ->
  e = (ptr a - n) / 8 * 8 /\ n <= ptr a /\ start a <= e /\
  a' = mkAlloc (layout a) (start a) (end_ a) e.
Proof.
  intros Hal Hp Hn H. unfold LeakyBumpAlloc_allocate, expect, checked_sub in H.
  rewrite Hal in H. unfold ALIGN_OF_ENTRY in H.
  destruct (Z.leb_spec 0 (ptr a - n)) as [Hle|]; [|discriminate].
  rewrite bind_Ok in H. change (8 - 1) with 7 in H. rewrite land_usize_not_7 in H by lia.
  destruct (Z.ltb_spec ((ptr a - n) / 8 * 8) (start a)); [discriminate|].
  apply Ok_inj in H. injection H as <- <-. repeat split; lia.
Qed.

Lemma sum_app {A} (f : A -> Z) (l1 l2 : list A) :
  fold_right Z.add 0 (map f (l1 ++ l2)) = fold_right Z.add 0 (map f l1) + fold_right Z.add 0 (map f l2).
Proof. induction l1 as [|x l1 IH]; simpl; lia. Qed.

(** What a successful [insert] of a new string adds to the bytes handed
    out by the shard's arenas: the entry size, plus at most 7 bytes of
    alignment padding. *)
Lemma insert_vacant_total sc hp s hash pos p sc' hp' :
  arena_wf (alloc sc) -> HEAP_BASE <= brk hp ->
  StringCache_probe sc (mem hp) s hash = Ok (Vacant pos) ->
  StringCache_insert sc hp s hash = Ok (p, sc', hp') ->
  SIZE_OF_ENTRY + (strlen s + 1) <= StringCache_total_allocated sc' - StringCache_total_allocated sc
    <= SIZE_OF_ENTRY + (strlen s + 1) + 7.
Proof.
  intros Hwf Hb Hp H. unfold StringCache_insert in H. rewrite Hp, bind_Ok in H. cbv beta iota zeta in H.
  set (n := SIZE_OF_ENTRY + (strlen s + 1)) in H |- *.
  assert (Hn : 0 < n) by (unfold n, SIZE_OF_ENTRY, strlen; lia).
  destruct (StringCache_reserve sc hp n) as [[sc1 hp1]|] eqn:Er; [|discriminate].
  rewrite bind_Ok in H. cbv beta iota in H.
  destruct (LeakyBumpAlloc_allocate (alloc sc1) n) as [[e a]|] eqn:Ea; [|discriminate].
  rewrite bind_Ok in H. cbv beta iota in H.
  assert (Htot : StringCache_total_allocated sc' =
            LeakyBumpAlloc_allocated a + fold_right Z.add 0 (map LeakyBumpAlloc_allocated (old_allocs sc1))).
  { destruct (_ <? _) in H.
    - destruct (StringCache_grow _ _) as [sc3|] eqn:Eg; [|discriminate].
      rewrite bind_Ok in H. apply Ok_inj in H. injection H as _ <- _.
      unfold StringCache_grow in Eg.
      destruct (vec_null _); [|discriminate]. rewrite bind_Ok in Eg.
      destruct (grow_copy _ _ _ _ _ _); [|discriminate]. rewrite bind_Ok in Eg.
      apply Ok_inj in Eg as <-. reflexivity.
    - rewrite bind_Ok in H. apply Ok_inj in H. injection H as _ <- _. reflexivity. }
  assert (Hwf1 : arena_wf (alloc sc1) /\
     (StringCache_total_allocated sc = LeakyBumpAlloc_allocated (alloc sc1)
        + fold_right Z.add 0 (map LeakyBumpAlloc_allocated (old_allocs sc1)))).
  { destruct (StringCache_reserve_spec sc hp n sc1 hp1 Er Hn Hb)
      as [(-> & _ & _)|(Eo & _ & _ & _ & _ & _ & Ep & _ & Hw1 & _)].
    - split; [exact Hwf|reflexivity].
    - split; [exact Hw1|]. rewrite Eo, sum_app. unfold StringCache_total_allocated.
      cbn [map fold_right].
      assert (LeakyBumpAlloc_allocated (alloc sc1) = 0) by (unfold LeakyBumpAlloc_allocated; lia).
      lia. }
  destruct Hwf1 as [Hwf1 Hsc]. pose proof Hwf1 as (Hal & _ & _ & _ & Hpr & Hend).
  destruct (allocate_ok_8 _ _ _ _ Hal ltac:(lia) Hn Ea) as (Ee & Hle & Hst & ->).
  rewrite Htot, Hsc. unfold LeakyBumpAlloc_allocated. cbn [ptr end_].
  pose proof (Z.div_mod (ptr (alloc sc1) - n) 8 ltac:(lia)).
  pose proof (Z.mod_pos_bound (ptr (alloc sc1) - n) 8 ltac:(lia)). lia.
Qed.

Section Accounting.
Context (hasher : list byte -> Z).

(** X16: interning a present string leaves [total_allocated] as it is; interning a new one raises it by the entry size (len + 17 bytes) plus at most 7 bytes of padding. *)
Theorem Ustr_from_total_allocated w s u w' :
  Reachable hasher w -> Ustr_from hasher w s = Ok (u, w') ->
  (present hasher w s -> Lib.total_allocated w' = Lib.total_allocated w) /\
  (~ present hasher w s ->
     strlen s + 17 <= Lib.total_allocated w' - Lib.total_allocated w <= strlen s + 24).
Proof.
  intros Hr H. pose proof (Reachable_inv hasher w Hr) as Hw.
  destruct (Ustr_from_cases hasher w s u w' Hw H)
    as (sc & p & sc' & hp' & Hkn & Ei & Ew & _ & [[Hp ->]|(Hnp & _ & pos & Hv)]).
  - split; [reflexivity|intros Hn; contradiction].
  - split; [intros Hp; contradiction|intros _]. subst w'.
    unfold Lib.total_allocated. cbn [bins]. rewrite (sum_insert _ _ _ _ _ Hkn).
    pose proof (si_arenas _ _ _ _ (wi_shards _ _ Hw _ _ Hkn) (alloc sc)
                  ltac:(apply elem_of_cons; left; reflexivity)) as Hwf.
    pose proof (insert_vacant_total sc (heap w) s _ pos p sc' hp' Hwf (wi_brk_base _ _ Hw) Hv Ei).
    unfold SIZE_OF_ENTRY in *. lia.
Qed.

End Accounting.


Lemma probe_loop_S fuel v mask m s hash pos dist :
  probe_loop (S fuel) v mask m s hash pos dist =
  (entry ← get_unchecked v pos;
   if entry =? 0 then Ok (Vacant pos) else
   matched ← entry_matches m entry s hash;
   if (matched : bool) then Ok (Hit (entry + SIZE_OF_ENTRY)) else
   probe_loop fuel v mask m s hash (Z.land (pos + (dist + 1)) mask) (dist + 1)).
Proof. reflexivity. Qed.

(** X18: a new shard has an empty table of 16384 slots, an untouched 64 KiB arena, and finds no string. *)
Theorem StringCache_new_empty hp sc hp' :
  StringCache_new hp = Ok (sc, hp') -> HEAP_BASE <= brk hp ->
  num_entries sc = 0 /\ mask sc = 16383 /\ slots_len (entries sc) = 16384 /\
  StringCache_total_allocated sc = 0 /\ StringCache_total_capacity sc = 65536 /\
  forall m s h, StringCache_get_existing sc m s h = Ok None.
Proof.
  intros H Hb. pose proof (StringCache_new_spec hp sc hp' H Hb) as (Hf & _).
  destruct Hf as (_ & _ & _ & _ & Hsz & Hpe).
  unfold StringCache_new in H.
  destruct (LeakyBumpAlloc_new _ _ hp) as [[a hp1]|] eqn:E; [|discriminate].
  rewrite bind_Ok in H. apply Ok_inj in H. injection H as <- _. cbn [alloc] in Hsz, Hpe.
  split; [reflexivity|]. split; [reflexivity|]. split; [reflexivity|].
  split; [unfold StringCache_total_allocated, LeakyBumpAlloc_allocated; cbn; lia|].
  split; [unfold StringCache_total_capacity, LeakyBumpAlloc_capacity; cbn; rewrite Hsz; reflexivity|].
  intros m s h. unfold StringCache_get_existing, StringCache_probe, probe_fuel. cbn [mask entries].
  replace (INITIAL_CAPACITY / NUM_BINS - 1 + 1) with (Z.succ 16383) by reflexivity.
  rewrite Z2Nat.inj_succ by lia. rewrite probe_loop_S. unfold get_unchecked. cbn [slots_len slots].
  replace (INITIAL_CAPACITY / NUM_BINS) with 16384 by reflexivity.
  change (16384 - 1) with 16383. rewrite Z.land_comm.
  rewrite (land_mask_mod 16383 h 14) by reflexivity.
  pose proof (Z.mod_pos_bound h (2 ^ Z.of_nat 14) ltac:(reflexivity)).
  rewrite (proj2 (Z.leb_le 0 _)), (proj2 (Z.ltb_lt _ 16384)) by (change (2 ^ Z.of_nat 14) with 16384 in *; lia).
  cbn [andb]. rewrite bind_Ok, lookup_empty. reflexivity.
Qed.

(** X19: [LeakyBumpAlloc::new] panics on an invalid layout and otherwise returns an empty arena of the requested capacity at an aligned start. *)
Theorem LeakyBumpAlloc_new_cases cap al hp :
  ((is_power_of_two al = false \/ ISIZE_MAX - (al - 1) < cap) ->
     LeakyBumpAlloc_new cap al hp = Err (EPanic "called `Result::unwrap()` on an `Err` value")) /\
  (forall a hp', LeakyBumpAlloc_new cap al hp = Ok (a, hp') ->
     LeakyBumpAlloc_allocated a = 0 /\ LeakyBumpAlloc_capacity a = cap /\
     l_align (layout a) = al /\ start a mod al = 0 /\ brk hp <= start a /\
     end_ a = start a + cap /\ brk hp' = end_ a /\ mem hp' = mem hp).
Proof.
  unfold LeakyBumpAlloc_new, Layout_from_size_align, expect. split.
  - intros [E|E].
    + rewrite E. reflexivity.
    + rewrite (proj2 (Z.leb_gt _ _) E), andb_false_r. reflexivity.
  - intros a hp' H.
    destruct (is_power_of_two al && (cap <=? ISIZE_MAX - (al - 1))) eqn:E; [|discriminate].
    apply andb_prop in E as [Ep _]. unfold is_power_of_two in Ep.
    apply andb_prop in Ep as [Epos _]. apply Z.ltb_lt in Epos.
    rewrite bind_Ok in H. unfold system_alloc in H. cbn [l_align l_size] in H.
    assert (Hr : brk hp <= round_up (brk hp) al /\ round_up (brk hp) al mod al = 0).
    { unfold round_up. rewrite Z.mod_mul by lia.
      pose proof (Z.div_mod (brk hp + al - 1) al ltac:(lia)).
      pose proof (Z.mod_pos_bound (brk hp + al - 1) al ltac:(lia)). lia. }
    destruct (round_up (brk hp) al + cap <=? 2 ^ 64).
    + destruct (round_up (brk hp) al =? 0); [discriminate|].
      apply Ok_inj in H. injection H as <- <-.
      unfold LeakyBumpAlloc_allocated, LeakyBumpAlloc_capacity.
      cbn [ptr end_ start layout l_size l_align brk mem]. repeat split; lia.
    + rewrite Z.eqb_refl in H. discriminate.
Qed.

Lemma fresh_concat_allocs (l : list StringCache) :
  (forall sc, sc ∈ l -> fresh_shard sc) -> concat (map bin_allocs l) = [].
Proof.
  induction l as [|sc l IH]; intros H; [reflexivity|]. cbn [map concat].
  rewrite (fresh_bin_allocs sc (H sc ltac:(apply elem_of_cons; left; reflexivity))), IH; [reflexivity|].
  intros sc' Hin. apply H. apply elem_of_cons. auto.
Qed.

Lemma init_or_cleared_fresh hasher w :
  (STRING_CACHE_init = Ok w \/ exists w0, Reachable hasher w0 /\ _clear_cache w0 = Ok w) ->
  world_inv hasher w /\ forall k sc, bins w !! k = Some sc -> fresh_shard sc.
Proof.
  intros [Hi|(w0 & Hr & Hc)].
  - exact (STRING_CACHE_init_spec hasher w Hi).
  - destruct (_clear_cache_spec hasher w0 w (Reachable_inv hasher w0 Hr) Hc) as (I & _ & Hall).
    split; [exact I|]. intros k sc' Hk. destruct (Hall k sc' Hk) as (sc & _ & Hf & _). exact Hf.
Qed.

(** X20: serializing the cache before any string is interned, or right after [_clear_cache], panics in [string_cache_iter]. *)
Theorem Bins_serialize_empty_panics hasher fuel w :
  (STRING_CACHE_init = Ok w \/ exists w0, Reachable hasher w0 /\ _clear_cache w0 = Ok w) ->
  Bins_serialize fuel w = Err (EPanic "index out of bounds").
Proof.
  intros H. destruct (init_or_cleared_fresh hasher w H) as [_ Hf].
  unfold Bins_serialize, string_cache_iter.
  rewrite fresh_concat_allocs; [reflexivity|].
  intros sc Hin. apply list_elem_of_lookup_1 in Hin as [k Hk]. exact (Hf k sc Hk).
Qed.

(** ** Facts of further concrete runs *)

Lemma demo_w4_ok : Ustr_from demo_hasher demo_w1 str_cd = Ok (demo_uc, demo_w4).
Proof. vm_compute. reflexivity. Defined.

Lemma demo_run3_ok : run demo_hasher init_world demo_ops3 = Ok demo_run3.
Proof. vm_compute. reflexivity. Defined.

Lemma demo_seq_ok : BinsVisitor_visit_seq demo_hasher init_world demo_seq = Ok demo_seq_world.
Proof. vm_compute. reflexivity. Defined.

Lemma demo_new_ok : StringCache_new demo_heap = Ok (fst demo_new, snd demo_new).
Proof. vm_compute. reflexivity. Defined.

Lemma demo_entry_ok :
  LeakyBumpAlloc_allocate (alloc demo_bin0) (SIZE_OF_ENTRY + (2 + 1)) = Ok (fst demo_entry, snd demo_entry).
Proof. vm_compute. reflexivity. Defined.


(** ** Witnesses of the further properties *)

Lemma num_entries_distinct_witness :
  STRING_CACHE_init = Ok init_world /\ run demo_hasher init_world demo_ops3 = Ok demo_run3 /\
  Lib.num_entries demo_run3 = Z.of_nat (length (remove_dups (live_from [] demo_ops3))).
Proof.
  split; [exact init_world_ok|]. split; [exact demo_run3_ok|].
  exact (num_entries_distinct demo_hasher init_world demo_ops3 demo_run3 init_world_ok demo_run3_ok).
Defined.

Lemma total_allocated_le_capacity_witness :
  Reachable demo_hasher demo_w1 /\ 0 <= Lib.total_allocated demo_w1 <= total_capacity demo_w1.
Proof.
  split; [exact demo_w1_reachable|].
  exact (total_allocated_le_capacity demo_hasher demo_w1 demo_w1_reachable).
Defined.

Lemma init_and_clear_totals_witness :
  STRING_CACHE_init = Ok init_world /\
  Lib.num_entries init_world = 0 /\ Lib.total_allocated init_world = 0 /\
  total_capacity init_world = INITIAL_ALLOC /\
  forall s, Ustr_from_existing demo_hasher init_world s = Ok None.
Proof.
  split; [exact init_world_ok|].
  exact (init_and_clear_totals demo_hasher init_world (or_introl init_world_ok)).
Defined.

Lemma Ustr_is_empty_spec_witness :
  Reachable demo_hasher init_world /\ Ustr_from demo_hasher init_world str_ab = Ok (demo_ua, demo_w1) /\
  Ustr_is_empty (mem (heap demo_w1)) demo_ua = Ok (bool_decide (str_ab = [])).
Proof.
  split; [exact init_world_reachable|]. split; [exact demo_w1_ok|].
  exact (Ustr_is_empty_spec demo_hasher init_world str_ab demo_ua demo_w1 init_world_reachable demo_w1_ok).
Defined.

Lemma Ustr_as_cstr_spec_witness :
  Reachable demo_hasher init_world /\ Ustr_from demo_hasher init_world str_ab = Ok (demo_ua, demo_w1) /\
  Ustr_as_cstr (mem (heap demo_w1)) demo_ua = Ok (str_ab ++ [x00]).
Proof.
  split; [exact init_world_reachable|]. split; [exact demo_w1_ok|].
  exact (Ustr_as_cstr_spec demo_hasher init_world str_ab demo_ua demo_w1 init_world_reachable demo_w1_ok).
Defined.

Lemma Ustr_eq_str_spec_witness :
  Reachable demo_hasher init_world /\ Ustr_from demo_hasher init_world str_ab = Ok (demo_ua, demo_w1) /\
  Ustr_eq_str (mem (heap demo_w1)) demo_ua str_cd = Ok (bool_decide (str_ab = str_cd)).
Proof.
  split; [exact init_world_reachable|]. split; [exact demo_w1_ok|].
  exact (Ustr_eq_str_spec demo_hasher init_world str_ab demo_ua demo_w1 str_cd init_world_reachable demo_w1_ok).
Defined.

Lemma IdentityHasher_round_trip_witness :
  0 <= 5 < 2 ^ 64 /\
  IdentityHasher_finish (IdentityHasher_write IdentityHasher_default (u64_to_ne_bytes 5)) = 5 /\
  (length str_ab <> 8%nat -> IdentityHasher_write IdentityHasher_default str_ab = IdentityHasher_default).
Proof.
  assert (H : 0 <= 5 < 2 ^ 64) by lia. split; [exact H|].
  exact (IdentityHasher_round_trip IdentityHasher_default 5 str_ab H).
Defined.

Lemma Ustr_hash_identity_witness :
  Reachable demo_hasher init_world /\ Ustr_from demo_hasher init_world str_ab = Ok (demo_ua, demo_w1) /\
  exists st, Ustr_hash (mem (heap demo_w1)) demo_ua IdentityHasher_default = Ok st /\
    IdentityHasher_finish st = ahash demo_hasher str_ab /\
    Ustr_precomputed_hash (mem (heap demo_w1)) demo_ua = Ok (IdentityHasher_finish st).
Proof.
  split; [exact init_world_reachable|]. split; [exact demo_w1_ok|].
  exact (Ustr_hash_identity demo_hasher init_world str_ab demo_ua demo_w1 init_world_reachable demo_w1_ok).
Defined.

Lemma Ustr_ord_consistent_witness :
  Reachable demo_hasher init_world /\ Ustr_from demo_hasher init_world str_ab = Ok (demo_ua, demo_w1) /\
  Ustr_from demo_hasher demo_w1 str_cd = Ok (demo_uc, demo_w4) /\
  Ustr_cmp (mem (heap demo_w4)) demo_ua demo_uc = Ok (bytes_cmp str_ab str_cd) /\
  Ustr_partial_cmp (mem (heap demo_w4)) demo_ua demo_uc = Ok (Some (bytes_cmp str_ab str_cd)) /\
  Ustr_cmp (mem (heap demo_w4)) demo_uc demo_ua = Ok (CompOpp (bytes_cmp str_ab str_cd)) /\
  (Ustr_cmp (mem (heap demo_w4)) demo_ua demo_uc = Ok Eq <-> Ustr_eq demo_ua demo_uc = true).
Proof.
  split; [exact init_world_reachable|]. split; [exact demo_w1_ok|]. split; [exact demo_w4_ok|].
  exact (Ustr_ord_consistent demo_hasher init_world str_ab demo_ua demo_w1 str_cd demo_uc demo_w4
           init_world_reachable demo_w1_ok demo_w4_ok).
Defined.


Lemma Ustr_serde_round_trip_witness :
  Reachable demo_hasher init_world /\ Ustr_from demo_hasher init_world str_ab = Ok (demo_ua, demo_w1) /\
  Ustr_serialize (mem (heap demo_w1)) demo_ua = Ok str_ab /\
  UstrVisitor_visit_str demo_hasher demo_w1 str_ab = Ok (demo_ua, demo_w1).
Proof.
  split; [exact init_world_reachable|]. split; [exact demo_w1_ok|].
  exact (Ustr_serde_round_trip demo_hasher init_world str_ab demo_ua demo_w1 init_world_reachable demo_w1_ok).
Defined.

Lemma BinsVisitor_visit_seq_spec_witness :
  Reachable demo_hasher init_world /\
  BinsVisitor_visit_seq demo_hasher init_world demo_seq = Ok demo_seq_world /\
  (forall s, s ∈ demo_seq -> exists u, Ustr_from_existing demo_hasher demo_seq_world s = Ok (Some u)) /\
  (forall s, s ∉ demo_seq ->
     Ustr_from_existing demo_hasher demo_seq_world s = Ustr_from_existing demo_hasher init_world s).
Proof.
  split; [exact init_world_reachable|]. split; [exact demo_seq_ok|].
  exact (BinsVisitor_visit_seq_spec demo_hasher init_world demo_seq demo_seq_world
           init_world_reachable demo_seq_ok).
Defined.

Lemma round_up_to_spec_witness :
  0 <= 3 /\ 0 <= 5 /\
  (5 + 2 ^ 3 <= USIZE_MAX ->
     exists r, round_up_to 5 (2 ^ 3) = Ok r /\ r mod 2 ^ 3 = 0 /\ 5 <= r < 5 + 2 ^ 3) /\
  (USIZE_MAX < 5 + 2 ^ 3 -> round_up_to 5 (2 ^ 3) = Err (EPanic "round_up_to overflowed")).
Proof.
  assert (H1 : 0 <= 3) by lia. assert (H2 : 0 <= 5) by lia.
  split; [exact H1|]. split; [exact H2|]. exact (round_up_to_spec 5 3 H1 H2).
Defined.

Lemma LeakyBumpAlloc_allocate_cases_witness :
  l_align (layout (alloc demo_bin0)) = 2 ^ 3 /\ 0 <= 3 <= 64 /\ 0 <= 20 /\
  0 <= ptr (alloc demo_bin0) < 2 ^ 64 /\
  (ptr (alloc demo_bin0) < 20 -> LeakyBumpAlloc_allocate (alloc demo_bin0) 20 = Err (EPanic "ptr sub overflowed")) /\
  (20 <= ptr (alloc demo_bin0) -> (ptr (alloc demo_bin0) - 20) / 2 ^ 3 * 2 ^ 3 < start (alloc demo_bin0) ->
     LeakyBumpAlloc_allocate (alloc demo_bin0) 20 = Err EAbort) /\
  (20 <= ptr (alloc demo_bin0) -> start (alloc demo_bin0) <= (ptr (alloc demo_bin0) - 20) / 2 ^ 3 * 2 ^ 3 ->
     exists r, LeakyBumpAlloc_allocate (alloc demo_bin0) 20 =
                 Ok (r, mkAlloc (layout (alloc demo_bin0)) (start (alloc demo_bin0)) (end_ (alloc demo_bin0)) r) /\
       r mod 2 ^ 3 = 0 /\ start (alloc demo_bin0) <= r /\
       r + 20 <= ptr (alloc demo_bin0) < r + 20 + 2 ^ 3 /\
       LeakyBumpAlloc_allocated (mkAlloc (layout (alloc demo_bin0)) (start (alloc demo_bin0)) (end_ (alloc demo_bin0)) r) =
         LeakyBumpAlloc_allocated (alloc demo_bin0) + (ptr (alloc demo_bin0) - r)).
Proof.
  assert (H1 : l_align (layout (alloc demo_bin0)) = 2 ^ 3) by (vm_compute; reflexivity).
  assert (H2 : 0 <= 3 <= 64) by lia. assert (H3 : 0 <= 20) by lia.
  assert (H4 : 0 <= ptr (alloc demo_bin0) < 2 ^ 64)
    by (split; [apply Z.leb_le|apply Z.ltb_lt]; vm_compute; reflexivity).
  split; [exact H1|]. split; [exact H2|]. split; [exact H3|]. split; [exact H4|].
  exact (LeakyBumpAlloc_allocate_cases (alloc demo_bin0) 20 3 H1 H2 H3 H4).
Defined.

Lemma allocate_next_entry_witness :
  l_align (layout (alloc demo_bin0)) = ALIGN_OF_ENTRY /\
  ptr (alloc demo_bin0) mod ALIGN_OF_ENTRY = 0 /\ ptr (alloc demo_bin0) < 2 ^ 64 /\ 0 <= 2 /\
  LeakyBumpAlloc_allocate (alloc demo_bin0) (SIZE_OF_ENTRY + (2 + 1)) = Ok (fst demo_entry, snd demo_entry) /\
  round_up_to (2 + 1) ALIGN_OF_ENTRY = Ok (ptr (alloc demo_bin0) - (fst demo_entry + SIZE_OF_ENTRY)).
Proof.
  assert (H1 : l_align (layout (alloc demo_bin0)) = ALIGN_OF_ENTRY) by (vm_compute; reflexivity).
  assert (H2 : ptr (alloc demo_bin0) mod ALIGN_OF_ENTRY = 0) by (vm_compute; reflexivity).
  assert (H3 : ptr (alloc demo_bin0) < 2 ^ 64) by (apply Z.ltb_lt; vm_compute; reflexivity).
  assert (H4 : 0 <= 2) by lia.
  split; [exact H1|]. split; [exact H2|]. split; [exact H3|]. split; [exact H4|].
  split; [exact demo_entry_ok|].
  exact (allocate_next_entry (alloc demo_bin0) 2 (fst demo_entry) (snd demo_entry) H1 H2 H3 H4 demo_entry_ok).
Defined.

Lemma Ustr_from_total_allocated_witness :
  Reachable demo_hasher init_world /\ Ustr_from demo_hasher init_world str_ab = Ok (demo_ua, demo_w1) /\
  (present demo_hasher init_world str_ab -> Lib.total_allocated demo_w1 = Lib.total_allocated init_world) /\
  (~ present demo_hasher init_world str_ab ->
     strlen str_ab + 17 <= Lib.total_allocated demo_w1 - Lib.total_allocated init_world <= strlen str_ab + 24).
Proof.
  split; [exact init_world_reachable|]. split; [exact demo_w1_ok|].
  exact (Ustr_from_total_allocated demo_hasher init_world str_ab demo_ua demo_w1 init_world_reachable demo_w1_ok).
Defined.


Lemma StringCache_new_empty_witness :
  StringCache_new demo_heap = Ok (fst demo_new, snd demo_new) /\ HEAP_BASE <= brk demo_heap /\
  num_entries (fst demo_new) = 0 /\ mask (fst demo_new) = 16383 /\
  slots_len (entries (fst demo_new)) = 16384 /\
  StringCache_total_allocated (fst demo_new) = 0 /\ StringCache_total_capacity (fst demo_new) = 65536 /\
  forall m s h, StringCache_get_existing (fst demo_new) m s h = Ok None.
Proof.
  assert (H : HEAP_BASE <= brk demo_heap) by (unfold demo_heap; cbn [brk]; lia).
  split; [exact demo_new_ok|]. split; [exact H|].
  exact (StringCache_new_empty demo_heap (fst demo_new) (snd demo_new) demo_new_ok H).
Defined.

Lemma LeakyBumpAlloc_new_cases_witness :
  is_power_of_two 3 = false /\
  LeakyBumpAlloc_new 64 3 demo_heap = Err (EPanic "called `Result::unwrap()` on an `Err` value").
Proof.
  assert (H : is_power_of_two 3 = false) by reflexivity. split; [exact H|].
  exact (proj1 (LeakyBumpAlloc_new_cases 64 3 demo_heap) (or_introl H)).
Defined.

Lemma Bins_serialize_empty_panics_witness :
  STRING_CACHE_init = Ok init_world /\
  Bins_serialize 10 init_world = Err (EPanic "index out of bounds").
Proof.
  split; [exact init_world_ok|].
  exact (Bins_serialize_empty_panics demo_hasher 10 init_world (or_introl init_world_ok)).
Defined.
